(** * mkrepo: the RPM metadata reconciliation engine of [rpmrepo.py]

    A shallow embedding of [rpmrepo.py] and the properties of its version
    codec, document parsers, header mapper and reconciliation loop. *)

From Stdlib Require Import ZArith QArith Qcanon String Ascii DecimalString DecimalZ.
From stdpp Require Import gmap strings list.

Local Open Scope Z_scope.
#[local] Arguments String.append !s1 s2 : simpl nomatch.

(** ** Exceptions and the error monad

    Python exceptions are values of [exn]; a computation that may raise
    returns [res A]. *)

Inductive exn : Type :=
  | KeyError (key : string)
  | AttributeError
  | TypeError
  | IndexError
  | ValueError
  | RuntimeError (msg : string)
  | CollaboratorError (who : string).

Inductive res (A : Type) : Type :=
  | Ok (a : A)
  | Raise (e : exn).
Arguments Ok {A} a.
Arguments Raise {A} e.

Global Instance res_ret : MRet res := fun A a => Ok a.
Global Instance res_bind : MBind res := fun A B f m =>
  match m with
  | Ok a => f a
  | Raise e => Raise e
  end.
Global Instance res_fmap : FMap res := fun A B f m =>
  match m with
  | Ok a => Ok (f a)
  | Raise e => Raise e
  end.

Definition is_Ok {A} (m : res A) : Prop := exists a, m = Ok a.
Definition is_Raise {A} (m : res A) : Prop := exists e, m = Raise e.

(** ** Python values

    The scalars the program moves around without looking inside them:
    [None], a byte string, an integer. *)

Inductive pyval : Type :=
  | PyNone
  | PyStr (s : string)
  | PyInt (z : Z).

Global Instance pyval_eq_dec : EqDecision pyval.
Proof. solve_decision. Defined.

Global Instance pyval_countable : Countable pyval.
Proof.
  refine (inj_countable'
    (fun v => match v with
              | PyNone => inl ()
              | PyStr s => inr (inl s)
              | PyInt z => inr (inr z)
              end)
    (fun x => match x with
              | inl _ => PyNone
              | inr (inl s) => PyStr s
              | inr (inr z) => PyInt z
              end) _).
  by intros [].
Defined.

(** A nullable string ([None] or a [str]) as a Python value. *)
Definition of_opt (o : option string) : pyval :=
  match o with
  | Some s => PyStr s
  | None => PyNone
  end.

(** ** The fragment of Python's [re] that the program uses

    A backtracking matcher with Python's priorities: a star is greedy and
    gives characters back one at a time, an optional part is tried first
    with its body and then without it.  Every star of the program's
    patterns is over a character class. *)

Module Re.

Inductive regex : Type :=
  | Bol                          (* ^ *)
  | Eol                          (* $ *)
  | Chr (c : ascii)              (* a literal character *)
  | Star (p : ascii -> bool)     (* [class]* *)
  | Plus (p : ascii -> bool)     (* [class]+ *)
  | Seq (r1 r2 : regex)
  | Opt (r : regex)              (* r? *)
  | Group (n : nat) (r : regex). (* ( r ), numbered *)

(** The matcher's position: the text already consumed, the text ahead,
    and the groups captured so far. *)
Record mstate : Type := MState {
  seen : string;
  ahead : string;
  groups : gmap nat string
}.

Definition snoc (s : string) (c : ascii) : string := s +:+ String c "".

(** Greedy repetition of a class: take the longest run first, then give
    back one character at a time. *)
Fixpoint star {A} (p : ascii -> bool) (sn ah : string)
    (k : string -> string -> option A) : option A :=
  match ah with
  | String c ah' =>
      if p c then
        match star p (snoc sn c) ah' k with
        | Some a => Some a
        | None => k sn ah
        end
      else k sn ah
  | EmptyString => k sn ah
  end.

Definition newline : ascii := ascii_of_nat 10.

Fixpoint run {A} (r : regex) (st : mstate) (k : mstate -> option A) : option A :=
  match r with
  | Bol => if decide (seen st = "") then k st else None
  | Eol =>
      (* without MULTILINE: at the end, or before a final newline *)
      if decide (ahead st = "") then k st
      else if decide (ahead st = String newline "") then k st
      else None
  | Chr c =>
      match ahead st with
      | String c' ah' =>
          if decide (c' = c) then k (MState (snoc (seen st) c') ah' (groups st))
          else None
      | EmptyString => None
      end
  | Star p =>
      star p (seen st) (ahead st) (fun sn ah => k (MState sn ah (groups st)))
  | Plus p =>
      match ahead st with
      | String c' ah' =>
          if p c' then
            star p (snoc (seen st) c') ah' (fun sn ah => k (MState sn ah (groups st)))
          else None
      | EmptyString => None
      end
  | Seq r1 r2 => run r1 st (fun st' => run r2 st' k)
  | Opt r' =>
      match run r' st k with
      | Some a => Some a
      | None => k st
      end
  | Group n r' =>
      run r' st (fun st' =>
        k (MState (seen st') (ahead st')
             (<[n := String.substring (String.length (seen st))
                       (String.length (seen st') - String.length (seen st))%nat
                       (seen st')]> (groups st'))))
  end.

(** [re.match(pattern, text)]: match at the start of the text; the result
    is the captured groups, [None] when there is no match. *)
Definition start (text : string) : mstate := MState "" text ∅.
Definition finish (st : mstate) : option (gmap nat string) := Some (groups st).

Definition re_match (r : regex) (text : string) : option (gmap nat string) :=
  run r (start text) finish.

(** The characters of [s] one after the other, then [r]. *)
Fixpoint lit_then (s : string) (r : regex) : regex :=
  match s with
  | String c s' => Seq (Chr c) (lit_then s' r)
  | EmptyString => r
  end.

End Re.

(** Character classes of the two patterns. *)
Definition is_digit (c : ascii) : bool :=
  (48 <=? nat_of_ascii c)%nat && (nat_of_ascii c <=? 57)%nat.
Definition not_dash (c : ascii) : bool := negb (Ascii.eqb c "-").
Definition not_newline (c : ascii) : bool := negb (Ascii.eqb c Re.newline).

(** ** parse_ver_str *)

(** The pattern [expr]: start, an optional group 1 of digits and a colon,
    group 2 of characters other than a dash, a dash, group 3 of characters
    other than a dash, end. *)
Definition ver_epoch : Re.regex :=
  Re.Group 1 (Re.Seq (Re.Plus is_digit) (Re.Chr ":")).

Definition ver_body : Re.regex :=
  Re.Seq (Re.Group 2 (Re.Star not_dash))
    (Re.Seq (Re.Chr "-")
       (Re.Seq (Re.Group 3 (Re.Star not_dash)) Re.Eol)).

Definition ver_expr : Re.regex :=
  Re.Seq Re.Bol (Re.Seq (Re.Opt ver_epoch) ver_body).

(** [s[:-1]] *)
Definition drop_last (s : string) : string :=
  String.substring 0 (String.length s - 1) s.

Definition cant_parse (ver_str : string) : exn :=
  RuntimeError ("Can't parse version: '" +:+ ver_str +:+ "'").

Definition parse_ver_str (ver_str : option string)
    : res (option string * option string * option string) :=
  match ver_str with
  | None | Some "" => Ok (None, None, None)
  | Some s =>
      match Re.re_match ver_expr s with
      | None => Raise (cant_parse s)
      | Some m =>
          let epoch :=
            match m !! 1%nat with
            | Some g1 => if decide (g1 = "") then "0" else drop_last g1
            | None => "0"
            end in
          Ok (Some epoch, m !! 2%nat, m !! 3%nat)
      end
  end.

(** ** The metadata model

    The dictionaries with a fixed set of keys that the program builds are
    records; the dictionaries keyed by an identity tuple are maps. *)

(** [{'ver': .., 'rel': .., 'epoch': ..}] *)
Record Version : Type := mkVersion {
  ver : pyval;
  rel : pyval;
  epoch : pyval
}.

(** A package identity: [(name, epoch, rel, ver)]. *)
Definition nerv : Type := (pyval * pyval * pyval * pyval)%type.

(** The key of a dependency entry: [(name, epoch, rel, ver)]. *)
Definition depkey : Type :=
  (string * option string * option string * option string)%type.

(** An entry of [provides] or [obsoletes]. *)
Record DepEntry : Type := mkDep {
  dep_name : string;
  dep_epoch : option string;
  dep_rel : option string;
  dep_ver : option string;
  dep_flags : option string
}.

(** An entry of [requires]: the same keys and ['pre']. *)
Record ReqEntry : Type := mkReq {
  req_name : string;
  req_epoch : option string;
  req_rel : option string;
  req_ver : option string;
  req_flags : option string;
  req_pre : option string
}.

Inductive FileType : Type := file | dir.

(** [{'name': .., 'type': ..}]; [text] of a document node may be [None]. *)
Record FileEntry : Type := mkFile {
  file_name : option string;
  file_type : FileType
}.

Record Format : Type := mkFormat {
  fmt_license : pyval;
  fmt_vendor : pyval;
  fmt_group : pyval;
  fmt_buildhost : pyval;
  fmt_sourcerpm : pyval;
  fmt_header_start : pyval;
  fmt_header_end : pyval;
  fmt_provides : gmap depkey DepEntry;
  fmt_requires : gmap depkey ReqEntry;
  fmt_obsoletes : gmap depkey DepEntry;
  fmt_files : list FileEntry
}.

Record Primary : Type := mkPrimary {
  pri_checksum : pyval;
  pri_name : pyval;
  pri_arch : pyval;
  pri_version : Version;
  pri_summary : pyval;
  pri_description : pyval;
  pri_packager : pyval;
  pri_url : pyval;
  pri_file_time : string;
  pri_build_time : pyval;
  pri_location : string;
  pri_format : Format
}.

Record Filelists : Type := mkFilelists {
  fl_pkgid : pyval;
  fl_name : pyval;
  fl_arch : pyval;
  fl_version : Version;
  fl_files : list FileEntry
}.

Definition version_nerv (name : pyval) (v : Version) : nerv :=
  (name, epoch v, rel v, ver v).

(** The identity tuple that a record carries in its own fields. *)
Definition pri_identity (p : Primary) : nerv :=
  version_nerv (pri_name p) (pri_version p).
Definition fl_identity (p : Filelists) : nerv :=
  version_nerv (fl_name p) (fl_version p).

(** ** Documents

    The tree that [ET.fromstring] returns: a tag in the form [{namespace}local],
    the attributes, the text (or [None]) and the child elements. *)

#[warnings="-register-all"]
Inductive Element : Type :=
  | Elem (tag : string) (attrib : gmap string string)
         (text : option string) (children : list Element).

Definition tag (e : Element) : string := let (t, _, _, _) := e in t.
Definition attrib (e : Element) : gmap string string := let (_, a, _, _) := e in a.
Definition text (e : Element) : option string := let (_, _, t, _) := e in t.
Definition children (e : Element) : list Element := let (_, _, _, c) := e in c.

Definition qname (namespace local : string) : string :=
  "{" +:+ namespace +:+ "}" +:+ local.

Definition ns_repo : string := "http://linux.duke.edu/metadata/repo".
Definition ns_filelists : string := "http://linux.duke.edu/metadata/filelists".
Definition ns_common : string := "http://linux.duke.edu/metadata/common".
Definition ns_rpm : string := "http://linux.duke.edu/metadata/rpm".

(** [e.find(path, namespaces)]: the first child with that tag, or [None]. *)
Definition find (e : Element) (qn : string) : option Element :=
  List.find (fun c => bool_decide (tag c = qn)) (children e).

(** [e.findall(path, namespaces)]: the children with that tag. *)
Definition findall (e : Element) (qn : string) : list Element :=
  List.filter (fun c => bool_decide (tag c = qn)) (children e).

(** [x.text] where [x] is the result of a [find]. *)
Definition text_of (x : option Element) : res (option string) :=
  match x with
  | Some e => Ok (text e)
  | None => Raise AttributeError
  end.

(** [x.attrib] where [x] is the result of a [find]. *)
Definition attrib_of (x : option Element) : res (gmap string string) :=
  match x with
  | Some e => Ok (attrib e)
  | None => Raise AttributeError
  end.

(** [d[key]] on a dictionary with string keys. *)
Definition getitem {V} (d : gmap string V) (key : string) : res V :=
  match d !! key with
  | Some v => Ok v
  | None => Raise (KeyError key)
  end.

(** [s.endswith(suffix)] *)
Definition endswith (s suffix : string) : bool :=
  bool_decide (String.substring (String.length s - String.length suffix)
                 (String.length suffix) s = suffix)
  && (String.length suffix <=? String.length s)%nat.

(** *** parse_repomd *)

(** The dictionary [result] of [parse_repomd]. *)
Record Locator : Type := mkLocator {
  loc_checksum : option string;
  loc_open_checksum : option string;
  loc_timestamp : option string;
  loc_size : option string;
  loc_open_size : option string;
  loc_location : string
}.

(** The body of the loop of [parse_repomd] that fills [result]. *)
Definition repomd_result (child : Element) : res Locator :=
  checksum ← text_of (find child (qname ns_repo "checksum"));
  open_checksum ← text_of (find child (qname ns_repo "open-checksum"));
  timestamp ← text_of (find child (qname ns_repo "timestamp"));
  size ← text_of (find child (qname ns_repo "size"));
  open_size ← text_of (find child (qname ns_repo "open-size"));
  loc ← attrib_of (find child (qname ns_repo "location"));
  href ← getitem loc "href";
  Ok (mkLocator checksum open_checksum timestamp size open_size href).

Fixpoint parse_repomd_loop (cs : list Element)
    (filelists primary : option Locator)
    : res (option Locator * option Locator) :=
  match cs with
  | [] => Ok (filelists, primary)
  | child :: cs' =>
      match attrib child !! "type" with
      | None => parse_repomd_loop cs' filelists primary
      | Some ty =>
          result ← repomd_result child;
          if decide (ty = "filelists") then
            parse_repomd_loop cs' (Some result) primary
          else if decide (ty = "primary") then
            parse_repomd_loop cs' filelists (Some result)
          else parse_repomd_loop cs' filelists primary
      end
  end.

(** [parse_repomd], from the parsed root on. *)
Definition parse_repomd (root : Element) : res (option Locator * option Locator) :=
  parse_repomd_loop (children root) None None.

(** *** parse_filelists and parse_primary *)

(** The nodes that the loops over [root] keep: the tag ends in [}package]. *)
Definition is_package (child : Element) : bool := endswith (tag child) "}package".

(** [{'ver': a['ver'], 'rel': a['rel'], 'epoch': a['epoch']}] *)
Definition version_of_attrib (a : gmap string string) : res Version :=
  v ← getitem a "ver";
  r ← getitem a "rel";
  e ← getitem a "epoch";
  Ok (mkVersion (PyStr v) (PyStr r) (PyStr e)).

(** A file node: a directory when its [type] attribute says [dir]. *)
Definition file_of_node (node : Element) : FileEntry :=
  mkFile (text node)
    (if decide (attrib node !! "type" = Some "dir") then dir else file).

Definition filelists_package (child : Element) : res (nerv * Filelists) :=
  pkgid ← getitem (attrib child) "pkgid";
  name ← getitem (attrib child) "name";
  arch ← getitem (attrib child) "arch";
  va ← attrib_of (find child (qname ns_filelists "version"));
  version ← version_of_attrib va;
  let files := file_of_node <$> findall child (qname ns_filelists "file") in
  let package := mkFilelists (PyStr pkgid) (PyStr name) (PyStr arch) version files in
  Ok (version_nerv (PyStr name) version, package).

Fixpoint parse_filelists_loop (cs : list Element) (packages : gmap nerv Filelists)
    : res (gmap nerv Filelists) :=
  match cs with
  | [] => Ok packages
  | child :: cs' =>
      if is_package child then
        '(key, package) ← filelists_package child;
        parse_filelists_loop cs' (<[key := package]> packages)
      else parse_filelists_loop cs' packages
  end.

Definition parse_filelists (root : Element) : res (gmap nerv Filelists) :=
  parse_filelists_loop (children root) ∅.

(** One entry node of [provides] or [obsoletes]. *)
Definition dep_of_node (entry : Element) : res (depkey * DepEntry) :=
  name ← getitem (attrib entry) "name";
  let e := attrib entry !! "epoch" in
  let r := attrib entry !! "rel" in
  let v := attrib entry !! "ver" in
  let f := attrib entry !! "flags" in
  Ok ((name, e, r, v), mkDep name e r v f).

(** One entry node of [requires]. *)
Definition req_of_node (entry : Element) : res (depkey * ReqEntry) :=
  name ← getitem (attrib entry) "name";
  let e := attrib entry !! "epoch" in
  let r := attrib entry !! "rel" in
  let v := attrib entry !! "ver" in
  let f := attrib entry !! "flags" in
  let pre := attrib entry !! "pre" in
  Ok ((name, e, r, v), mkReq name e r v f pre).

(** [for entry in block: d[nerv] = {...}] *)
Fixpoint dict_of_nodes {V} (mk : Element -> res (depkey * V))
    (entries : list Element) (d : gmap depkey V) : res (gmap depkey V) :=
  match entries with
  | [] => Ok d
  | entry :: entries' =>
      '(key, v) ← mk entry;
      dict_of_nodes mk entries' (<[key := v]> d)
  end.

(** [block = fmt.find(..); if block is None: block = []] *)
Definition block_entries (fmt : Element) (qn : string) : list Element :=
  match find fmt qn with
  | Some block => children block
  | None => []
  end.

Definition primary_package (child : Element) : res (nerv * Primary) :=
  checksum ← text_of (find child (qname ns_common "checksum"));
  name ← text_of (find child (qname ns_common "name"));
  arch ← text_of (find child (qname ns_common "arch"));
  summary ← text_of (find child (qname ns_common "summary"));
  description ← text_of (find child (qname ns_common "description"));
  packager ← text_of (find child (qname ns_common "packager"));
  url ← text_of (find child (qname ns_common "url"));
  time ← attrib_of (find child (qname ns_common "time"));
  file_time ← getitem time "file";
  build_time ← getitem time "build";
  loc ← attrib_of (find child (qname ns_common "location"));
  location ← getitem loc "href";
  va ← attrib_of (find child (qname ns_common "version"));
  version ← version_of_attrib va;
  match find child (qname ns_common "format") with
  | None => Raise AttributeError
  | Some fmt =>
      format_license ← text_of (find fmt (qname ns_rpm "license"));
      format_vendor ← text_of (find fmt (qname ns_rpm "vendor"));
      format_group ← text_of (find fmt (qname ns_rpm "group"));
      format_buildhost ← text_of (find fmt (qname ns_rpm "buildhost"));
      format_sourcerpm ← text_of (find fmt (qname ns_rpm "sourcerpm"));
      header_range ← attrib_of (find fmt (qname ns_rpm "header-range"));
      format_header_start ← getitem header_range "start";
      format_header_end ← getitem header_range "end";
      provides_dict ← dict_of_nodes dep_of_node (block_entries fmt (qname ns_rpm "provides")) ∅;
      requires_dict ← dict_of_nodes req_of_node (block_entries fmt (qname ns_rpm "requires")) ∅;
      obsoletes_dict ← dict_of_nodes dep_of_node (block_entries fmt (qname ns_rpm "obsoletes")) ∅;
      let files := file_of_node <$> findall fmt (qname ns_common "file") in
      let format_dict :=
        mkFormat (of_opt format_license) (of_opt format_vendor) (of_opt format_group)
          (of_opt format_buildhost) (of_opt format_sourcerpm)
          (PyStr format_header_start) (PyStr format_header_end)
          provides_dict requires_dict obsoletes_dict files in
      let package :=
        mkPrimary (of_opt checksum) (of_opt name) (of_opt arch) version
          (of_opt summary) (of_opt description) (of_opt packager) (of_opt url)
          file_time (PyStr build_time) location format_dict in
      Ok (version_nerv (of_opt name) version, package)
  end.

Fixpoint parse_primary_loop (cs : list Element) (packages : gmap nerv Primary)
    : res (gmap nerv Primary) :=
  match cs with
  | [] => Ok packages
  | child :: cs' =>
      if is_package child then
        '(key, package) ← primary_package child;
        parse_primary_loop cs' (<[key := package]> packages)
      else parse_primary_loop cs' packages
  end.

Definition parse_primary (root : Element) : res (gmap nerv Primary) :=
  parse_primary_loop (children root) ∅.

(** ** The archive header

    The field dictionary of an archive, by tag: a field is [None] when the
    dictionary has no such key.  Scalar tags hold a Python scalar; the
    dependency and file tables hold lists of strings and of integers. *)

Record Header : Type := mkHeader {
  NAME : option pyval;
  ARCH : option pyval;
  SUMMARY : option pyval;
  DESCRIPTION : option pyval;
  PACKAGER : option pyval;
  BUILDTIME : option pyval;
  URL : option pyval;
  EPOCH : option pyval;
  RELEASE : option pyval;
  VERSION : option pyval;
  LICENSE : option pyval;
  VENDOR : option pyval;
  GROUP : option pyval;
  BUILDHOST : option pyval;
  SOURCERPM : option pyval;
  PROVIDENAME : option (list string);
  PROVIDEVERSION : option (list string);
  PROVIDEFLAGS : option (list Z);
  REQUIRENAME : option (list string);
  REQUIREVERSION : option (list string);
  REQUIREFLAGS : option (list Z);
  OBSOLETENAME : option (list string);
  OBSOLETEVERSION : option (list string);
  OBSOLETEFLAGS : option (list Z);
  BASENAMES : option (list string);
  DIRNAMES : option (list string);
  DIRINDEXES : option (list Z)
}.

(** [header[key]] *)
Definition hitem {A} (key : string) (field : option A) : res A :=
  match field with
  | Some v => Ok v
  | None => Raise (KeyError key)
  end.

(** [header.get(key, None)] *)
Definition hget (field : option pyval) : pyval := default PyNone field.

(** [header.get(key, [])] *)
Definition hget_list {A} (field : option (list A)) : list A := default [] field.

(** [zip(a, b, c)] *)
Definition zip3 {A B C} (a : list A) (b : list B) (c : list C) : list (A * B * C) :=
  zip (zip a b) c.

(** [l[i]] on a list: a negative index counts from the end. *)
Definition py_index {A} (l : list A) (i : Z) : res A :=
  let n := Z.of_nat (length l) in
  let j := if (i <? 0)%Z then (i + n)%Z else i in
  if (0 <=? j)%Z && (j <? n)%Z then
    match l !! Z.to_nat j with
    | Some x => Ok x
    | None => Raise IndexError
    end
  else Raise IndexError.

(** The first loop of the manifest: one file entry per pair of
    [zip(basenames, dirindexes)]. *)
Fixpoint file_entries (dirnames : list string) (entries : list (string * Z))
    : res (list FileEntry) :=
  match entries with
  | [] => Ok []
  | (filename, idx) :: entries' =>
      dirname ← py_index dirnames idx;
      files ← file_entries dirnames entries';
      Ok (mkFile (Some (dirname +:+ filename)) file :: files)
  end.

(** The manifest: the file entries, then one directory entry per [dirnames]. *)
Definition manifest (dirnames basenames : list string) (dirindexes : list Z)
    : res (list FileEntry) :=
  files ← file_entries dirnames (zip basenames dirindexes);
  Ok (files ++ ((fun d => mkFile (Some d) dir) <$> dirnames)).

Definition header_to_filelists (header : Header) (sha256 : string)
    : res (nerv * Filelists) :=
  let pkgid := sha256 in
  name ← hitem "NAME" (NAME header);
  arch ← hitem "ARCH" (ARCH header);
  let epoch := hget (EPOCH header) in
  let rel := hget (RELEASE header) in
  ver ← hitem "VERSION" (VERSION header);
  let version := mkVersion ver rel epoch in
  dirnames ← hitem "DIRNAMES" (DIRNAMES header);
  basenames ← hitem "BASENAMES" (BASENAMES header);
  dirindexes ← hitem "DIRINDEXES" (DIRINDEXES header);
  files ← manifest dirnames basenames dirindexes;
  let package := mkFilelists (PyStr pkgid) name arch version files in
  Ok (version_nerv name version, package).

(** ** header_to_primary *)

(** Timestamps are exact rational numbers: a Python [int] or a finite
    [float] is one, and [==] on them is equality of the numbers. *)
Definition number : Type := Qc.

(** [int(m)]: truncation towards zero. *)
Definition py_int (m : number) : Z := Z.quot (Qnum m) (Zpos (Qden m)).

(** [str(n)] of an integer: its decimal digits, with a sign when negative. *)
Definition py_str (n : Z) : string := NilZero.string_of_int (Z.to_int n).

Definition number_of_Z (n : Z) : number := Q2Qc (inject_Z n).

(** The entries of the three dependency loops: [zip] of the three tables,
    each [header.get(.., [])]. *)
Definition provides_entries (header : Header) : list (string * string * Z) :=
  zip3 (hget_list (PROVIDENAME header)) (hget_list (PROVIDEVERSION header))
       (hget_list (PROVIDEFLAGS header)).
Definition requires_entries (header : Header) : list (string * string * Z) :=
  zip3 (hget_list (REQUIRENAME header)) (hget_list (REQUIREVERSION header))
       (hget_list (REQUIREFLAGS header)).
Definition obsoletes_entries (header : Header) : list (string * string * Z) :=
  zip3 (hget_list (OBSOLETENAME header)) (hget_list (OBSOLETEVERSION header))
       (hget_list (OBSOLETEFLAGS header)).

Section Mapper.

(** Two names of the module [rpmfile]: the bit of a requirement on the
    package manager itself, and the decoder of the comparison flags. *)
Context (RPMSENSE_RPMLIB : Z) (flags_to_str : Z -> option string).

(** The loop over [zip(providename, provideversion, provideflags)], and the
    same loop for [obsoletes]. *)
Fixpoint deps_loop (entries : list (string * string * Z))
    (d : gmap depkey DepEntry) : res (gmap depkey DepEntry) :=
  match entries with
  | [] => Ok d
  | (name, version, flags) :: entries' =>
      '(e, v, r) ← parse_ver_str (Some version);
      let f := flags_to_str flags in
      deps_loop entries' (<[(name, e, r, v) := mkDep name e r v f]> d)
  end.

(** The test of the requires loop for an entry that it skips. *)
Definition internal_only (flags : Z) : Prop := Z.land flags RPMSENSE_RPMLIB ≠ 0.

(** The prerequisite marker of a requires entry. *)
Definition pre_of (flags : Z) : option string :=
  if decide (Z.land flags 4352 ≠ 0) then Some "1" else None.

(** The record that the requires loop stores for an entry that it keeps. *)
Definition req_record (name : string) (evr : option string * option string * option string)
    (flags : Z) : depkey * ReqEntry :=
  let '(e, v, r) := evr in
  ((name, e, r, v), mkReq name e r v (flags_to_str flags) (pre_of flags)).

(** The loop over [zip(requirename, requireversion, requireflags)]. *)
Fixpoint requires_loop (entries : list (string * string * Z))
    (d : gmap depkey ReqEntry) : res (gmap depkey ReqEntry) :=
  match entries with
  | [] => Ok d
  | (name, version, flags) :: entries' =>
      evr ← parse_ver_str (Some version);
      if decide (internal_only flags) then
        requires_loop entries' d
      else
        let '(key, record) := req_record name evr flags in
        requires_loop entries' (<[key := record]> d)
  end.

Definition header_to_primary (header : Header) (sha256 : string)
    (mtime : number) (location : string) : res (nerv * Primary) :=
  name ← hitem "NAME" (NAME header);
  arch ← hitem "ARCH" (ARCH header);
  summary ← hitem "SUMMARY" (SUMMARY header);
  description ← hitem "DESCRIPTION" (DESCRIPTION header);
  let packager := hget (PACKAGER header) in
  build_time ← hitem "BUILDTIME" (BUILDTIME header);
  url ← hitem "URL" (URL header);
  let epoch := hget (EPOCH header) in
  let rel := hget (RELEASE header) in
  ver ← hitem "VERSION" (VERSION header);
  let version := mkVersion ver rel epoch in
  let format_license := hget (LICENSE header) in
  let format_vendor := hget (VENDOR header) in
  let format_group := hget (GROUP header) in
  let format_buildhost := hget (BUILDHOST header) in
  let format_sourcerpm := hget (SOURCERPM header) in
  let format_header_start := PyNone in
  let format_header_end := PyNone in
  provides_dict ← deps_loop (provides_entries header) ∅;
  requires_dict ← requires_loop (requires_entries header) ∅;
  obsoletes_dict ← deps_loop (obsoletes_entries header) ∅;
  dirnames ← hitem "DIRNAMES" (DIRNAMES header);
  basenames ← hitem "BASENAMES" (BASENAMES header);
  dirindexes ← hitem "DIRINDEXES" (DIRINDEXES header);
  files ← manifest dirnames basenames dirindexes;
  let format_dict :=
    mkFormat format_license format_vendor format_group format_buildhost
      format_sourcerpm format_header_start format_header_end
      provides_dict requires_dict obsoletes_dict files in
  let package :=
    mkPrimary (PyStr sha256) name arch version summary description packager url
      (py_str (py_int mtime)) build_time location format_dict in
  Ok (version_nerv name version, package).

End Mapper.

(** ** update_repo *)

(** The pattern of an archive path: start, any characters other than a
    newline, the text [.rpm], end. *)
Definition rpm_expr : Re.regex :=
  Re.Seq Re.Bol (Re.Seq (Re.Star not_newline) (Re.lit_then ".rpm" Re.Eol)).

(** The storage backend, as the calls of [update_repo] see it. *)
Record Storage : Type := mkStorage {
  st_exists : string -> bool;
  st_read_file : string -> res string;
  st_files : string -> res (list string);
  st_mtime : string -> res number;
  (* the bytes that [download_file] writes to its destination *)
  st_download_file : string -> res string
}.

(** The process's own effects: the scratch directories that exist, each
    with the content of its [package.rpm] when that was written, and the
    lines printed. *)
Record World : Type := mkWorld {
  scratch : gmap nat (option string);
  stdout : list string
}.

(** A computation with effects on the world that may raise. *)
Record M (A : Type) : Type := mkM { runM : World -> World * res A }.
Arguments mkM {A} _.
Arguments runM {A} _ _.

Global Instance M_ret : MRet M := fun A a => mkM (fun w => (w, Ok a)).
Global Instance M_bind : MBind M := fun A B f m =>
  mkM (fun w =>
    match runM m w with
    | (w', Ok a) => runM (f a) w'
    | (w', Raise e) => (w', Raise e)
    end).

Definition lift {A} (r : res A) : M A := mkM (fun w => (w, r)).

Definition print (line : string) : M unit :=
  mkM (fun w => (mkWorld (scratch w) (stdout w ++ [line]), Ok ())).

(** [tempfile.mkdtemp()]: a new, empty directory. *)
Definition mkdtemp : M nat :=
  mkM (fun w =>
    let d := fresh (dom (scratch w)) in
    (mkWorld (<[d := None]> (scratch w)) (stdout w), Ok d)).

(** [shutil.rmtree(tmpdir)] *)
Definition rmtree (tmpdir : nat) : M unit :=
  mkM (fun w =>
    match scratch w !! tmpdir with
    | Some _ => (mkWorld (delete tmpdir (scratch w)) (stdout w), Ok ())
    | None => (w, Raise (CollaboratorError "rmtree"))
    end).

(** Writing [package.rpm] into a scratch directory. *)
Definition write_package (tmpdir : nat) (content : string) : M unit :=
  mkM (fun w =>
    match scratch w !! tmpdir with
    | Some _ => (mkWorld (<[tmpdir := Some content]> (scratch w)) (stdout w), Ok ())
    | None => (w, Raise (CollaboratorError "open"))
    end).

(** Reading [package.rpm] from a scratch directory. *)
Definition read_package (tmpdir : nat) : M string :=
  mkM (fun w =>
    match scratch w !! tmpdir with
    | Some (Some content) => (w, Ok content)
    | _ => (w, Raise (CollaboratorError "open"))
    end).

(** The two dictionaries of the index. *)
Definition Index : Type := (gmap nerv Filelists * gmap nerv Primary)%type.

Section Engine.

Context (RPMSENSE_RPMLIB : Z) (flags_to_str : Z -> option string).

(** The collaborators: the document reader [ET.fromstring], [gunzip_string],
    the builtin [float] on a string, the header extractor
    [RpmInfo().parse_file] and the digest of [file_checksum], the last two
    as functions of the content of the file that they open. *)
Context (fromstring : string -> res Element)
        (gunzip_string : string -> res string)
        (py_float : string -> res number)
        (parse_file : string -> res Header)
        (hexdigest : string -> string).

Context (storage : Storage).

(** [d['location']] where [d] is a slot of the result of [parse_repomd]. *)
Definition locator_location (d : option Locator) : res string :=
  match d with
  | Some l => Ok (loc_location l)
  | None => Raise TypeError
  end.

(** The first part of [update_repo]: the index that the repository has. *)
Definition load_index : res Index :=
  if st_exists storage "repodata/repomd.xml" then
    data ← st_read_file storage "repodata/repomd.xml";
    root ← fromstring data;
    '(filelists, primary) ← parse_repomd root;
    floc ← locator_location filelists;
    data ← st_read_file storage floc;
    xml ← gunzip_string data;
    root ← fromstring xml;
    filelists ← parse_filelists root;
    ploc ← locator_location primary;
    data ← st_read_file storage ploc;
    xml ← gunzip_string data;
    root ← fromstring xml;
    primary ← parse_primary root;
    Ok (filelists, primary)
  else Ok (∅, ∅).

Fixpoint recorded_loop (packages : list Primary) (recorded_files : gset (string * number))
    : res (gset (string * number)) :=
  match packages with
  | [] => Ok recorded_files
  | package :: packages' =>
      t ← py_float (pri_file_time package);
      recorded_loop packages' ({[ (pri_location package, t) ]} ∪ recorded_files)
  end.

(** [recorded_files]: the loop over [primary.values()]. *)
Definition recorded_files (primary : gmap nerv Primary) : res (gset (string * number)) :=
  recorded_loop (snd <$> map_to_list primary) ∅.

Fixpoint existing_loop (paths : list string) (existing_files : gset (string * number))
    : res (gset (string * number)) :=
  match paths with
  | [] => Ok existing_files
  | file_path :: paths' =>
      match Re.re_match rpm_expr file_path with
      | None => existing_loop paths' existing_files
      | Some _ =>
          mtime ← st_mtime storage file_path;
          existing_loop paths' ({[ (file_path, mtime) ]} ∪ existing_files)
      end
  end.

(** [existing_files]: the loop over [storage.files('.')]. *)
Definition existing_files : res (gset (string * number)) :=
  paths ← st_files storage ".";
  existing_loop paths ∅.

(** [files_to_add = existing_files - recorded_files] *)
Definition files_to_add (primary : gmap nerv Primary) : res (gset (string * number)) :=
  recorded ← recorded_files primary;
  existing ← existing_files;
  Ok (existing ∖ recorded).

(** The body of the last loop of [update_repo]. *)
Definition add_file (file_to_add : string * number) (index : Index) : M Index :=
  let file_path := file_to_add.1 in
  let mtime := file_to_add.2 in
  _ ← print ("Adding: '" +:+ file_path +:+ "'");
  tmpdir ← mkdtemp;
  content ← lift (st_download_file storage file_path);
  _ ← write_package tmpdir content;
  local ← read_package tmpdir;
  header ← lift (parse_file local);
  local ← read_package tmpdir;
  let sha256 := hexdigest local in
  _ ← rmtree tmpdir;
  '(key, prim) ← lift (header_to_primary RPMSENSE_RPMLIB flags_to_str
                         header sha256 mtime file_path);
  '(_, flist) ← lift (header_to_filelists header sha256);
  mret (<[key := flist]> index.1, <[key := prim]> index.2).

Fixpoint add_files (todo : list (string * number)) (index : Index) : M Index :=
  match todo with
  | [] => mret index
  | file_to_add :: todo' =>
      index' ← add_file file_to_add index;
      add_files todo' index'
  end.

(** [update_repo], and in [reconcile] its part from [recorded_files] on; the
    result is the pair of dictionaries [filelists] and [primary] that the
    function holds when it returns.  The loop visits the set [files_to_add]
    in the order of [elements]; Python fixes no order. *)
Definition reconcile (index : Index) : M Index :=
  todo ← lift (files_to_add index.2);
  add_files (elements todo) index.

Definition update_repo : M Index :=
  index ← lift load_index;
  reconcile index.

End Engine.

(** ** Vocabulary of the statements *)

Fixpoint str_forall (p : ascii -> bool) (s : string) : bool :=
  match s with
  | String c s' => p c && str_forall p s'
  | EmptyString => true
  end.

Fixpoint take_while (p : ascii -> bool) (s : string) : string :=
  match s with
  | String c s' => if p c then String c (take_while p s') else ""
  | EmptyString => ""
  end.

Fixpoint drop_while (p : ascii -> bool) (s : string) : string :=
  match s with
  | String c s' => if p c then drop_while p s' else s
  | EmptyString => ""
  end.

(** A non-empty run of decimal digits. *)
Definition digits (d : string) : Prop := d ≠ "" ∧ str_forall is_digit d = true.

(** A text without a dash. *)
Definition dashfree (s : string) : Prop := str_forall not_dash s = true.

(** A text that starts with digits and a colon. *)
Definition has_epoch_prefix (s : string) : Prop :=
  ∃ d t, digits d ∧ s = d +:+ ":" +:+ t.

Definition nl : string := String Re.newline "".

(** The language of the version pattern, read off the pattern: an optional
    prefix of digits and a colon, a dash-free text, a dash, a dash-free
    text, and the end of the text or a final newline. *)
Definition matches_ver_expr (s : string) : Prop :=
  ∃ pre v r e,
    s = pre +:+ v +:+ "-" +:+ r +:+ e ∧
    (pre = "" ∨ ∃ d, digits d ∧ pre = d +:+ ":") ∧
    dashfree v ∧ dashfree r ∧ (e = "" ∨ e = nl).

(** The language of the archive path pattern: a text without a newline,
    then [.rpm], then the end of the text or a final newline. *)
Definition matches_rpm_expr (s : string) : Prop :=
  ∃ x e, s = x +:+ ".rpm" +:+ e ∧ str_forall not_newline x = true ∧ (e = "" ∨ e = nl).

(** A valid index of a Python list: from [-len] to [len - 1]. *)
Definition valid_index {A} (l : list A) (i : Z) : Prop :=
  - Z.of_nat (length l) ≤ i < Z.of_nat (length l).

(** [header] with another value, or none, under [NAME]. *)
Definition with_NAME (name : option pyval) (h : Header) : Header :=
  {| NAME := name; ARCH := ARCH h; SUMMARY := SUMMARY h;
     DESCRIPTION := DESCRIPTION h; PACKAGER := PACKAGER h;
     BUILDTIME := BUILDTIME h; URL := URL h; EPOCH := EPOCH h;
     RELEASE := RELEASE h; VERSION := VERSION h; LICENSE := LICENSE h;
     VENDOR := VENDOR h; GROUP := GROUP h; BUILDHOST := BUILDHOST h;
     SOURCERPM := SOURCERPM h;
     PROVIDENAME := PROVIDENAME h; PROVIDEVERSION := PROVIDEVERSION h;
     PROVIDEFLAGS := PROVIDEFLAGS h;
     REQUIRENAME := REQUIRENAME h; REQUIREVERSION := REQUIREVERSION h;
     REQUIREFLAGS := REQUIREFLAGS h;
     OBSOLETENAME := OBSOLETENAME h; OBSOLETEVERSION := OBSOLETEVERSION h;
     OBSOLETEFLAGS := OBSOLETEFLAGS h;
     BASENAMES := BASENAMES h; DIRNAMES := DIRNAMES h;
     DIRINDEXES := DIRINDEXES h |}.

(** The name of an identity tuple. *)
Definition nerv_name (key : nerv) : pyval := key.1.1.1.

(** The manifest of a package with the one file [/usr/bin/foo]. *)
Definition foo_files : list FileEntry :=
  [mkFile (Some "/usr/bin/foo") file; mkFile (Some "/usr/bin/") dir].

(** What follows the star in the archive path pattern. *)
Definition rpm_tail (sn ah : string) : option (gmap nat string) :=
  Re.run (Re.lit_then ".rpm" Re.Eol) (Re.MState sn ah ∅) Re.finish.

(** A record of the summary document with the given [type] attribute, with
    some [type] attribute, and with one of the two types that
    [parse_repomd] knows. *)
Definition has_type (ty : string) (child : Element) : Prop :=
  attrib child !! "type" = Some ty.
Definition typed (child : Element) : Prop := is_Some (attrib child !! "type").
Definition recognized (child : Element) : Prop :=
  has_type "filelists" child ∨ has_type "primary" child.

Global Instance has_type_dec ty child : Decision (has_type ty child).
Proof. unfold has_type. apply _. Defined.
Global Instance typed_dec child : Decision (typed child).
Proof. unfold typed. apply _. Defined.
Global Instance recognized_dec child : Decision (recognized child).
Proof. unfold recognized. apply _. Defined.

(** The slot of a type after the records [cs], when [repomd_result] is
    defined on them: the result of the last record of that type. *)
Fixpoint pick (ty : string) (cs : list Element) (init : option Locator)
    : option Locator :=
  match cs with
  | [] => init
  | child :: cs' =>
      pick ty cs'
        (if decide (has_type ty child) then
           match repomd_result child with
           | Ok r => Some r
           | Raise _ => init
           end
         else init)
  end.

(** An element with other children. *)
Definition with_children (e : Element) (cs : list Element) : Element :=
  Elem (tag e) (attrib e) (text e) cs.

(** The number of occurrences of a character in a text. *)
Fixpoint str_count (c : ascii) (s : string) : nat :=
  match s with
  | String a s' => (if Ascii.eqb a c then 1 else 0) + str_count c s'
  | EmptyString => 0
  end.

(** The key and the record that the provides and the obsoletes loops of
    [header_to_primary] store for an entry. *)
Definition dep_record (flags_to_str : Z -> option string) (name : string)
    (evr : option string * option string * option string) (flags : Z)
    : depkey * DepEntry :=
  let '(e, v, r) := evr in
  ((name, e, r, v), mkDep name e r v (flags_to_str flags)).

(** The directory entries of a manifest. *)
Definition dir_entries (dirnames : list string) : list FileEntry :=
  (λ d, mkFile (Some d) dir) <$> dirnames.

(** The position that a Python index denotes in a list of the given length. *)
Definition py_position (len : nat) (i : Z) : nat :=
  Z.to_nat (if (i <? 0)%Z then (i + Z.of_nat len)%Z else i).

(** Every record of an index is stored under the identity that its own
    name and version fields make. *)
Definition keyed_by_identity (index : Index) : Prop :=
  (∀ k p, index.1 !! k = Some p → fl_identity p = k) ∧
  (∀ k p, index.2 !! k = Some p → pri_identity p = k).

(** The line that [update_repo] prints for an archive. *)
Definition adding_line (file_to_add : string * number) : string :=
  "Adding: '" +:+ file_to_add.1 +:+ "'".

(** Whether a computation returned. *)
Definition succeeds {A} (r : res A) : bool :=
  match r with
  | Ok _ => true
  | Raise _ => false
  end.

(** ** Sample data of the examples *)

(** An instance of the two names of [rpmfile], with the values of the RPM
    sense bits: less 2, greater 4, equal 8, rpmlib [1 << 24]. *)
Definition sample_rpmlib : Z := 16777216.
Definition sample_flags_to_str (flags : Z) : option string :=
  match Z.land flags 14 with
  | 2 => Some "LT"
  | 4 => Some "GT"
  | 8 => Some "EQ"
  | 10 => Some "LE"
  | 12 => Some "GE"
  | _ => None
  end.

(** A header with the given name, requires tables and file tables, the
    epoch "0" and fixed values in the other fields. *)
Definition sample_header (name : pyval) (rn rv : list string) (rf : list Z)
    (basenames dirnames : list string) (dirindexes : list Z) : Header :=
  {| NAME := Some name; ARCH := Some (PyStr "x86_64");
     SUMMARY := Some (PyStr "A sample"); DESCRIPTION := Some (PyStr "A sample package");
     PACKAGER := None; BUILDTIME := Some (PyInt 1500000000);
     URL := Some (PyStr "http://example.org/"); EPOCH := Some (PyStr "0");
     RELEASE := Some (PyStr "1"); VERSION := Some (PyStr "1.0");
     LICENSE := Some (PyStr "BSD"); VENDOR := None; GROUP := None;
     BUILDHOST := None; SOURCERPM := None;
     PROVIDENAME := None; PROVIDEVERSION := None; PROVIDEFLAGS := None;
     REQUIRENAME := Some rn; REQUIREVERSION := Some rv; REQUIREFLAGS := Some rf;
     OBSOLETENAME := None; OBSOLETEVERSION := None; OBSOLETEFLAGS := None;
     BASENAMES := Some basenames; DIRNAMES := Some dirnames;
     DIRINDEXES := Some dirindexes |}.

(** One file [/usr/bin/foo] and no dependencies. *)
Definition foo_header : Header :=
  sample_header (PyStr "foo") [] [] [] ["foo"] ["/usr/bin/"] [0].

(** Three requirements: one on the package manager itself, one plain, one
    of an installation script. *)
Definition deps_header : Header :=
  sample_header (PyStr "foo")
    ["rpmlib(CompressedFileNames)"; "libc.so.6"; "/bin/sh"]
    ["3.0.4-1"; ""; ""]
    [16777226; 0; 256]
    ["foo"] ["/usr/bin/"] [0].

(** A sample of [float] on the decimal integer literals. *)
Definition sample_float (s : string) : res number :=
  match NilZero.int_of_string s with
  | Some d => Ok (number_of_Z (Z.of_int d))
  | None => Raise ValueError
  end.

(** A number that is an integer. *)
Definition integral (m : number) : Prop := ∃ z : Z, m = number_of_Z z.

(** The times of the examples; the last one is 100.5. *)
Definition t100 : number := number_of_Z 100.
Definition t200 : number := number_of_Z 200.
Definition t100_5 : number := Q2Qc (201 # 2).

(** A storage with the archive [a.rpm] and another file, every file with
    the given modification time; the repository has no summary document. *)
Definition sample_storage (mtime : number) : Storage :=
  {| st_exists := λ _, false;
     st_read_file := λ _, Raise (CollaboratorError "read_file");
     st_files := λ _, Ok ["a.rpm"; "README"];
     st_mtime := λ _, Ok mtime;
     st_download_file := λ p,
       if decide (p = "a.rpm") then Ok "foo-1.0-1.x86_64"
       else Raise (CollaboratorError "download_file") |}.

(** The same storage when its downloads fail. *)
Definition offline_storage (mtime : number) : Storage :=
  {| st_exists := st_exists (sample_storage mtime);
     st_read_file := st_read_file (sample_storage mtime);
     st_files := st_files (sample_storage mtime);
     st_mtime := st_mtime (sample_storage mtime);
     st_download_file := λ _, Raise (CollaboratorError "download_file") |}.

(** The storage of a repository that has its three documents beside
    [a.rpm]; the content of a document is its own path, which the sample
    document reader below takes for the text of the document. *)
Definition repo_storage (mtime : number) : Storage :=
  {| st_exists := λ p, bool_decide (p = "repodata/repomd.xml");
     st_read_file := λ p, Ok p;
     st_files := λ _, Ok ["a.rpm"; "repodata/repomd.xml";
                          "repodata/filelists.xml.gz"; "repodata/primary.xml.gz"];
     st_mtime := λ _, Ok mtime;
     st_download_file := st_download_file (sample_storage mtime) |}.

(** A header extractor that knows the content of [a.rpm], and one that
    takes every file for corrupt. *)
Definition sample_parse_file (content : string) : res Header :=
  if decide (content = "foo-1.0-1.x86_64") then Ok foo_header
  else Raise (CollaboratorError "parse_file").
Definition corrupt_parse_file (content : string) : res Header :=
  Raise (CollaboratorError "parse_file").

Definition sample_hexdigest (content : string) : string := "00".

(** No scratch directory, nothing printed. *)
Definition world0 : World := mkWorld ∅ [].

(** The identity of the package of [a.rpm]. *)
Definition foo_key : nerv := (PyStr "foo", PyStr "0", PyStr "1", PyStr "1.0").

(** Records of a summary document: a complete one of a given type and
    location, and one of the type [group] without [open-checksum] and
    [open-size], as for a file that is stored uncompressed. *)
Definition leaf (local value : string) : Element :=
  Elem (qname ns_repo local) ∅ (Some value) [].
Definition location_node (href : string) : Element :=
  Elem (qname ns_repo "location") {["href" := href]} None [].
Definition data_record (ty href : string) : Element :=
  Elem (qname ns_repo "data") {["type" := ty]} None
    [leaf "checksum" "c0"; leaf "open-checksum" "c1"; location_node href;
     leaf "timestamp" "1500000000"; leaf "size" "10"; leaf "open-size" "20"].
Definition repomd (records : list Element) : Element :=
  Elem (qname ns_repo "repomd") ∅ None records.

(** A summary document with a record of each of the two types and one of
    another type, and the same with the [group] record in place of that. *)
Definition sample_repomd : Element :=
  repomd [data_record "filelists" "repodata/filelists.xml.gz";
          data_record "primary" "repodata/primary.xml.gz";
          data_record "other" "repodata/other.xml.gz"].

(** The two package documents of a repository that holds the package of
    [a.rpm], recorded with the time 100. *)
Definition text_node (namespace local value : string) : Element :=
  Elem (qname namespace local) ∅ (Some value) [].
Definition attr_node (namespace local : string) (attrs : gmap string string) : Element :=
  Elem (qname namespace local) attrs None [].
Definition foo_version : gmap string string :=
  <["ver" := "1.0"]> (<["rel" := "1"]> {["epoch" := "0"]}).
Definition filelists_doc : Element :=
  Elem (qname ns_filelists "filelists") {["packages" := "1"]} None
    [Elem (qname ns_filelists "package")
       (<["pkgid" := "00"]> (<["name" := "foo"]> {["arch" := "x86_64"]})) None
       [attr_node ns_filelists "version" foo_version;
        text_node ns_filelists "file" "/usr/bin/foo"]].
Definition primary_doc : Element :=
  Elem (qname ns_common "metadata") {["packages" := "1"]} None
    [Elem (qname ns_common "package") {["type" := "rpm"]} None
       [text_node ns_common "name" "foo";
        text_node ns_common "arch" "x86_64";
        attr_node ns_common "version" foo_version;
        text_node ns_common "checksum" "00";
        text_node ns_common "summary" "A sample";
        text_node ns_common "description" "A sample package";
        text_node ns_common "packager" "nobody";
        text_node ns_common "url" "http://example.org/";
        attr_node ns_common "time" (<["file" := "100"]> {["build" := "1500000000"]});
        attr_node ns_common "location" {["href" := "a.rpm"]};
        Elem (qname ns_common "format") ∅ None
          [text_node ns_rpm "license" "BSD";
           text_node ns_rpm "vendor" "nobody";
           text_node ns_rpm "group" "Unspecified";
           text_node ns_rpm "buildhost" "localhost";
           text_node ns_rpm "sourcerpm" "foo-1.0-1.src.rpm";
           attr_node ns_rpm "header-range" (<["start" := "280"]> {["end" := "1000"]});
           text_node ns_common "file" "/usr/bin/foo"]]].

(** A document reader that knows the three documents of [repo_storage], and
    a decompression that does nothing. *)
Definition sample_fromstring (data : string) : res Element :=
  if decide (data = "repodata/repomd.xml") then Ok sample_repomd
  else if decide (data = "repodata/filelists.xml.gz") then Ok filelists_doc
  else if decide (data = "repodata/primary.xml.gz") then Ok primary_doc
  else Raise (CollaboratorError "ParseError").
Definition sample_gunzip (data : string) : res string := Ok data.

(** The index that [update_repo] loads from [repo_storage]. *)
Definition loaded_index : Index :=
  match load_index sample_fromstring sample_gunzip (repo_storage t200) with
  | Ok index => index
  | Raise _ => (∅, ∅)
  end.

(** A run of [update_repo] with the sample collaborators. *)
Definition run_update (storage : Storage) (parse_file : string -> res Header)
    : World * res Index :=
  runM (update_repo sample_rpmlib sample_flags_to_str sample_fromstring sample_gunzip
          sample_float parse_file sample_hexdigest storage) world0.

(** A package node of a filelists document whose [name] attribute is empty. *)
Definition nameless_package : Element :=
  Elem (qname ns_filelists "package")
    (<["pkgid" := "00"]> (<["name" := ""]> {["arch" := "x86_64"]})) None
    [Elem (qname ns_filelists "version")
       (<["ver" := "1.0"]> (<["rel" := "1"]> {["epoch" := "0"]})) None [];
     Elem (qname ns_filelists "file") ∅ (Some "/usr/bin/foo") []].

(** A header whose name is empty, and one whose only directory index has no
    base name next to it and no directory to point to. *)
Definition nameless_header : Header :=
  sample_header (PyStr "") [] [] [] ["foo"] ["/usr/bin/"] [0].
Definition unpaired_header : Header :=
  sample_header (PyStr "foo") [] [] [] [] [] [7].

(** What the examples look at in an index: for each identity, the location
    and the recorded time of its primary record. *)
Definition index_view (index : Index) : list (nerv * (string * string)) :=
  (λ kv, (kv.1, (pri_location kv.2, pri_file_time kv.2))) <$> map_to_list index.2.

(** [header] with the given provides tables. *)
Definition with_PROVIDES (pn pv : list string) (pf : list Z) (h : Header) : Header :=
  {| NAME := NAME h; ARCH := ARCH h; SUMMARY := SUMMARY h;
     DESCRIPTION := DESCRIPTION h; PACKAGER := PACKAGER h;
     BUILDTIME := BUILDTIME h; URL := URL h; EPOCH := EPOCH h;
     RELEASE := RELEASE h; VERSION := VERSION h; LICENSE := LICENSE h;
     VENDOR := VENDOR h; GROUP := GROUP h; BUILDHOST := BUILDHOST h;
     SOURCERPM := SOURCERPM h;
     PROVIDENAME := Some pn; PROVIDEVERSION := Some pv; PROVIDEFLAGS := Some pf;
     REQUIRENAME := REQUIRENAME h; REQUIREVERSION := REQUIREVERSION h;
     REQUIREFLAGS := REQUIREFLAGS h;
     OBSOLETENAME := OBSOLETENAME h; OBSOLETEVERSION := OBSOLETEVERSION h;
     OBSOLETEFLAGS := OBSOLETEFLAGS h;
     BASENAMES := BASENAMES h; DIRNAMES := DIRNAMES h;
     DIRINDEXES := DIRINDEXES h |}.

(** A header that provides [foo] twice with one version and two flags, and
    one that provides it with a version that has no release. *)
Definition twice_header : Header :=
  with_PROVIDES ["foo"; "foo"] ["1.0-1"; "1.0-1"] [8; 0] foo_header.
Definition norelease_header : Header :=
  with_PROVIDES ["foo"] ["1.0"] [8] foo_header.

(** The format node and the package node of a primary document with a
    requires block of two entries and no other block. *)
Definition deps_format : Element :=
  Elem (qname ns_common "format") ∅ None
    [text_node ns_rpm "license" "BSD";
     text_node ns_rpm "vendor" "nobody";
     text_node ns_rpm "group" "Unspecified";
     text_node ns_rpm "buildhost" "localhost";
     text_node ns_rpm "sourcerpm" "foo-1.0-1.src.rpm";
     attr_node ns_rpm "header-range" (<["start" := "280"]> {["end" := "1000"]});
     Elem (qname ns_rpm "requires") ∅ None
       [attr_node ns_rpm "entry" {["name" := "libc.so.6"]};
        attr_node ns_rpm "entry" (<["name" := "/bin/sh"]> {["pre" := "1"]})];
     text_node ns_common "file" "/usr/bin/foo"].
Definition deps_package : Element :=
  Elem (qname ns_common "package") {["type" := "rpm"]} None
    [text_node ns_common "name" "foo";
     text_node ns_common "arch" "x86_64";
     attr_node ns_common "version" foo_version;
     text_node ns_common "checksum" "00";
     text_node ns_common "summary" "A sample";
     text_node ns_common "description" "A sample package";
     text_node ns_common "packager" "nobody";
     text_node ns_common "url" "http://example.org/";
     attr_node ns_common "time" (<["file" := "100"]> {["build" := "1500000000"]});
     attr_node ns_common "location" {["href" := "a.rpm"]};
     deps_format].

(** A summary document with two records of the type [filelists], and one
    without a record of that type, with a document reader that knows it. *)
Definition twice_repomd : Element :=
  repomd [data_record "filelists" "repodata/old.xml.gz";
          data_record "filelists" "repodata/filelists.xml.gz";
          data_record "primary" "repodata/primary.xml.gz"].
Definition primary_only_repomd : Element :=
  repomd [data_record "primary" "repodata/primary.xml.gz"].
Definition primary_only_fromstring (data : string) : res Element :=
  if decide (data = "repodata/repomd.xml") then Ok primary_only_repomd
  else sample_fromstring data.

(** A header that requires [/bin/sh] twice with one version: first for an
    installation script, then plainly. *)
Definition shadowed_header : Header :=
  sample_header (PyStr "foo") ["/bin/sh"; "/bin/sh"] [""; ""] [256; 0]
    ["foo"] ["/usr/bin/"] [0].

(** The integer that a binary64 float holds for an integer, below the
    overflow of the format: the integer itself up to 2^53, and beyond that
    the nearest integer with 53 significant bits, the even one of two that
    are as near. *)
Definition round_binary64 (z : Z) : Z :=
  let a := Z.abs z in
  if a <=? 2 ^ 53 then z
  else
    let e := Z.log2 a - 52 in
    let q := Z.shiftr a e in
    let r := a - Z.shiftl q e in
    let half := Z.shiftl 1 (e - 1) in
    let q' := if r <? half then q
              else if half <? r then q + 1
              else if Z.even q then q else q + 1 in
    Z.sgn z * Z.shiftl q' e.

(** A sample of [float] on the decimal integer literals that rounds as a
    binary64 float does. *)
Definition binary64_float (s : string) : res number :=
  match NilZero.int_of_string s with
  | Some d => Ok (number_of_Z (round_binary64 (Z.of_int d)))
  | None => Raise ValueError
  end.

(** The first positive integer that a binary64 float does not hold,
    2^53 + 1, as a time. *)
Definition t_large : number := number_of_Z 9007199254740993.

(** * Properties *)

(** ** The matcher *)

Lemma app_snoc (s : string) (c : ascii) (t : string) :
  Re.snoc s c +:+ t = s +:+ String c t.
Proof.
  unfold Re.snoc. induction s as [|a s IH]; simpl; [done|]. by rewrite IH.
Qed.

Lemma app_empty_r (s : string) : s +:+ "" = s.
Proof. induction s as [|a s IH]; simpl; [done|]. by rewrite IH. Qed.

Lemma app_assoc_s (a b c : string) : (a +:+ b) +:+ c = a +:+ (b +:+ c).
Proof. induction a as [|x a IH]; simpl; [done|]. by rewrite IH. Qed.

Lemma length_app_s (a b : string) :
  String.length (a +:+ b) = (String.length a + String.length b)%nat.
Proof. induction a as [|x a IH]; simpl; [done|]. by rewrite IH. Qed.

Lemma substring_all (x : string) : String.substring 0 (String.length x) x = x.
Proof. induction x as [|c x IH]; simpl; [done|]. by rewrite IH. Qed.

Lemma substring_prefix (x y : string) :
  String.substring 0 (String.length x) (x +:+ y) = x.
Proof.
  induction x as [|c x IH]; simpl; [by destruct y|]. by rewrite IH.
Qed.

(** The text that a group captures between two positions. *)
Lemma capture_app (a x : string) :
  String.substring (String.length a)
    (String.length (a +:+ x) - String.length a) (a +:+ x) = x.
Proof.
  rewrite length_app_s.
  replace (String.length a + String.length x - String.length a)%nat
    with (String.length x) by lia.
  induction a as [|c a IH]; simpl; [apply substring_all | apply IH].
Qed.

Lemma take_drop_while (p : ascii -> bool) (s : string) :
  take_while p s +:+ drop_while p s = s.
Proof.
  induction s as [|c s IH]; simpl; [done|].
  destruct (p c); simpl; [by rewrite IH | done].
Qed.

Lemma take_while_forall (p : ascii -> bool) (s : string) :
  str_forall p (take_while p s) = true.
Proof.
  induction s as [|c s IH]; simpl; [done|].
  destruct (p c) eqn:E; simpl; [by rewrite E | done].
Qed.

Lemma str_forall_app (p : ascii -> bool) (a b : string) :
  str_forall p (a +:+ b) = str_forall p a && str_forall p b.
Proof.
  induction a as [|c a IH]; simpl; [done|]. rewrite IH. by destruct (p c).
Qed.

Lemma drop_while_head (p : ascii -> bool) (s : string) (c : ascii) (t : string) :
  drop_while p s = String c t → p c = false.
Proof.
  induction s as [|a s IH]; simpl; [done|].
  destruct (p a) eqn:E; [done|]. intros [= <- _]. done.
Qed.

Lemma take_while_stop (p : ascii -> bool) (x : string) (c : ascii) (t : string) :
  str_forall p x = true → p c = false →
  take_while p (x +:+ String c t) = x ∧ drop_while p (x +:+ String c t) = String c t.
Proof.
  intros Hx Hc. induction x as [|a x IH]; simpl in *.
  - by rewrite Hc.
  - apply andb_true_iff in Hx as [Ha Hx]. rewrite Ha.
    destruct (IH Hx) as [-> ->]. done.
Qed.

Lemma take_while_all (p : ascii -> bool) (x : string) :
  str_forall p x = true → take_while p x = x ∧ drop_while p x = "".
Proof.
  intros Hx. induction x as [|a x IH]; simpl in *; [done|].
  apply andb_true_iff in Hx as [Ha Hx]. rewrite Ha.
  destruct (IH Hx) as [-> ->]. done.
Qed.

Section Star.
Context {A : Type} (p : ascii -> bool).

(** When what follows refuses every text that starts inside the class, a
    greedy star takes exactly the longest run. *)
Lemma star_reject (k : string -> string -> option A) (sn ah : string) :
  (∀ sn' c ah', p c = true → k sn' (String c ah') = None) →
  Re.star p sn ah k = k (sn +:+ take_while p ah) (drop_while p ah).
Proof.
  intros Hk. revert sn. induction ah as [|c ah IH]; intros sn; simpl.
  - by rewrite app_empty_r.
  - destruct (p c) eqn:E; [|by rewrite app_empty_r].
    rewrite IH, app_snoc.
    destruct (k _ _) eqn:Ek; [done|]. by apply Hk.
Qed.

(** The first attempt of a star is the whole run. *)
Lemma star_first (k : string -> string -> option A) (sn ah : string) (a : A) :
  str_forall p ah = true → k (sn +:+ ah) "" = Some a →
  Re.star p sn ah k = Some a.
Proof.
  revert sn. induction ah as [|c ah IH]; intros sn Hp Hk; simpl in *.
  - by rewrite app_empty_r in Hk.
  - apply andb_true_iff in Hp as [Hc Hp]. rewrite Hc.
    rewrite (IH (Re.snoc sn c)); [done..|]. by rewrite app_snoc.
Qed.

(** A star succeeds only through some split of the text ahead. *)
Lemma star_Some_inv (k : string -> string -> option A) (sn ah : string) (a : A) :
  Re.star p sn ah k = Some a →
  ∃ x y, ah = x +:+ y ∧ str_forall p x = true ∧ k (sn +:+ x) y = Some a.
Proof.
  revert sn. induction ah as [|c ah IH]; intros sn; simpl.
  - intros Hk. exists "", "". by rewrite !app_empty_r.
  - destruct (p c) eqn:E.
    + destruct (Re.star p (Re.snoc sn c) ah k) eqn:Es.
      * intros [= ->]. apply IH in Es as (x & y & -> & Hx & Hk).
        exists (String c x), y. simpl. rewrite E, Hx.
        by rewrite app_snoc in Hk.
      * intros Hk. exists "", (String c ah). by rewrite !app_empty_r.
    + intros Hk. exists "", (String c ah). by rewrite !app_empty_r.
Qed.

(** A star succeeds whenever some split of the text ahead does. *)
Lemma star_complete (k : string -> string -> option A) (sn x y : string) :
  str_forall p x = true → is_Some (k (sn +:+ x) y) →
  is_Some (Re.star p sn (x +:+ y) k).
Proof.
  revert sn. induction x as [|c x IH]; intros sn Hx Hk; simpl in *.
  - rewrite app_empty_r in Hk.
    destruct y as [|c y]; simpl; [done|].
    destruct (p c); [|done]. by destruct (Re.star _ _ _ _).
  - apply andb_true_iff in Hx as [Hc Hx]. rewrite Hc.
    destruct (IH (Re.snoc sn c) Hx) as [a ->]; [by rewrite app_snoc|]. done.
Qed.

End Star.

(** ** The version pattern *)

Lemma not_dash_false (c : ascii) : not_dash c = false ↔ c = "-"%char.
Proof.
  unfold not_dash. rewrite negb_false_iff. apply Ascii.eqb_eq.
Qed.

Lemma nl_dashfree : dashfree nl.
Proof. reflexivity. Qed.

Lemma run_ver_body (st : Re.mstate) :
  Re.run ver_body st Re.finish =
    match drop_while not_dash (Re.ahead st) with
    | String _ r =>
        if str_forall not_dash r then
          Some (<[3%nat := r]> (<[2%nat := take_while not_dash (Re.ahead st)]> (Re.groups st)))
        else None
    | EmptyString => None
    end.
Proof.
  destruct st as [sn ah g]. unfold ver_body. simpl.
  rewrite star_reject.
  2:{ intros sn' c ah' Hc. simpl. case_decide as E; [|done].
      subst c. done. }
  simpl. rewrite capture_app.
  destruct (drop_while not_dash ah) as [|c r] eqn:Ed; [done|].
  apply drop_while_head in Ed as Hc. apply not_dash_false in Hc as ->.
  rewrite decide_True by done. simpl.
  destruct (str_forall not_dash r) eqn:Hr.
  - erewrite star_first; [done|done|]. simpl.
    unfold Re.finish. simpl. rewrite capture_app. done.
  - destruct (Re.star _ _ _ _) eqn:Es; [|done].
    apply star_Some_inv in Es as (x & y & -> & Hx & Hk). simpl in Hk.
    rewrite str_forall_app, Hx in Hr. simpl in Hr.
    repeat case_decide; simplify_eq; done.
Qed.

Lemma is_digit_colon : is_digit ":" = false.
Proof. reflexivity. Qed.

Lemma snoc_app (s : string) (c : ascii) : Re.snoc s c = s +:+ String c "".
Proof. reflexivity. Qed.

Lemma run_ver_epoch {A} (st : Re.mstate) (k : Re.mstate → option A) :
  Re.run ver_epoch st k =
    match Re.ahead st with
    | String c0 a0 =>
        if is_digit c0 then
          match drop_while is_digit a0 with
          | String c1 t =>
              if decide (c1 = ":"%char) then
                let g1 := String c0 (take_while is_digit a0) +:+ ":" in
                k (Re.MState (Re.seen st +:+ g1) t (<[1%nat := g1]> (Re.groups st)))
              else None
          | EmptyString => None
          end
        else None
    | EmptyString => None
    end.
Proof.
  destruct st as [sn ah g]. unfold ver_epoch. simpl.
  destruct ah as [|c0 a0]; [done|].
  destruct (is_digit c0) eqn:Hc0; [|done].
  rewrite star_reject.
  2:{ intros sn' c ah' Hc. simpl. case_decide as E; [|done].
      subst c. done. }
  simpl. destruct (drop_while is_digit a0) as [|c1 t]; [done|].
  case_decide; [|done]. subst c1. simpl.
  rewrite !snoc_app, !app_assoc_s. simpl.
  replace (sn +:+ String c0 (take_while is_digit a0 +:+ ":"))
    with (sn +:+ (String c0 (take_while is_digit a0) +:+ ":")) by done.
  by rewrite capture_app.
Qed.

Lemma re_match_ver_expr (s : string) :
  Re.re_match ver_expr s =
    match Re.run ver_epoch (Re.start s) (fun st => Re.run ver_body st Re.finish) with
    | Some m => Some m
    | None => Re.run ver_body (Re.start s) Re.finish
    end.
Proof. reflexivity. Qed.

Lemma take_while_app (p : ascii → bool) (x t : string) :
  str_forall p x = true →
  take_while p (x +:+ t) = x +:+ take_while p t ∧
  drop_while p (x +:+ t) = drop_while p t.
Proof.
  intros Hx. induction x as [|a x IH]; simpl in *; [done|].
  apply andb_true_iff in Hx as [Ha Hx]. rewrite Ha.
  destruct (IH Hx) as [-> ->]. done.
Qed.

Lemma not_dash_dash : not_dash "-" = false.
Proof. reflexivity. Qed.

(** The body of the pattern on a text of the form [v-r]. *)
Lemma run_ver_body_ok (sn v r : string) (g : gmap nat string) :
  dashfree v → dashfree r →
  Re.run ver_body (Re.MState sn (v +:+ "-" +:+ r) g) Re.finish =
    Some (<[3%nat := r]> (<[2%nat := v]> g)).
Proof.
  intros Hv Hr. rewrite run_ver_body. simpl.
  destruct (take_while_stop not_dash v "-" r Hv not_dash_dash) as [-> ->].
  by rewrite Hr.
Qed.

Lemma run_ver_body_inv (st : Re.mstate) (m : gmap nat string) :
  Re.run ver_body st Re.finish = Some m →
  ∃ v r, Re.ahead st = v +:+ "-" +:+ r ∧ dashfree v ∧ dashfree r ∧
         m = <[3%nat := r]> (<[2%nat := v]> (Re.groups st)).
Proof.
  rewrite run_ver_body.
  destruct (drop_while not_dash (Re.ahead st)) as [|c r] eqn:Ed; [done|].
  destruct (str_forall not_dash r) eqn:Hr; [|done]. intros [= <-].
  apply drop_while_head in Ed as Hc. apply not_dash_false in Hc as ->.
  exists (take_while not_dash (Re.ahead st)), r. split_and!; try done.
  - simpl. rewrite <- Ed. by rewrite take_drop_while.
  - apply take_while_forall.
Qed.

Lemma digits_dashfree (d : string) : str_forall is_digit d = true → dashfree (d +:+ ":").
Proof.
  unfold dashfree. induction d as [|c d IH]; simpl; [done|].
  intros [Hc Hd]%andb_true_iff. rewrite IH by done.
  rewrite andb_true_r. unfold not_dash.
  destruct (Ascii.eqb_spec c "-"); [subst; done|done].
Qed.

Lemma digits_cons (d : string) :
  digits d → ∃ c d', d = String c d' ∧ is_digit c = true ∧ str_forall is_digit d' = true.
Proof.
  intros [Hne Hd]. destruct d as [|c d']; [done|].
  simpl in Hd. apply andb_true_iff in Hd as [? ?]. eauto.
Qed.

(** The optional group on a text of the form [d:t]. *)
Lemma run_ver_epoch_ok {A} (d t : string) (k : Re.mstate → option A) :
  digits d →
  Re.run ver_epoch (Re.start (d +:+ ":" +:+ t)) k =
    k (Re.MState (d +:+ ":") t (<[1%nat := d +:+ ":"]> ∅)).
Proof.
  intros (c & d' & -> & Hc & Hd)%digits_cons. rewrite run_ver_epoch. simpl.
  rewrite Hc.
  destruct (take_while_stop is_digit d' ":" t Hd is_digit_colon) as [-> ->].
  by rewrite decide_True.
Qed.

Lemma run_ver_epoch_inv {A} (s : string) (k : Re.mstate → option A) (a : A) :
  Re.run ver_epoch (Re.start s) k = Some a →
  ∃ d t, digits d ∧ s = d +:+ ":" +:+ t ∧
         k (Re.MState (d +:+ ":") t (<[1%nat := d +:+ ":"]> ∅)) = Some a.
Proof.
  rewrite run_ver_epoch. simpl. destruct s as [|c0 a0]; [done|].
  destruct (is_digit c0) eqn:Hc0; [|done].
  destruct (drop_while is_digit a0) as [|c1 t] eqn:Ed; [done|].
  case_decide; [|done]. subst c1. intros Hk.
  exists (String c0 (take_while is_digit a0)), t. split_and!; [| |done].
  - split; [done|]. simpl. by rewrite Hc0, take_while_forall.
  - simpl. rewrite <- Ed. f_equal.
    rewrite <- (take_drop_while is_digit a0) at 1. done.
Qed.

(** The groups of a match of the version pattern. *)
Lemma re_match_ver_epoch (d v r : string) :
  digits d → dashfree v → dashfree r →
  Re.re_match ver_expr (d +:+ ":" +:+ v +:+ "-" +:+ r) =
    Some (<[3%nat := r]> (<[2%nat := v]> (<[1%nat := d +:+ ":"]> ∅))).
Proof.
  intros Hd Hv Hr. rewrite re_match_ver_expr, run_ver_epoch_ok by done.
  by rewrite run_ver_body_ok.
Qed.

Lemma re_match_ver_plain (v r : string) :
  dashfree v → dashfree r → ¬ has_epoch_prefix (v +:+ "-" +:+ r) →
  Re.re_match ver_expr (v +:+ "-" +:+ r) = Some (<[3%nat := r]> (<[2%nat := v]> ∅)).
Proof.
  intros Hv Hr Hno. rewrite re_match_ver_expr.
  destruct (Re.run ver_epoch _ _) as [m|] eqn:E.
  - apply run_ver_epoch_inv in E as (d & t & Hd & Hs & _).
    destruct Hno. by exists d, t.
  - unfold Re.start. by rewrite run_ver_body_ok.
Qed.

Lemma re_match_ver_inv (s : string) (m : gmap nat string) :
  Re.re_match ver_expr s = Some m →
  (∃ d v r, digits d ∧ dashfree v ∧ dashfree r ∧
            s = d +:+ ":" +:+ v +:+ "-" +:+ r ∧
            m = <[3%nat := r]> (<[2%nat := v]> (<[1%nat := d +:+ ":"]> ∅))) ∨
  (∃ v r, dashfree v ∧ dashfree r ∧ ¬ has_epoch_prefix s ∧
          s = v +:+ "-" +:+ r ∧ m = <[3%nat := r]> (<[2%nat := v]> ∅)).
Proof.
  rewrite re_match_ver_expr.
  destruct (Re.run ver_epoch _ _) as [m'|] eqn:E.
  - intros [= ->]. left.
    apply run_ver_epoch_inv in E as (d & t & Hd & -> & Hk).
    apply run_ver_body_inv in Hk as (v & r & Ht & Hv & Hr & ->).
    simpl in Ht. subst t. by exists d, v, r.
  - intros Hb. right.
    apply run_ver_body_inv in Hb as (v & r & Hs & Hv & Hr & ->).
    simpl in Hs. subst s. exists v, r. split_and!; try done.
    intros (d & t & Hd & Hs).
    rewrite Hs in E. rewrite run_ver_epoch_ok in E by done.
    (* the body matches after the prefix as well *)
    assert (Hp : dashfree (d +:+ ":")) by (apply digits_dashfree, Hd).
    assert (Hb : is_Some (Re.run ver_body (Re.MState (d +:+ ":") t (<[1%nat := d +:+ ":"]> ∅)) Re.finish)).
    { rewrite run_ver_body. simpl.
      pose proof (take_while_app not_dash (d +:+ ":") t Hp) as [_ Hdw].
      rewrite <- app_assoc_s in Hs. 
      pose proof (take_while_stop not_dash v "-" r Hv not_dash_dash) as [_ Hdw'].
      rewrite Hs, Hdw in Hdw'. rewrite Hdw', Hr. done. }
    rewrite E in Hb. by destruct Hb.
Qed.

Lemma matches_ver_expr_match (s : string) :
  matches_ver_expr s ↔ is_Some (Re.re_match ver_expr s).
Proof.
  split.
  - intros (pre & v & r & e & -> & Hpre & Hv & Hr & He).
    assert (Hr' : dashfree (r +:+ e)).
    { unfold dashfree. rewrite str_forall_app, Hr. by destruct He as [-> | ->]. }
    destruct Hpre as [-> | (d & Hd & ->)].
    + simpl. rewrite re_match_ver_expr.
      destruct (Re.run ver_epoch _ _); [done|].
      unfold Re.start. by rewrite (run_ver_body_ok "" v (r +:+ e)).
    + rewrite !app_assoc_s.
      by rewrite (re_match_ver_epoch d v (r +:+ e)).
  - intros [m Hm]. apply re_match_ver_inv in Hm
      as [(d & v & r & Hd & Hv & Hr & -> & _) | (v & r & Hv & Hr & _ & -> & _)].
    + exists (d +:+ ":"), v, r, "". rewrite !app_assoc_s, app_empty_r.
      split_and!; eauto.
    + exists "", v, r, "". rewrite app_empty_r. split_and!; eauto.
Qed.

Lemma drop_last_colon (d : string) : drop_last (d +:+ ":") = d.
Proof.
  unfold drop_last. rewrite length_app_s. simpl.
  replace (String.length d + 1 - 1)%nat with (String.length d) by lia.
  apply substring_prefix.
Qed.

Lemma app_colon_nonempty (d : string) : d +:+ ":" ≠ "".
Proof. by destruct d. Qed.

Lemma parse_ver_str_nonempty (s : string) :
  s ≠ "" →
  parse_ver_str (Some s) =
    match Re.re_match ver_expr s with
    | None => Raise (cant_parse s)
    | Some m =>
        Ok (Some (match m !! 1%nat with
                  | Some g1 => if decide (g1 = "") then "0" else drop_last g1
                  | None => "0"
                  end), m !! 2%nat, m !! 3%nat)
    end.
Proof. by destruct s. Qed.

Lemma parse_ver_str_epoch (d v r : string) :
  digits d → dashfree v → dashfree r →
  parse_ver_str (Some (d +:+ ":" +:+ v +:+ "-" +:+ r)) = Ok (Some d, Some v, Some r).
Proof.
  intros Hd Hv Hr. rewrite parse_ver_str_nonempty.
  2:{ destruct Hd as [Hne _]. by destruct d. }
  rewrite re_match_ver_epoch by done.
  rewrite lookup_insert_ne, lookup_insert_ne, lookup_insert_eq by done.
  rewrite lookup_insert_ne, lookup_insert_eq by done.
  rewrite lookup_insert_eq.
  rewrite decide_False by apply app_colon_nonempty.
  by rewrite drop_last_colon.
Qed.

Lemma parse_ver_str_plain (v r : string) :
  dashfree v → dashfree r → ¬ has_epoch_prefix (v +:+ "-" +:+ r) →
  parse_ver_str (Some (v +:+ "-" +:+ r)) = Ok (Some "0", Some v, Some r).
Proof.
  intros Hv Hr Hno. rewrite parse_ver_str_nonempty by (by destruct v).
  rewrite re_match_ver_plain by done.
  rewrite lookup_insert_ne, lookup_insert_ne, lookup_empty by done.
  rewrite lookup_insert_ne, lookup_insert_eq by done.
  by rewrite lookup_insert_eq.
Qed.

(** C2: [parse_ver_str] on a non-empty text raises exactly when the text
    does not match the version pattern; on a match it returns the digits of
    the prefix (or the text "0" when the text has no such prefix), the text
    between the prefix and the dash, and the text after the dash; on no text
    or the empty text it returns three [None]s. *)
Theorem parse_ver_str_spec :
  parse_ver_str None = Ok (None, None, None) ∧
  parse_ver_str (Some "") = Ok (None, None, None) ∧
  ∀ s : string, s ≠ "" →
    (is_Raise (parse_ver_str (Some s)) ↔ ¬ matches_ver_expr s) ∧
    (¬ matches_ver_expr s → parse_ver_str (Some s) = Raise (cant_parse s)) ∧
    (∀ d v r, digits d → dashfree v → dashfree r →
       s = d +:+ ":" +:+ v +:+ "-" +:+ r →
       parse_ver_str (Some s) = Ok (Some d, Some v, Some r)) ∧
    (∀ v r, dashfree v → dashfree r → ¬ has_epoch_prefix s →
       s = v +:+ "-" +:+ r →
       parse_ver_str (Some s) = Ok (Some "0", Some v, Some r)) ∧
    (matches_ver_expr s →
       (∃ d v r, digits d ∧ dashfree v ∧ dashfree r ∧
                 s = d +:+ ":" +:+ v +:+ "-" +:+ r) ∨
       (∃ v r, dashfree v ∧ dashfree r ∧ ¬ has_epoch_prefix s ∧
               s = v +:+ "-" +:+ r)).
Proof.
  split; [done|]. split; [done|]. intros s Hs.
  assert (Hcases : matches_ver_expr s →
    (∃ d v r, digits d ∧ dashfree v ∧ dashfree r ∧
              s = d +:+ ":" +:+ v +:+ "-" +:+ r) ∨
    (∃ v r, dashfree v ∧ dashfree r ∧ ¬ has_epoch_prefix s ∧
            s = v +:+ "-" +:+ r)).
  { intros [m Hm]%matches_ver_expr_match.
    apply re_match_ver_inv in Hm as [(d & v & r & ? & ? & ? & ? & _) | (v & r & ? & ? & ? & ? & _)].
    - left. by exists d, v, r.
    - right. by exists v, r. }
  assert (Hfail : ¬ matches_ver_expr s → parse_ver_str (Some s) = Raise (cant_parse s)).
  { intros Hno. rewrite parse_ver_str_nonempty by done.
    destruct (Re.re_match ver_expr s) as [m|] eqn:E; [|done].
    destruct Hno. apply matches_ver_expr_match. by exists m. }
  split_and!; try done.
  - split.
    + intros [e He] Hm.
      destruct (Hcases Hm) as [(d & v & r & ? & ? & ? & ->) | (v & r & ? & ? & ? & Hs')].
      * by rewrite parse_ver_str_epoch in He.
      * rewrite Hs' in *. by rewrite parse_ver_str_plain in He.
    + intros Hno. eexists. by apply Hfail.
  - intros d v r ? ? ? ->. by apply parse_ver_str_epoch.
  - intros v r ? ? ? Hs'. rewrite Hs' in *. by apply parse_ver_str_plain.
Qed.

(** ** The error monad *)

#[local] Arguments parse_ver_str : simpl never.

Lemma bind_Ok {A B} (m : res A) (f : A → res B) (b : B) :
  m ≫= f = Ok b ↔ ∃ a, m = Ok a ∧ f a = Ok b.
Proof.
  destruct m as [a|e]; simpl; split.
  - intros H. by exists a.
  - by intros (a' & [= <-] & H).
  - done.
  - by intros (a' & ? & _).
Qed.

Lemma hitem_Ok {A} (key : string) (field : option A) (a : A) :
  hitem key field = Ok a ↔ field = Some a.
Proof. destruct field; simpl; split; congruence. Qed.

Ltac hitem_inv :=
  repeat match goal with
  | H : hitem _ _ = Ok _ |- _ => apply hitem_Ok in H
  end.

Ltac res_inv H :=
  repeat lazymatch type of H with
  | _ ≫= _ = Ok _ =>
      let a := fresh "a" in let Ha := fresh "Ha" in
      apply bind_Ok in H as (a & Ha & H)
  end.


Lemma header_to_filelists_inv h sha key fl :
  header_to_filelists h sha = Ok (key, fl) →
  ∃ name arch ver dirnames basenames dirindexes files,
    NAME h = Some name ∧ ARCH h = Some arch ∧ VERSION h = Some ver ∧
    DIRNAMES h = Some dirnames ∧ BASENAMES h = Some basenames ∧
    DIRINDEXES h = Some dirindexes ∧
    manifest dirnames basenames dirindexes = Ok files ∧
    key = (name, hget (EPOCH h), hget (RELEASE h), ver) ∧
    fl = mkFilelists (PyStr sha) name arch
           (mkVersion ver (hget (RELEASE h)) (hget (EPOCH h))) files.
Proof.
  unfold header_to_filelists. intros H. res_inv H.
  hitem_inv. injection H as <- <-.
  do 7 eexists. split_and!; done.
Qed.

Lemma header_to_filelists_Ok h sha name arch ver dirnames basenames dirindexes files :
  NAME h = Some name → ARCH h = Some arch → VERSION h = Some ver →
  DIRNAMES h = Some dirnames → BASENAMES h = Some basenames →
  DIRINDEXES h = Some dirindexes →
  manifest dirnames basenames dirindexes = Ok files →
  header_to_filelists h sha =
    Ok ((name, hget (EPOCH h), hget (RELEASE h), ver),
        mkFilelists (PyStr sha) name arch
          (mkVersion ver (hget (RELEASE h)) (hget (EPOCH h))) files).
Proof.
  intros H1 H2 H3 H4 H5 H6 H7. unfold header_to_filelists.
  rewrite H1, H2, H3, H4, H5, H6. simpl. rewrite H7. done.
Qed.

(** ** The manifest *)

Lemma is_Ok_Ok {A} (a : A) : is_Ok (Ok a).
Proof. by exists a. Qed.

Lemma not_is_Ok_Raise {A} (e : exn) : ¬ is_Ok (@Raise A e).
Proof. by intros [a ?]. Qed.

Lemma py_index_valid {A} (l : list A) (i : Z) :
  valid_index l i → is_Ok (py_index l i).
Proof.
  unfold valid_index, py_index. intros Hi.
  set (n := Z.of_nat (length l)) in *.
  set (j := if (i <? 0)%Z then i + n else i).
  assert (0 ≤ j < n) as Hj by (unfold j; destruct (Z.ltb_spec i 0); lia).
  destruct (Z.leb_spec 0 j); [|lia]. destruct (Z.ltb_spec j n); [|lia]. simpl.
  destruct (lookup_lt_is_Some_2 l (Z.to_nat j)) as [x ->]; [lia|]. apply is_Ok_Ok.
Qed.

Lemma py_index_Raise {A} (l : list A) (i : Z) (e : exn) :
  py_index l i = Raise e → e = IndexError.
Proof.
  unfold py_index. destruct (_ && _); [|congruence].
  destruct (l !! _); congruence.
Qed.

Lemma py_index_invalid {A} (l : list A) (i : Z) :
  ¬ valid_index l i → py_index l i = Raise IndexError.
Proof.
  unfold valid_index, py_index. intros Hi.
  set (n := Z.of_nat (length l)) in *.
  destruct (Z.ltb_spec i 0).
  - destruct (Z.leb_spec 0 (i + n)); [lia|]. done.
  - destruct (Z.leb_spec 0 i); [|lia]. destruct (Z.ltb_spec i n); [lia|]. done.
Qed.

Lemma file_entries_Ok (dirnames : list string) (entries : list (string * Z)) :
  (∀ f i, (f, i) ∈ entries → valid_index dirnames i) →
  is_Ok (file_entries dirnames entries).
Proof.
  induction entries as [|[f i] entries IH]; intros H; simpl; [apply is_Ok_Ok|].
  destruct (py_index_valid dirnames i) as [d ->]; [apply (H f), list_elem_of_here|].
  simpl. destruct IH as [fs ->]; [|apply is_Ok_Ok].
  intros f' i' Hin. apply (H f'). by apply list_elem_of_further.
Qed.

Lemma file_entries_Raise (dirnames : list string) (entries : list (string * Z)) (e : exn) :
  file_entries dirnames entries = Raise e → e = IndexError.
Proof.
  induction entries as [|[f i] entries IH]; simpl; [done|].
  destruct (py_index dirnames i) eqn:E; simpl.
  - destruct (file_entries dirnames entries); simpl; [done|].
    intros [= <-]. by apply IH.
  - intros [= <-]. by eapply py_index_Raise.
Qed.

Lemma file_entries_invalid (dirnames : list string) (entries : list (string * Z)) f i :
  (f, i) ∈ entries → ¬ valid_index dirnames i →
  file_entries dirnames entries = Raise IndexError.
Proof.
  intros Hin Hi.
  destruct (file_entries dirnames entries) as [fs|e] eqn:E.
  - exfalso. revert fs E.
    induction entries as [|[f' i'] entries IH]; intros fs; [by apply elem_of_nil in Hin|].
    simpl. apply elem_of_cons in Hin as [[= <- <-] | Hin].
    + by rewrite py_index_invalid.
    + destruct (py_index dirnames i'); simpl; [|done].
      destruct (file_entries dirnames entries); simpl; [|done].
      intros _. by eapply IH.
  - f_equal. by eapply file_entries_Raise.
Qed.

Lemma elem_of_zip_lookup {A B} (l : list A) (k : list B) (x : A) (y : B) :
  (x, y) ∈ zip l k ↔ ∃ j, l !! j = Some x ∧ k !! j = Some y.
Proof.
  rewrite list_elem_of_lookup. split; intros [j Hj]; exists j.
  - rewrite lookup_zip_with in Hj.
    destruct (l !! j); simpl in Hj; [|done].
    destruct (k !! j); simpl in Hj; [|done]. by injection Hj as -> ->.
  - rewrite lookup_zip_with. destruct Hj as [-> ->]. done.
Qed.

Lemma manifest_Ok (dirnames basenames : list string) (dirindexes : list Z) :
  (∀ j i, (j < length basenames)%nat → dirindexes !! j = Some i → valid_index dirnames i) →
  is_Ok (manifest dirnames basenames dirindexes).
Proof.
  intros H. unfold manifest.
  destruct (file_entries_Ok dirnames (zip basenames dirindexes)) as [fs ->];
    [|apply is_Ok_Ok].
  intros f i (j & Hf & Hi)%elem_of_zip_lookup.
  apply (H j); [by eapply lookup_lt_Some | done].
Qed.

Lemma manifest_invalid (dirnames basenames : list string) (dirindexes : list Z) j i :
  (j < length basenames)%nat → dirindexes !! j = Some i → ¬ valid_index dirnames i →
  manifest dirnames basenames dirindexes = Raise IndexError.
Proof.
  intros Hj Hi Hbad. unfold manifest.
  destruct (lookup_lt_is_Some_2 basenames j Hj) as [f Hf].
  rewrite (file_entries_invalid dirnames _ f i); [done| |done].
  apply elem_of_zip_lookup. by exists j.
Qed.


(** ** The header mapper *)

Section MapperFacts.

Context (RPMSENSE_RPMLIB : Z) (flags_to_str : Z -> option string).

Local Abbreviation h2p := (header_to_primary RPMSENSE_RPMLIB flags_to_str).

Lemma header_to_primary_inv h sha mtime loc key prim :
  h2p h sha mtime loc = Ok (key, prim) →
  ∃ name arch summary description build_time url ver
    provides requires obsoletes dirnames basenames dirindexes files,
    NAME h = Some name ∧ ARCH h = Some arch ∧ SUMMARY h = Some summary ∧
    DESCRIPTION h = Some description ∧ BUILDTIME h = Some build_time ∧
    URL h = Some url ∧ VERSION h = Some ver ∧
    deps_loop flags_to_str (provides_entries h) ∅ = Ok provides ∧
    requires_loop RPMSENSE_RPMLIB flags_to_str (requires_entries h) ∅ = Ok requires ∧
    deps_loop flags_to_str (obsoletes_entries h) ∅ = Ok obsoletes ∧
    DIRNAMES h = Some dirnames ∧ BASENAMES h = Some basenames ∧
    DIRINDEXES h = Some dirindexes ∧
    manifest dirnames basenames dirindexes = Ok files ∧
    key = (name, hget (EPOCH h), hget (RELEASE h), ver) ∧
    prim = mkPrimary (PyStr sha) name arch
             (mkVersion ver (hget (RELEASE h)) (hget (EPOCH h)))
             summary description (hget (PACKAGER h)) url
             (py_str (py_int mtime)) build_time loc
             (mkFormat (hget (LICENSE h)) (hget (VENDOR h)) (hget (GROUP h))
                (hget (BUILDHOST h)) (hget (SOURCERPM h)) PyNone PyNone
                provides requires obsoletes files).
Proof.
  unfold header_to_primary. intros H. res_inv H.
  hitem_inv. injection H as <- <-.
  do 14 eexists. split_and!; try done.
Qed.

Lemma header_to_primary_Ok h sha mtime loc name arch summary description
    build_time url ver provides requires obsoletes dirnames basenames
    dirindexes files :
  NAME h = Some name → ARCH h = Some arch → SUMMARY h = Some summary →
  DESCRIPTION h = Some description → BUILDTIME h = Some build_time →
  URL h = Some url → VERSION h = Some ver →
  deps_loop flags_to_str (provides_entries h) ∅ = Ok provides →
  requires_loop RPMSENSE_RPMLIB flags_to_str (requires_entries h) ∅ = Ok requires →
  deps_loop flags_to_str (obsoletes_entries h) ∅ = Ok obsoletes →
  DIRNAMES h = Some dirnames → BASENAMES h = Some basenames →
  DIRINDEXES h = Some dirindexes →
  manifest dirnames basenames dirindexes = Ok files →
  h2p h sha mtime loc =
    Ok ((name, hget (EPOCH h), hget (RELEASE h), ver),
        mkPrimary (PyStr sha) name arch
          (mkVersion ver (hget (RELEASE h)) (hget (EPOCH h)))
          summary description (hget (PACKAGER h)) url
          (py_str (py_int mtime)) build_time loc
          (mkFormat (hget (LICENSE h)) (hget (VENDOR h)) (hget (GROUP h))
             (hget (BUILDHOST h)) (hget (SOURCERPM h)) PyNone PyNone
             provides requires obsoletes files)).
Proof.
  intros H1 H2 H3 H4 H5 H6 H7 H8 H9 H10 H11 H12 H13 H14.
  unfold header_to_primary, provides_entries, requires_entries, obsoletes_entries in *.
  rewrite H1, H2, H3, H4, H5, H6, H7. simpl.
  rewrite H8. simpl. rewrite H9. simpl. rewrite H10. simpl.
  rewrite H11, H12, H13. simpl. rewrite H14. done.
Qed.


Local Abbreviation rloop := (requires_loop RPMSENSE_RPMLIB flags_to_str).
Local Abbreviation rrec := (req_record flags_to_str).
Local Abbreviation internal := (internal_only RPMSENSE_RPMLIB).

Lemma requires_loop_cons name version flags entries d :
  rloop ((name, version, flags) :: entries) d =
    evr ← parse_ver_str (Some version);
    if decide (internal flags) then rloop entries d
    else rloop entries (<[(rrec name evr flags).1 := (rrec name evr flags).2]> d).
Proof.
  simpl. destruct (parse_ver_str (Some version)) as [[[e v] r]|]; simpl; [|done].
  unfold internal_only. by case_decide.
Qed.

(** Every record of the result was in the dictionary at the start or was
    stored for an entry that the loop kept. *)
Lemma requires_loop_lookup entries d m k rec :
  rloop entries d = Ok m → m !! k = Some rec →
  d !! k = Some rec ∨
  ∃ name version flags evr,
    (name, version, flags) ∈ entries ∧ ¬ internal flags ∧
    parse_ver_str (Some version) = Ok evr ∧ rrec name evr flags = (k, rec).
Proof.
  revert d. induction entries as [|[[name version] flags] entries IH]; intros d.
  - simpl. intros [= <-] Hk. by left.
  - rewrite requires_loop_cons. intros H Hk. res_inv H.
    case_decide as Hi.
    + destruct (IH _ H Hk) as [? | (n & v & f & evr & Hin & ?)]; [by left|].
      right. exists n, v, f, evr. split; [by apply elem_of_cons; right | done].
    + destruct (IH _ H Hk) as [Hd | (n & v & f & evr & Hin & ?)].
      * destruct (decide ((rrec name a flags).1 = k)) as [<- | Hne].
        -- rewrite lookup_insert_eq in Hd. injection Hd as <-.
           right. exists name, version, flags, a.
           split_and!; [by apply elem_of_cons; left | done | done |].
           by destruct (rrec name a flags).
        -- rewrite lookup_insert_ne in Hd by done. by left.
      * right. exists n, v, f, evr. split; [by apply elem_of_cons; right | done].
Qed.

(** The loop only adds keys. *)
Lemma requires_loop_mono entries d m k :
  rloop entries d = Ok m → is_Some (d !! k) → is_Some (m !! k).
Proof.
  revert d. induction entries as [|[[name version] flags] entries IH]; intros d.
  - simpl. by intros [= <-].
  - rewrite requires_loop_cons. intros H Hk. res_inv H.
    case_decide; [by eapply IH|].
    eapply IH; [done|]. rewrite lookup_insert. case_decide; [done|]. done.
Qed.

(** The key of every entry that the loop keeps is in the result. *)
Lemma requires_loop_kept entries d m name version flags evr :
  rloop entries d = Ok m →
  (name, version, flags) ∈ entries → ¬ internal flags →
  parse_ver_str (Some version) = Ok evr →
  is_Some (m !! (rrec name evr flags).1).
Proof.
  revert d. induction entries as [|[[n v] f] entries IH]; intros d.
  - intros _ Hin. by apply elem_of_nil in Hin.
  - rewrite requires_loop_cons. intros H Hin Hi Hp. res_inv H.
    apply elem_of_cons in Hin as [[= -> -> ->] | Hin].
    + rewrite Hp in Ha. injection Ha as <-.
      rewrite decide_False in H by done.
      eapply requires_loop_mono; [done|]. by rewrite lookup_insert_eq.
    + case_decide; by eapply IH.
Qed.

(** The result is the one of the loop over the entries without the
    internal-only ones. *)
Lemma requires_loop_filter entries d m :
  rloop entries d = Ok m →
  rloop (filter (λ e, ¬ internal e.2) entries) d = Ok m.
Proof.
  revert d. induction entries as [|[[n v] f] entries IH]; intros d; [done|].
  rewrite requires_loop_cons. intros H. res_inv H.
  case_decide as Hi.
  - rewrite filter_cons_False by (simpl; tauto). by apply IH.
  - rewrite filter_cons_True by done. rewrite requires_loop_cons, Ha. simpl.
    rewrite decide_False by done. by apply IH.
Qed.

Lemma pre_of_cases (flags : Z) :
  (pre_of flags = Some "1" ↔ Z.land flags 4352 ≠ 0) ∧
  (pre_of flags = None ↔ Z.land flags 4352 = 0).
Proof.
  unfold pre_of. case_decide; split; split; try done; intros; lia.
Qed.

Lemma req_record_pre (name : string) evr (flags : Z) :
  req_pre (rrec name evr flags).2 = pre_of flags.
Proof. by destruct evr as [[e v] r]. Qed.

(** C3: in the primary record that [header_to_primary] returns, every
    entry of the requires mapping was stored for an entry of the three
    requires tables whose flags do not have the rpmlib bit; the key of an
    entry with the bit is absent unless an entry without the bit has the
    same key; and the mapping is the one of the tables without the entries
    that have the bit. *)
Theorem rpmlib_requires_dropped (h : Header) (sha : string) (mtime : number)
    (loc : string) (key : nerv) (prim : Primary) :
  h2p h sha mtime loc = Ok (key, prim) →
  (∀ k rec, fmt_requires (pri_format prim) !! k = Some rec →
     ∃ name version flags evr,
       (name, version, flags) ∈ requires_entries h ∧ ¬ internal flags ∧
       parse_ver_str (Some version) = Ok evr ∧ rrec name evr flags = (k, rec)) ∧
  (∀ name version flags evr,
     (name, version, flags) ∈ requires_entries h → internal flags →
     parse_ver_str (Some version) = Ok evr →
     (∀ name' version' flags' evr',
        (name', version', flags') ∈ requires_entries h → ¬ internal flags' →
        parse_ver_str (Some version') = Ok evr' →
        (rrec name' evr' flags').1 ≠ (rrec name evr flags).1) →
     fmt_requires (pri_format prim) !! (rrec name evr flags).1 = None) ∧
  rloop (filter (λ e, ¬ internal e.2) (requires_entries h)) ∅
    = Ok (fmt_requires (pri_format prim)).
Proof.
  intros H. apply header_to_primary_inv in H
    as (? & ? & ? & ? & ? & ? & ? & ? & requires & ? & ? & ? & ? & ? &
        _ & _ & _ & _ & _ & _ & _ & _ & Hreq & _ & _ & _ & _ & _ & _ & ->).
  simpl. split_and!.
  - intros k rec Hk.
    destruct (requires_loop_lookup _ _ _ _ _ Hreq Hk) as [Hd | ?]; [|done].
    by rewrite lookup_empty in Hd.
  - intros name version flags evr Hin Hi Hp Hother.
    destruct (requires !! _) as [rec|] eqn:Hk; [|done].
    destruct (requires_loop_lookup _ _ _ _ _ Hreq Hk)
      as [Hd | (n & v & f & evr' & Hin' & Hi' & Hp' & Hrec)].
    + by rewrite lookup_empty in Hd.
    + destruct (Hother n v f evr' Hin' Hi' Hp'). by rewrite Hrec.
  - by apply requires_loop_filter.
Qed.

(** The keys that no kept entry has keep their value. *)
Lemma requires_loop_other entries d m k :
  rloop entries d = Ok m →
  (∀ name version flags evr,
     (name, version, flags) ∈ entries → ¬ internal flags →
     parse_ver_str (Some version) = Ok evr → (rrec name evr flags).1 ≠ k) →
  m !! k = d !! k.
Proof.
  revert d. induction entries as [|[[n v] f] entries IH]; intros d.
  - by intros [= <-].
  - rewrite requires_loop_cons. intros H Hk. res_inv H.
    assert (∀ name version flags evr,
              (name, version, flags) ∈ entries → ¬ internal flags →
              parse_ver_str (Some version) = Ok evr → (rrec name evr flags).1 ≠ k)
      as Hk' by (intros ? ? ? ? ?; apply Hk; by apply list_elem_of_further).
    case_decide as Hi.
    + by apply IH.
    + rewrite (IH _ H Hk'). apply lookup_insert_ne.
      eapply Hk; [apply list_elem_of_here | done | done].
Qed.

(** Of the kept entries with one key the last one is the one stored. *)
Lemma requires_loop_last entries1 name version flags entries2 d m evr :
  rloop (entries1 ++ (name, version, flags) :: entries2) d = Ok m →
  ¬ internal flags → parse_ver_str (Some version) = Ok evr →
  (∀ name' version' flags' evr',
     (name', version', flags') ∈ entries2 → ¬ internal flags' →
     parse_ver_str (Some version') = Ok evr' →
     (rrec name' evr' flags').1 ≠ (rrec name evr flags).1) →
  m !! (rrec name evr flags).1 = Some (rrec name evr flags).2.
Proof.
  revert d. induction entries1 as [|[[n v] f] entries1 IH]; intros d; simpl app.
  - rewrite requires_loop_cons. intros H Hi Hp Hl. rewrite Hp in H. simpl in H.
    rewrite decide_False in H by done.
    rewrite (requires_loop_other _ _ _ _ H Hl). apply lookup_insert_eq.
  - rewrite requires_loop_cons. intros H Hi Hp Hl. res_inv H.
    case_decide; by eapply IH.
Qed.

(** Every record of the result was in the dictionary at the start, with no
    kept entry under its key, or is the record of the last kept entry with
    its key. *)
Lemma requires_loop_origin entries d m k rec :
  rloop entries d = Ok m → m !! k = Some rec →
  (d !! k = Some rec ∧
   ∀ name version flags evr,
     (name, version, flags) ∈ entries → ¬ internal flags →
     parse_ver_str (Some version) = Ok evr → (rrec name evr flags).1 ≠ k) ∨
  ∃ entries1 name version flags entries2 evr,
    entries = entries1 ++ (name, version, flags) :: entries2 ∧
    ¬ internal flags ∧ parse_ver_str (Some version) = Ok evr ∧
    rrec name evr flags = (k, rec) ∧
    ∀ name' version' flags' evr',
      (name', version', flags') ∈ entries2 → ¬ internal flags' →
      parse_ver_str (Some version') = Ok evr' → (rrec name' evr' flags').1 ≠ k.
Proof.
  revert d. induction entries as [|[[n v] f] entries IH]; intros d.
  - simpl. intros [= <-] Hk. left. split; [done|].
    intros ? ? ? ? Hin. by apply elem_of_nil in Hin.
  - rewrite requires_loop_cons. intros H Hk. res_inv H. case_decide as Hi.
    + destruct (IH _ H Hk)
        as [[Hd Hno] | (e1 & n' & v' & f' & e2 & evr & -> & ? & ? & ? & ?)].
      * left. split; [done|]. intros n' v' f' evr [[= -> -> ->] | Hin]%elem_of_cons;
          [done | by apply Hno].
      * right. by exists ((n, v, f) :: e1), n', v', f', e2, evr.
    + destruct (IH _ H Hk)
        as [[Hd Hno] | (e1 & n' & v' & f' & e2 & evr & -> & ? & ? & ? & ?)].
      * destruct (decide ((rrec n a f).1 = k)) as [<- | Hne].
        -- rewrite lookup_insert_eq in Hd. injection Hd as <-. right.
           exists [], n, v, f, entries, a. split_and!; try done.
           by destruct (rrec n a f).
        -- rewrite lookup_insert_ne in Hd by done. left. split; [done|].
           intros n' v' f' evr [[= -> -> ->] | Hin]%elem_of_cons Hi' Hp';
             [|by eapply Hno].
           rewrite Ha in Hp'. by injection Hp' as <-.
      * right. by exists ((n, v, f) :: e1), n', v', f', e2, evr.
Qed.

(** C7, amended: the requires mapping of the record that
    [header_to_primary] returns holds, under the key of a kept entry, the
    record of the last kept entry with that key, and the marker of that
    record is "1" exactly when the flags of that last entry and 4352 have
    a common bit, and [None] otherwise.  Every record of the mapping is the
    record of the last kept entry with its key, and the key of every kept
    entry is in the mapping. *)
Theorem requires_pre_marker (h : Header) (sha : string) (mtime : number)
    (loc : string) (key : nerv) (prim : Primary) :
  h2p h sha mtime loc = Ok (key, prim) →
  (∀ entries1 name version flags entries2 e v r,
     requires_entries h = entries1 ++ (name, version, flags) :: entries2 →
     ¬ internal flags → parse_ver_str (Some version) = Ok (e, v, r) →
     (∀ name' version' flags' e' v' r',
        (name', version', flags') ∈ entries2 → ¬ internal flags' →
        parse_ver_str (Some version') = Ok (e', v', r') →
        (name', e', r', v') ≠ (name, e, r, v)) →
     ∃ rec, fmt_requires (pri_format prim) !! (name, e, r, v) = Some rec ∧
       req_name rec = name ∧ req_flags rec = flags_to_str flags ∧
       (req_pre rec = Some "1" ↔ Z.land flags 4352 ≠ 0) ∧
       (req_pre rec = None ↔ Z.land flags 4352 = 0)) ∧
  (∀ k rec, fmt_requires (pri_format prim) !! k = Some rec →
     ∃ entries1 name version flags entries2 e v r,
       requires_entries h = entries1 ++ (name, version, flags) :: entries2 ∧
       ¬ internal flags ∧ parse_ver_str (Some version) = Ok (e, v, r) ∧
       k = (name, e, r, v) ∧
       (∀ name' version' flags' e' v' r',
          (name', version', flags') ∈ entries2 → ¬ internal flags' →
          parse_ver_str (Some version') = Ok (e', v', r') →
          (name', e', r', v') ≠ k) ∧
       (req_pre rec = Some "1" ↔ Z.land flags 4352 ≠ 0) ∧
       (req_pre rec = None ↔ Z.land flags 4352 = 0)) ∧
  (∀ name version flags e v r,
     (name, version, flags) ∈ requires_entries h → ¬ internal flags →
     parse_ver_str (Some version) = Ok (e, v, r) →
     is_Some (fmt_requires (pri_format prim) !! (name, e, r, v))).
Proof.
  intros H. apply header_to_primary_inv in H
    as (? & ? & ? & ? & ? & ? & ? & ? & requires & ? & ? & ? & ? & ? &
        _ & _ & _ & _ & _ & _ & _ & _ & Hreq & _ & _ & _ & _ & _ & _ & ->).
  simpl. split_and!.
  - intros e1 name version flags e2 e v r He Hi Hp Hl. rewrite He in Hreq.
    exists (rrec name (e, v, r) flags).2. split.
    + apply (requires_loop_last _ _ _ _ _ _ _ _ Hreq Hi Hp).
      intros n' v' f' [[e' v''] r'] Hin Hi' Hp'. simpl. by eapply Hl.
    + simpl. split_and!; [done | done | apply pre_of_cases..].
  - intros k rec Hk.
    destruct (requires_loop_origin _ _ _ _ _ Hreq Hk)
      as [[Hd _] | (e1 & n & v & f & e2 & [[e v'] r] & He & Hi & Hp & Hrec & Hl)].
    + by rewrite lookup_empty in Hd.
    + simpl in Hrec. injection Hrec as <- <-.
      exists e1, n, v, f, e2, e, v', r. split_and!; try done.
      * intros n' v'' f' e' v3 r' Hin Hi' Hp'.
        apply (Hl n' v'' f' (e', v3, r') Hin Hi' Hp').
      * apply pre_of_cases.
      * apply pre_of_cases.
  - intros name version flags e v r Hin Hi Hp.
    apply (requires_loop_kept _ _ _ _ _ _ (e, v, r) Hreq Hin Hi Hp).
Qed.

(** C5: for every header with the scalar keys that the two functions index,
    with [BASENAMES] = [foo], [DIRNAMES] = [/usr/bin/], [DIRINDEXES] = [0]
    and no dependency entries, [header_to_primary] and [header_to_filelists]
    return records under one identity, which both records carry in their
    own fields, and the manifest of each is the file entry [/usr/bin/foo]
    followed by the directory entry [/usr/bin/]. *)
Theorem foo_header_records (h : Header) (sha : string) (mtime : number) (loc : string)
    (name arch summary description build_time url ver : pyval) :
  NAME h = Some name → ARCH h = Some arch → SUMMARY h = Some summary →
  DESCRIPTION h = Some description → BUILDTIME h = Some build_time →
  URL h = Some url → VERSION h = Some ver →
  BASENAMES h = Some ["foo"] → DIRNAMES h = Some ["/usr/bin/"] →
  DIRINDEXES h = Some [0] →
  provides_entries h = [] → requires_entries h = [] → obsoletes_entries h = [] →
  ∃ key prim fl,
    h2p h sha mtime loc = Ok (key, prim) ∧
    header_to_filelists h sha = Ok (key, fl) ∧
    pri_identity prim = key ∧ fl_identity fl = key ∧
    fmt_files (pri_format prim) = foo_files ∧ fl_files fl = foo_files ∧
    fmt_provides (pri_format prim) = ∅ ∧ fmt_requires (pri_format prim) = ∅ ∧
    fmt_obsoletes (pri_format prim) = ∅.
Proof.
  intros H1 H2 H3 H4 H5 H6 H7 Hb Hd Hi Hp Hr Ho.
  assert (Hm : manifest ["/usr/bin/"] ["foo"] [0] = Ok foo_files) by done.
  eexists _, _, _. split_and!.
  - eapply header_to_primary_Ok; try done.
    + by rewrite Hp.
    + by rewrite Hr.
    + by rewrite Ho.
  - by eapply header_to_filelists_Ok.
  - done.
  - done.
  - done.
  - done.
  - done.
  - done.
  - done.
Qed.

(** C8, amended: no constructor validates the name.  The two functions on
    a header return, when they return, an identity and a record with the
    value of [NAME] as it is, and whether they return does not depend on
    that value; the two functions on a package node of a document copy the
    [name] attribute, or the text of the [name] node, in the same way. *)
Theorem name_not_validated :
  (∀ h sha key fl,
     header_to_filelists h sha = Ok (key, fl) →
     NAME h = Some (nerv_name key) ∧ fl_name fl = nerv_name key) ∧
  (∀ h sha mtime loc key prim,
     h2p h sha mtime loc = Ok (key, prim) →
     NAME h = Some (nerv_name key) ∧ pri_name prim = nerv_name key) ∧
  (∀ h sha name name',
     is_Ok (header_to_filelists (with_NAME (Some name) h) sha) ↔
     is_Ok (header_to_filelists (with_NAME (Some name') h) sha)) ∧
  (∀ h sha mtime loc name name',
     is_Ok (h2p (with_NAME (Some name) h) sha mtime loc) ↔
     is_Ok (h2p (with_NAME (Some name') h) sha mtime loc)) ∧
  (∀ child key fl,
     filelists_package child = Ok (key, fl) →
     of_opt (attrib child !! "name") = nerv_name key ∧ fl_name fl = nerv_name key) ∧
  (∀ child key prim,
     primary_package child = Ok (key, prim) →
     (∃ node, find child (qname ns_common "name") = Some node ∧
              of_opt (text node) = nerv_name key) ∧
     pri_name prim = nerv_name key).
Proof.
  split_and!.
  - intros h sha key fl H. apply header_to_filelists_inv in H
      as (? & ? & ? & ? & ? & ? & ? & ? & _ & _ & _ & _ & _ & _ & -> & ->). done.
  - intros h sha mtime loc key prim H. apply header_to_primary_inv in H
      as (? & ? & ? & ? & ? & ? & ? & ? & ? & ? & ? & ? & ? & ? &
          ? & _ & _ & _ & _ & _ & _ & _ & _ & _ & _ & _ & _ & _ & -> & ->). done.
  - intros h sha name name'.
    assert (∀ n n', is_Ok (header_to_filelists (with_NAME (Some n) h) sha) →
                    is_Ok (header_to_filelists (with_NAME (Some n') h) sha)) as Hone.
    { intros n n' [[key fl] H]. apply header_to_filelists_inv in H
        as (? & ? & ? & ? & ? & ? & ? & _ & ? & ? & ? & ? & ? & ? & _).
      erewrite header_to_filelists_Ok; [apply is_Ok_Ok | done..]. }
    split; apply Hone.
  - intros h sha mtime loc name name'.
    assert (∀ n n', is_Ok (h2p (with_NAME (Some n) h) sha mtime loc) →
                    is_Ok (h2p (with_NAME (Some n') h) sha mtime loc)) as Hone.
    { intros n n' [[key prim] H]. apply header_to_primary_inv in H
        as (? & ? & ? & ? & ? & ? & ? & ? & ? & ? & ? & ? & ? & ? &
            _ & ? & ? & ? & ? & ? & ? & ? & ? & ? & ? & ? & ? & ? & _).
      erewrite header_to_primary_Ok; [apply is_Ok_Ok | done..]. }
    split; apply Hone.
  - intros child key fl H. unfold filelists_package in H. res_inv H.
    injection H as <- <-. unfold getitem in Ha0.
    destruct (attrib child !! "name"); [|done]. by injection Ha0 as ->.
  - intros child key prim H. unfold primary_package in H. res_inv H.
    destruct (find child (qname ns_common "format")); [|done]. res_inv H.
    injection H as <- <-. split; [|done].
    destruct (find child (qname ns_common "name")) as [node|]; [|done].
    exists node. split; [done|]. by injection Ha0 as <-.
Qed.

(** C9, amended: the manifest looks up [DIRNAMES] at every directory index
    that [zip] pairs with a base name.  When every such index is a valid
    index of [DIRNAMES], the manifest is built, [header_to_filelists] returns
    if the header has its three scalar keys, and [header_to_primary] returns
    if the header has its seven scalar keys and the three dependency loops
    return.  When one such index is not valid, the manifest raises
    [IndexError] and neither function returns. *)
Theorem dirindex_bounds (h : Header) (sha : string) (mtime : number) (loc : string)
    (dirnames basenames : list string) (dirindexes : list Z) :
  DIRNAMES h = Some dirnames → BASENAMES h = Some basenames →
  DIRINDEXES h = Some dirindexes →
  ((∀ j i, (j < length basenames)%nat → dirindexes !! j = Some i →
           valid_index dirnames i) →
     is_Ok (manifest dirnames basenames dirindexes) ∧
     (is_Some (NAME h) → is_Some (ARCH h) → is_Some (VERSION h) →
      is_Ok (header_to_filelists h sha)) ∧
     (is_Some (NAME h) → is_Some (ARCH h) → is_Some (SUMMARY h) →
      is_Some (DESCRIPTION h) → is_Some (BUILDTIME h) → is_Some (URL h) →
      is_Some (VERSION h) →
      is_Ok (deps_loop flags_to_str (provides_entries h) ∅) →
      is_Ok (requires_loop RPMSENSE_RPMLIB flags_to_str (requires_entries h) ∅) →
      is_Ok (deps_loop flags_to_str (obsoletes_entries h) ∅) →
      is_Ok (h2p h sha mtime loc))) ∧
  (∀ j i, (j < length basenames)%nat → dirindexes !! j = Some i →
          ¬ valid_index dirnames i →
     manifest dirnames basenames dirindexes = Raise IndexError ∧
     ¬ is_Ok (header_to_filelists h sha) ∧
     ¬ is_Ok (h2p h sha mtime loc)).
Proof.
  intros Hd Hb Hi. split.
  - intros Hvalid. destruct (manifest_Ok _ _ _ Hvalid) as [files Hm].
    split_and!.
    + by exists files.
    + intros [? ?] [? ?] [? ?].
      erewrite header_to_filelists_Ok; [apply is_Ok_Ok | done..].
    + intros [? ?] [? ?] [? ?] [? ?] [? ?] [? ?] [? ?] [? ?] [? ?] [? ?].
      erewrite header_to_primary_Ok; [apply is_Ok_Ok | done..].
  - intros j i Hj Hji Hbad.
    pose proof (manifest_invalid _ _ _ j i Hj Hji Hbad) as Hm.
    split_and!; [done| |].
    + intros [[key fl] H]. apply header_to_filelists_inv in H
        as (? & ? & ? & ? & ? & ? & ? & _ & _ & _ & ? & ? & ? & Hm' & _).
      congruence.
    + intros [[key prim] H]. apply header_to_primary_inv in H
        as (? & ? & ? & ? & ? & ? & ? & ? & ? & ? & ? & ? & ? & ? &
            _ & _ & _ & _ & _ & _ & _ & _ & _ & _ & ? & ? & ? & Hm' & _).
      congruence.
Qed.

End MapperFacts.

(** ** Numbers *)

Lemma py_int_number_of_Z (z : Z) : py_int (number_of_Z z) = z.
Proof.
  unfold py_int, number_of_Z. simpl.
  rewrite Qred_identity by (simpl; apply Z.gcd_1_r).
  simpl. apply Z.quot_1_r.
Qed.

Lemma number_of_Z_inj (a b : Z) : number_of_Z a = number_of_Z b → a = b.
Proof. intros H. by rewrite <- (py_int_number_of_Z a), H, py_int_number_of_Z. Qed.

Lemma integral_py_int (m : number) : integral m ↔ number_of_Z (py_int m) = m.
Proof.
  split.
  - intros [z ->]. by rewrite py_int_number_of_Z.
  - intros <-. by eexists.
Qed.

Lemma to_int_not_nil (z : Z) : Z.to_int z ≠ Decimal.Pos Decimal.Nil ∧ Z.to_int z ≠ Decimal.Neg Decimal.Nil.
Proof.
  split; intros H.
  all: assert (z = 0) as -> by (by rewrite <- (DecimalZ.of_to z), H).
  all: vm_compute in H; discriminate H.
Qed.

Lemma sample_float_int (z : Z) : sample_float (py_str z) = Ok (number_of_Z z).
Proof.
  unfold sample_float, py_str.
  destruct (to_int_not_nil z) as [H1 H2].
  rewrite NilZero.isi by done. by rewrite DecimalZ.of_to.
Qed.

Example py_str_ex : py_str 0 = "0" ∧ py_str (-5) = "-5" ∧ py_str 1500000000 = "1500000000".
Proof. vm_compute. done. Qed.

Example py_int_ex : py_int (Q2Qc (7 # 2)) = 3 ∧ py_int (Q2Qc (-7 # 2)) = -3.
Proof. vm_compute. done. Qed.


(** ** The archive path pattern *)

Lemma rpm_tail_spec (sn ah : string) :
  is_Some (rpm_tail sn ah) ↔ ∃ e, ah = ".rpm" +:+ e ∧ (e = "" ∨ e = nl).
Proof.
  unfold rpm_tail. split.
  - destruct ah as [|c1 [|c2 [|c3 [|c4 e]]]]; simpl; try by intros [? ?].
    all: repeat (case_decide; [subst|by intros [? ?]]); try by intros [? ?].
    intros H. exists e. split; [done|].
    unfold Re.finish in H. simpl in H.
    repeat case_decide; subst; auto. by destruct H.
  - intros (e & -> & [-> | ->]); simpl; done.
Qed.

Lemma re_match_rpm_expr (s : string) :
  Re.re_match rpm_expr s = Re.star not_newline "" s rpm_tail.
Proof. reflexivity. Qed.

Lemma rpm_expr_match (s : string) :
  is_Some (Re.re_match rpm_expr s) ↔ matches_rpm_expr s.
Proof.
  rewrite re_match_rpm_expr. split.
  - intros [m Hm]. apply star_Some_inv in Hm as (x & y & -> & Hx & Hk).
    destruct (proj1 (rpm_tail_spec _ _) (mk_is_Some _ _ Hk)) as (e & -> & He).
    by exists x, e.
  - intros (x & e & -> & Hx & He). apply star_complete; [done|].
    apply rpm_tail_spec. by exists e.
Qed.

(** ** The reconciliation *)

Section EngineFacts.

Context (RPMSENSE_RPMLIB : Z) (flags_to_str : Z -> option string)
        (py_float : string -> res number)
        (parse_file : string -> res Header)
        (hexdigest : string -> string)
        (storage : Storage).

Local Abbreviation h2p := (header_to_primary RPMSENSE_RPMLIB flags_to_str).
Local Abbreviation add1 :=
  (add_file RPMSENSE_RPMLIB flags_to_str parse_file hexdigest storage).

Lemma recorded_loop_spec (packages : list Primary) (acc r : gset (string * number)) :
  recorded_loop py_float packages acc = Ok r →
  ∀ p t, (p, t) ∈ r ↔
    (p, t) ∈ acc ∨
    ∃ package, package ∈ packages ∧ pri_location package = p ∧
               py_float (pri_file_time package) = Ok t.
Proof.
  revert acc. induction packages as [|package packages IH]; intros acc; simpl.
  - intros [= <-] p t. split; [by left|]. intros [? | (? & []%elem_of_nil & _)]. done.
  - intros H p t. res_inv H. rewrite (IH _ H). clear IH H. split.
    + intros [[Hs%elem_of_singleton | ?]%elem_of_union | (pkg & ? & ? & ?)].
      * injection Hs as -> ->. right. exists package.
        split; [apply list_elem_of_here | done].
      * by left.
      * right. exists pkg. split; [by apply list_elem_of_further | done].
    + intros [? | (pkg & [-> | ?]%elem_of_cons & <- & Hf)].
      * left. set_solver.
      * left. rewrite Ha in Hf. injection Hf as <-. set_solver.
      * right. by exists pkg.
Qed.

Lemma recorded_loop_Ok (packages : list Primary) (acc : gset (string * number)) :
  (∀ package, package ∈ packages → is_Ok (py_float (pri_file_time package))) →
  is_Ok (recorded_loop py_float packages acc).
Proof.
  revert acc. induction packages as [|package packages IH]; intros acc H; simpl.
  - apply is_Ok_Ok.
  - destruct (H package) as [t ->]; [apply list_elem_of_here|]. simpl.
    apply IH. intros pkg ?. apply H. by apply list_elem_of_further.
Qed.

Lemma elem_of_values (primary : gmap nerv Primary) (package : Primary) :
  package ∈ (snd <$> map_to_list primary) ↔ ∃ k, primary !! k = Some package.
Proof.
  rewrite list_elem_of_fmap. split.
  - intros ([k pkg] & -> & Hin%elem_of_map_to_list). by exists k.
  - intros [k Hk]. exists (k, package). split; [done|]. by apply elem_of_map_to_list.
Qed.

Lemma existing_loop_spec (paths : list string) (acc r : gset (string * number)) :
  existing_loop storage paths acc = Ok r →
  ∀ p m, (p, m) ∈ r ↔
    (p, m) ∈ acc ∨ (p ∈ paths ∧ matches_rpm_expr p ∧ st_mtime storage p = Ok m).
Proof.
  revert acc. induction paths as [|path paths IH]; intros acc; simpl.
  - intros [= <-] p m. split; [by left|]. intros [? | ([]%elem_of_nil & _)]. done.
  - destruct (Re.re_match rpm_expr path) as [g|] eqn:E.
    + intros H p m. res_inv H. rewrite (IH _ H). clear IH H. split.
      * intros [[Hs%elem_of_singleton | ?]%elem_of_union | (? & ? & ?)].
        -- injection Hs as -> ->. right.
           split_and!; [apply list_elem_of_here | | done].
           apply rpm_expr_match. by rewrite E.
        -- by left.
        -- right. split; [by apply list_elem_of_further | done].
      * intros [? | ([-> | ?]%elem_of_cons & Hm & Ht)].
        -- left. set_solver.
        -- left. rewrite Ha in Ht. injection Ht as <-. set_solver.
        -- by right.
    + intros H p m. rewrite (IH _ H). clear IH H. split.
      * intros [? | (? & ? & ?)]; [by left|].
        right. split; [by apply list_elem_of_further | done].
      * intros [? | ([-> | ?]%elem_of_cons & Hm & Ht)]; [by left | | by right].
        apply rpm_expr_match in Hm. rewrite E in Hm. by destruct Hm.
Qed.

Lemma existing_loop_Ok (paths : list string) (acc : gset (string * number)) :
  (∀ p, p ∈ paths → matches_rpm_expr p → is_Ok (st_mtime storage p)) →
  is_Ok (existing_loop storage paths acc).
Proof.
  revert acc. induction paths as [|path paths IH]; intros acc H; simpl.
  - apply is_Ok_Ok.
  - assert (∀ p, p ∈ paths → matches_rpm_expr p → is_Ok (st_mtime storage p))
      by (intros p ?; apply H; by apply list_elem_of_further).
    destruct (Re.re_match rpm_expr path) as [g|] eqn:E; [|by apply IH].
    destruct (H path) as [t ->]; [apply list_elem_of_here | | by apply IH].
    apply rpm_expr_match. by rewrite E.
Qed.

(** One turn of the last loop, with its effects spelled out. *)
Lemma add_file_run (file_to_add : string * number) (index : Index) (w : World) :
  runM (add1 file_to_add index) w =
    let d := fresh (dom (scratch w)) in
    let out := stdout w ++ ["Adding: '" +:+ file_to_add.1 +:+ "'"] in
    match st_download_file storage file_to_add.1 with
    | Raise e => (mkWorld (<[d := None]> (scratch w)) out, Raise e)
    | Ok content =>
        match parse_file content with
        | Raise e => (mkWorld (<[d := Some content]> (scratch w)) out, Raise e)
        | Ok header =>
            (mkWorld (scratch w) out,
             '(key, prim) ← h2p header (hexdigest content) file_to_add.2 file_to_add.1;
             '(_, flist) ← header_to_filelists header (hexdigest content);
             Ok (<[key := flist]> index.1, <[key := prim]> index.2))
        end
    end.
Proof.
  assert (Hfresh : scratch w !! fresh (dom (scratch w)) = None)
    by (apply not_elem_of_dom, is_fresh).
  unfold add_file. cbn -[header_to_primary header_to_filelists fresh].
  destruct (st_download_file storage file_to_add.1) as [content|e];
    cbn -[header_to_primary header_to_filelists fresh]; [|done].
  rewrite lookup_insert_eq. cbn -[header_to_primary header_to_filelists fresh].
  rewrite lookup_insert_eq, insert_insert_eq.
  destruct (parse_file content) as [header|e];
    cbn -[header_to_primary header_to_filelists fresh]; [|done].
  rewrite lookup_insert_eq. cbn -[header_to_primary header_to_filelists fresh].
  rewrite lookup_insert_eq, delete_insert_eq, delete_id by done.
  destruct (h2p header _ _ _) as [[key prim]|e];
    cbn -[header_to_primary header_to_filelists fresh]; [|done].
  destruct (header_to_filelists header _) as [[key' flist]|e];
    cbn -[header_to_primary header_to_filelists fresh]; done.
Qed.

Lemma add_file_Ok_inv (file_to_add : string * number) (index index' : Index)
    (w w' : World) :
  runM (add1 file_to_add index) w = (w', Ok index') →
  ∃ content header key prim flist,
    st_download_file storage file_to_add.1 = Ok content ∧
    parse_file content = Ok header ∧
    h2p header (hexdigest content) file_to_add.2 file_to_add.1 = Ok (key, prim) ∧
    header_to_filelists header (hexdigest content) = Ok (key, flist) ∧
    index' = (<[key := flist]> index.1, <[key := prim]> index.2) ∧
    scratch w' = scratch w.
Proof.
  rewrite add_file_run. cbn zeta.
  destruct (st_download_file storage file_to_add.1) as [content|e] eqn:Hd;
    [|by intros [= _ ?]].
  destruct (parse_file content) as [header|e] eqn:Hp; [|by intros [= _ ?]].
  intros [= <- H]. res_inv H. destruct a as [key prim]. res_inv H.
  destruct a as [key' flist]. injection H as <-.
  assert (key' = key) as ->.
  { apply header_to_primary_inv in Ha
      as (? & ? & ? & ? & ? & ? & ? & ? & ? & ? & ? & ? & ? & ? &
          ? & ? & ? & ? & ? & ? & ? & ? & ? & ? & ? & ? & ? & ? & -> & _).
    apply header_to_filelists_inv in Ha0
      as (? & ? & ? & ? & ? & ? & ? & ? & ? & ? & ? & ? & ? & ? & -> & _).
    repeat f_equal; congruence. }
  by exists content, header, key, prim, flist.
Qed.

Lemma add_files_cons (f : string * number) (todo : list (string * number))
    (index : Index) (w : World) :
  runM (add_files RPMSENSE_RPMLIB flags_to_str parse_file hexdigest storage
          (f :: todo) index) w =
    match runM (add1 f index) w with
    | (w1, Ok index1) =>
        runM (add_files RPMSENSE_RPMLIB flags_to_str parse_file hexdigest storage
                todo index1) w1
    | (w1, Raise e) => (w1, Raise e)
    end.
Proof. reflexivity. Qed.

Lemma add_files_scratch (todo : list (string * number)) (index index' : Index)
    (w w' : World) :
  runM (add_files RPMSENSE_RPMLIB flags_to_str parse_file hexdigest storage todo index) w
    = (w', Ok index') →
  scratch w' = scratch w.
Proof.
  revert index w. induction todo as [|f todo IH]; intros index w.
  - by intros [= <- _].
  - rewrite add_files_cons.
    destruct (runM (add1 f index) w) as [w1 [index1|e]] eqn:E; [|by intros [=]].
    intros H. apply IH in H. apply add_file_Ok_inv in E
      as (? & ? & ? & ? & ? & _ & _ & _ & _ & _ & Hs). congruence.
Qed.

(** C1, amended: [files_to_add] is the set of the pairs of [existing_files]
    that are not in [recorded_files]; a pair that is recorded is skipped and
    a recorded path with another time that is not recorded is added.  The
    archive of an added pair is downloaded and its header extracted, and
    the two records that the header mapper makes of that header are stored
    under the identity read from the header, its name, epoch, release and
    version: the entries under other identities stay as they are, an entry
    under the same identity is replaced. *)
Theorem reconcile_diff (primary : gmap nerv Primary) :
  (∀ paths,
     (∀ k package, primary !! k = Some package →
                   is_Ok (py_float (pri_file_time package))) →
     st_files storage "." = Ok paths →
     (∀ p, p ∈ paths → matches_rpm_expr p → is_Ok (st_mtime storage p)) →
     is_Ok (files_to_add py_float storage primary)) ∧
  (∀ todo,
     files_to_add py_float storage primary = Ok todo →
     ∃ recorded existing paths,
       recorded_files py_float primary = Ok recorded ∧
       st_files storage "." = Ok paths ∧
       existing_files storage = Ok existing ∧
       todo = existing ∖ recorded ∧
       (∀ p t, (p, t) ∈ recorded ↔
               ∃ k package, primary !! k = Some package ∧
                            pri_location package = p ∧
                            py_float (pri_file_time package) = Ok t) ∧
       (∀ p m, (p, m) ∈ existing ↔
               p ∈ paths ∧ matches_rpm_expr p ∧ st_mtime storage p = Ok m) ∧
       (∀ p m, (p, m) ∈ recorded → (p, m) ∉ todo) ∧
       (∀ p m m', (p, m') ∈ recorded → (p, m) ∈ existing → (p, m) ∉ recorded →
                  (p, m) ∈ todo)) ∧
  (∀ p m index index' w w',
     runM (add1 (p, m) index) w = (w', Ok index') →
     ∃ content header name version prim flist,
       st_download_file storage p = Ok content ∧
       parse_file content = Ok header ∧
       NAME header = Some name ∧ VERSION header = Some version ∧
       let key := (name, hget (EPOCH header), hget (RELEASE header), version) in
       h2p header (hexdigest content) m p = Ok (key, prim) ∧
       header_to_filelists header (hexdigest content) = Ok (key, flist) ∧
       index' = (<[key := flist]> index.1, <[key := prim]> index.2) ∧
       pri_identity prim = key ∧ fl_identity flist = key ∧
       pri_location prim = p ∧ pri_file_time prim = py_str (py_int m) ∧
       index'.2 !! key = Some prim ∧ index'.1 !! key = Some flist ∧
       (∀ k, k ≠ key → index'.2 !! k = index.2 !! k ∧ index'.1 !! k = index.1 !! k)).
Proof.
  split_and!.
  - intros paths Hf Hp Hm. unfold files_to_add, recorded_files, existing_files.
    destruct (recorded_loop_Ok (snd <$> map_to_list primary) ∅) as [r ->].
    { intros package [k Hk]%elem_of_values. by eapply Hf. }
    simpl. rewrite Hp. simpl.
    destruct (existing_loop_Ok paths ∅ Hm) as [x ->]. apply is_Ok_Ok.
  - intros todo H. unfold files_to_add in H. res_inv H. injection H as <-.
    rename a into recorded, a0 into existing.
    pose proof Ha0 as He. unfold existing_files in He. res_inv He.
    rename a into paths. exists recorded, existing, paths.
    split_and!; try done.
    + intros p t. unfold recorded_files in Ha.
      rewrite (recorded_loop_spec _ _ _ Ha). split.
      * intros [[]%not_elem_of_empty | (package & [k Hk]%elem_of_values & ? & ?)].
        by exists k, package.
      * intros (k & package & Hk & ? & ?). right. exists package.
        split; [apply elem_of_values; by exists k | done].
    + intros p m. rewrite (existing_loop_spec _ _ _ He). split.
      * by intros [[]%not_elem_of_empty | ?].
      * by right.
    + intros p m Hr [_ Hn]%elem_of_difference. done.
    + intros p m m' _ Hx Hn. by apply elem_of_difference.
  - intros p m index index' w w' H. apply add_file_Ok_inv in H
      as (content & header & key & prim & flist & Hd & Hpf & Hp & Hfl & -> & _).
    simpl in *. pose proof Hp as Hp'. pose proof Hfl as Hfl'.
    apply header_to_primary_inv in Hp'
      as (name & ? & ? & ? & ? & ? & version & ? & ? & ? & ? & ? & ? & ? &
          Hn & _ & _ & _ & _ & _ & Hv & _ & _ & _ & _ & _ & _ & _ & -> & ->).
    apply header_to_filelists_inv in Hfl'
      as (? & ? & ? & ? & ? & ? & ? & _ & _ & _ & _ & _ & _ & _ & [= <- <-] & ->).
    exists content, header, name, version. eexists _, _. cbn zeta.
    split_and!; [exact Hd | exact Hpf | exact Hn | exact Hv | exact Hp | exact Hfl
                | done | done | done | done | done | | | ].
    + apply lookup_insert_eq.
    + apply lookup_insert_eq.
    + intros k Hk. by rewrite !lookup_insert_ne.
Qed.

(** C6, amended: the scratch directory of an archive is removed when the
    download and the header extraction succeed, before the header is mapped
    and before the next archive; when one of the two raises, the error
    propagates and the directory is still there. *)
Theorem scratch_released (file_to_add : string * number) (index : Index) (w : World) :
  let d := fresh (dom (scratch w)) in
  ((d ∉ dom (scratch w)) ∧
  (∀ content header,
     st_download_file storage file_to_add.1 = Ok content →
     parse_file content = Ok header →
     scratch (runM (add1 file_to_add index) w).1 = scratch w) ∧
  (∀ e,
     st_download_file storage file_to_add.1 = Raise e →
     (runM (add1 file_to_add index) w).2 = Raise e ∧
     scratch (runM (add1 file_to_add index) w).1 = <[d := None]> (scratch w)) ∧
  (∀ content e,
     st_download_file storage file_to_add.1 = Ok content →
     parse_file content = Raise e →
     (runM (add1 file_to_add index) w).2 = Raise e ∧
     scratch (runM (add1 file_to_add index) w).1 = <[d := Some content]> (scratch w)) ∧
  (∀ todo index' w',
     runM (add_files RPMSENSE_RPMLIB flags_to_str parse_file hexdigest storage
             todo index) w = (w', Ok index') →
     scratch w' = scratch w)).
Proof.
  cbn zeta. split_and!.
  - apply is_fresh.
  - intros content header Hd Hp. by rewrite add_file_run, Hd, Hp.
  - intros e Hd. by rewrite add_file_run, Hd.
  - intros content e Hd Hp. by rewrite add_file_run, Hd, Hp.
  - intros todo index' w'. apply add_files_scratch.
Qed.

End EngineFacts.

(** ** The summary document *)

Lemma parse_repomd_loop_cons (child : Element) (cs : list Element)
    (fl pr : option Locator) :
  parse_repomd_loop (child :: cs) fl pr =
    if decide (typed child) then
      result ← repomd_result child;
      parse_repomd_loop cs
        (if decide (has_type "filelists" child) then Some result else fl)
        (if decide (has_type "filelists" child) then pr
         else if decide (has_type "primary" child) then Some result else pr)
    else parse_repomd_loop cs fl pr.
Proof.
  simpl.
  destruct (decide (typed child)) as [[ty Hty] | Hn];
    destruct (decide (has_type "filelists" child)) as [Hf | Hf];
    destruct (decide (has_type "primary" child)) as [Hp | Hp];
    unfold typed, has_type in *.
  all: destruct (attrib child !! "type") as [ty'|] eqn:E;
    try done; try (by destruct Hn).
  all: destruct (repomd_result child); simpl; [|done].
  all: repeat case_decide; simplify_eq; done.
Qed.

Lemma has_type_typed (ty : string) (child : Element) : has_type ty child → typed child.
Proof. unfold has_type, typed. intros ->. done. Qed.


Lemma has_type_inj (ty ty' : string) (child : Element) :
  has_type ty child → has_type ty' child → ty = ty'.
Proof. unfold has_type. congruence. Qed.

(** The loop succeeds exactly when [result] can be filled for every record
    that has a type. *)
Lemma parse_repomd_loop_Ok (cs : list Element) (fl pr : option Locator) :
  is_Ok (parse_repomd_loop cs fl pr) ↔
  ∀ child, child ∈ cs → typed child → is_Ok (repomd_result child).
Proof.
  revert fl pr. induction cs as [|child cs IH]; intros fl pr.
  - split; [by intros _ ? []%elem_of_nil | intros _; apply is_Ok_Ok].
  - rewrite parse_repomd_loop_cons. case_decide as Ht.
    + destruct (repomd_result child) as [r|e] eqn:E; simpl.
      * rewrite IH. split.
        -- intros H c [-> | ?]%elem_of_cons ?; [rewrite E; apply is_Ok_Ok | by apply H].
        -- intros H c ? ?. apply H; [by apply list_elem_of_further | done].
      * split; [by intros []%not_is_Ok_Raise|].
        intros H. destruct (H child (list_elem_of_here _ _) Ht) as [? ?]. congruence.
    + rewrite IH. split.
      * intros H c [-> | ?]%elem_of_cons ?; [done | by apply H].
      * intros H c ? ?. apply H; [by apply list_elem_of_further | done].
Qed.

Lemma parse_repomd_loop_pick (cs : list Element) (fl pr : option Locator)
    (r : option Locator * option Locator) :
  parse_repomd_loop cs fl pr = Ok r →
  r = (pick "filelists" cs fl, pick "primary" cs pr).
Proof.
  revert fl pr. induction cs as [|child cs IH]; intros fl pr.
  - by intros [= <-].
  - rewrite parse_repomd_loop_cons. simpl. case_decide as Ht.
    + intros H. res_inv H. rewrite Ha. apply IH in H as ->.
      repeat case_decide; try done.
      exfalso. by assert ("filelists" = "primary") by by eapply has_type_inj.
    + intros H. apply IH in H as ->.
      rewrite !decide_False; [done|..]; intros ?; apply Ht; by eapply has_type_typed.
Qed.

Lemma pick_none (ty : string) (cs : list Element) (init : option Locator) :
  (∀ child, child ∈ cs → ¬ has_type ty child) → pick ty cs init = init.
Proof.
  revert init. induction cs as [|child cs IH]; intros init H; simpl; [done|].
  rewrite decide_False by (apply H, list_elem_of_here).
  apply IH. intros c ?. apply H. by apply list_elem_of_further.
Qed.

Lemma pick_one (ty : string) (cs : list Element) (init : option Locator)
    (child : Element) (r : Locator) :
  filter (has_type ty) cs = [child] → repomd_result child = Ok r →
  pick ty cs init = Some r.
Proof.
  revert init. induction cs as [|c cs IH]; intros init; simpl; [done|].
  destruct (decide (has_type ty c)) as [Hc | Hc].
  - rewrite filter_cons_True by done. intros [= -> Hnil] ->.
    apply pick_none. intros c' Hin Hc'.
    assert (c' ∈ filter (has_type ty) cs) as Hf by by apply list_elem_of_filter.
    rewrite Hnil in Hf. by apply elem_of_nil in Hf.
  - rewrite filter_cons_False by done. apply IH.
Qed.





(** ** The recorded time *)

Section FileTime.

Context (RPMSENSE_RPMLIB : Z) (flags_to_str : Z -> option string)
        (py_float : string -> res number).

(** [float] gives the integer itself on the decimal digits of an integer
    that a binary64 float holds exactly. *)
Hypothesis py_float_int :
  ∀ z : Z, Z.abs z ≤ 2 ^ 53 → py_float (py_str z) = Ok (number_of_Z z).

(** C10, amended: the primary record of [header_to_primary] has in
    [file_time] the decimal digits of the time truncated to an integer, for
    every time.  For a time whose integer part is at most 2^53 in absolute
    value, the number that the diff reads back from it is that integer: it
    is the time exactly when the time is an integer, and for another time
    the recorded pair of location and time differs from the pair that the
    storage reports. *)
Theorem file_time_truncated (h : Header) (sha : string) (m : number)
    (loc : string) (key : nerv) (prim : Primary) :
  header_to_primary RPMSENSE_RPMLIB flags_to_str h sha m loc = Ok (key, prim) →
  pri_file_time prim = py_str (py_int m) ∧
  pri_location prim = loc ∧
  (Z.abs (py_int m) ≤ 2 ^ 53 →
   py_float (pri_file_time prim) = Ok (number_of_Z (py_int m)) ∧
   (py_float (pri_file_time prim) = Ok m ↔ integral m) ∧
   recorded_files py_float {[key := prim]} = Ok {[ (loc, number_of_Z (py_int m)) ]} ∧
   (¬ integral m →
    ∀ t, py_float (pri_file_time prim) = Ok t → (pri_location prim, t) ≠ (loc, m))).
Proof.
  intros H. apply header_to_primary_inv in H
    as (? & ? & ? & ? & ? & ? & ? & ? & ? & ? & ? & ? & ? & ? &
        _ & _ & _ & _ & _ & _ & _ & _ & _ & _ & _ & _ & _ & _ & _ & ->).
  simpl. split; [done|]. split; [done|]. intros Hm.
  rewrite (py_float_int _ Hm). split_and!; try done.
  - rewrite integral_py_int. split; congruence.
  - unfold recorded_files. rewrite map_to_list_singleton. simpl.
    rewrite (py_float_int _ Hm). simpl. f_equal. apply (right_id_L ∅ (∪)).
  - intros Hi t [= <-] [= Ht]. apply Hi. apply integral_py_int. done.
Qed.

End FileTime.

(** ** Further properties of the version texts and of the header mapper *)

Lemma succeeds_is_Ok {A} (r : res A) : succeeds r = true ↔ is_Ok r.
Proof.
  destruct r as [a|e]; simpl; split; try done.
  - intros _. by exists a.
  - by intros [a ?].
Qed.

Lemma is_Ok_bind {A B} (m : res A) (f : A → res B) :
  is_Ok (m ≫= f) ↔ ∃ a, m = Ok a ∧ is_Ok (f a).
Proof.
  split.
  - intros [b Hb]. apply bind_Ok in Hb as (a & ? & ?). exists a. split; [done|by exists b].
  - intros (a & -> & Hf). done.
Qed.

Lemma parse_ver_str_Ok_iff (v : string) :
  is_Ok (parse_ver_str (Some v)) ↔ v = "" ∨ matches_ver_expr v.
Proof.
  destruct (decide (v = "")) as [-> | Hne].
  - split; [by left | intros _; by eexists].
  - rewrite parse_ver_str_nonempty by done. rewrite matches_ver_expr_match.
    destruct (Re.re_match ver_expr v) as [m|]; split.
    + intros _. right. by eexists.
    + intros _. by eexists.
    + by intros [? ?].
    + intros [? | [? ?]]; done.
Qed.

Lemma str_count_app (c : ascii) (a b : string) :
  str_count c (a +:+ b) = (str_count c a + str_count c b)%nat.
Proof. induction a as [|x a IH]; simpl; [done|]. rewrite IH. lia. Qed.

Lemma dashfree_count (s : string) : dashfree s ↔ str_count "-" s = 0%nat.
Proof.
  unfold dashfree. induction s as [|a s IH]; simpl; [done|].
  unfold not_dash at 1. destruct (Ascii.eqb a "-"); simpl; [split; [done|lia]|].
  apply IH.
Qed.

Lemma digits_count (d : string) : digits d → str_count "-" (d +:+ ":") = 0%nat.
Proof. intros [_ Hd]. apply dashfree_count. by apply digits_dashfree. Qed.

Lemma matches_ver_expr_count (s : string) :
  matches_ver_expr s ↔ str_count "-" s = 1%nat.
Proof.
  split.
  - intros (pre & v & r & e & -> & Hpre & Hv%dashfree_count & Hr%dashfree_count & He).
    rewrite !str_count_app. rewrite Hv, Hr.
    assert (str_count "-" pre = 0%nat) as ->.
    { destruct Hpre as [-> | (d & Hd & ->)]; [done | by apply digits_count]. }
    by destruct He as [-> | ->].
  - intros Hc. exists "", (take_while not_dash s).
    destruct (drop_while not_dash s) as [|c r] eqn:Ed.
    + exfalso. pose proof (take_drop_while not_dash s) as Hs. rewrite Ed, app_empty_r in Hs.
      pose proof (take_while_forall not_dash s) as Hf. rewrite Hs in Hf.
      apply dashfree_count in Hf. lia.
    + apply drop_while_head in Ed as Hd. apply not_dash_false in Hd as ->.
      exists r, "". pose proof (take_drop_while not_dash s) as Hs. rewrite Ed in Hs.
      pose proof (take_while_forall not_dash s) as Hf.
      split_and!; try done.
      * by rewrite app_empty_r.
      * by left.
      * apply dashfree_count. rewrite <- Hs in Hc. rewrite str_count_app in Hc.
        apply dashfree_count in Hf. simpl in Hc. lia.
      * by left.
Qed.

(** X1: [parse_ver_str] accepts a non-empty version text exactly when it
    contains exactly one dash, wherever the dash is; every other non-empty
    text raises the error that names the text. *)
Theorem parse_ver_str_one_dash (s : string) :
  s ≠ "" →
  (is_Ok (parse_ver_str (Some s)) ↔ str_count "-" s = 1%nat) ∧
  (str_count "-" s ≠ 1%nat → parse_ver_str (Some s) = Raise (cant_parse s)).
Proof.
  intros Hs. rewrite parse_ver_str_Ok_iff, matches_ver_expr_count. split.
  - split; [intros [? | ?]; done | by right].
  - intros Hc. rewrite parse_ver_str_nonempty by done.
    destruct (Re.re_match ver_expr s) as [m|] eqn:E; [|done].
    destruct Hc. apply matches_ver_expr_count, matches_ver_expr_match. by eexists.
Qed.

Lemma digits_zero : digits "0".
Proof. split; done. Qed.

(** X2: a version text without an epoch prefix parses to the epoch "0",
    and so to the same triple as the text with [0:] written in front of
    it: the two cannot be told apart afterwards. *)
Theorem parse_ver_str_zero_epoch (v r : string) :
  dashfree v → dashfree r → ¬ has_epoch_prefix (v +:+ "-" +:+ r) →
  parse_ver_str (Some ("0:" +:+ v +:+ "-" +:+ r))
    = parse_ver_str (Some (v +:+ "-" +:+ r)) ∧
  parse_ver_str (Some (v +:+ "-" +:+ r)) = Ok (Some "0", Some v, Some r).
Proof.
  intros Hv Hr Hno. rewrite parse_ver_str_plain by done. split; [|done].
  apply (parse_ver_str_epoch "0" v r); [apply digits_zero | done | done].
Qed.

Lemma valid_index_dec {A} (l : list A) (i : Z) : valid_index l i ∨ ¬ valid_index l i.
Proof. unfold valid_index. lia. Qed.

Lemma manifest_Ok_iff (dirnames basenames : list string) (dirindexes : list Z) :
  is_Ok (manifest dirnames basenames dirindexes) ↔
  ∀ j i, (j < length basenames)%nat → dirindexes !! j = Some i → valid_index dirnames i.
Proof.
  split; [|apply manifest_Ok].
  intros [files Hm] j i Hj Hi.
  destruct (valid_index_dec dirnames i) as [|Hbad]; [done|].
  by rewrite (manifest_invalid _ _ _ j i Hj Hi Hbad) in Hm.
Qed.

Lemma py_index_Ok {A} (l : list A) (i : Z) (x : A) :
  py_index l i = Ok x ↔ valid_index l i ∧ l !! py_position (length l) i = Some x.
Proof.
  split.
  - intros H. destruct (valid_index_dec l i) as [Hv|Hbad];
      [|by rewrite py_index_invalid in H].
    split; [done|]. unfold py_index, py_position in *.
    destruct (_ && _); [|done]. destruct (l !! _); by simplify_eq.
  - intros [Hv Hx]. destruct (py_index_valid l i Hv) as [y Hy].
    rewrite Hy. f_equal. unfold py_index, py_position in *.
    destruct (_ && _); [|done]. rewrite Hx in Hy. by simplify_eq.
Qed.

Lemma file_entries_lookup (dirnames : list string) (entries : list (string * Z))
    (files : list FileEntry) :
  file_entries dirnames entries = Ok files →
  length files = length entries ∧
  ∀ j b i, entries !! j = Some (b, i) →
    ∃ d, py_index dirnames i = Ok d ∧ files !! j = Some (mkFile (Some (d +:+ b)) file).
Proof.
  revert files. induction entries as [|[b0 i0] entries IH]; intros files; simpl.
  - intros [= <-]. split; [done|]. intros j b i Hj. by rewrite lookup_nil in Hj.
  - intros H. res_inv H. injection H as <-.
    destruct (IH _ Ha0) as [Hlen Hlk]. split; [simpl; by rewrite Hlen|].
    intros [|j] b i Hj; simpl in *.
    + injection Hj as -> ->. by exists a.
    + by apply Hlk.
Qed.

Ltac in_list := repeat first [apply list_elem_of_here | apply list_elem_of_further].

(** X3: [header_to_filelists] returns exactly when the header has the
    keys NAME, ARCH, VERSION, DIRNAMES, BASENAMES and DIRINDEXES and every
    directory index paired with a base name is a valid index of the
    directory names; otherwise it raises a KeyError of one of these keys or
    an IndexError.  EPOCH and RELEASE are not needed. *)
Theorem header_to_filelists_succeeds_iff (h : Header) (sha : string) :
  (is_Ok (header_to_filelists h sha) ↔
   is_Some (NAME h) ∧ is_Some (ARCH h) ∧ is_Some (VERSION h) ∧
   ∃ dirnames basenames dirindexes,
     DIRNAMES h = Some dirnames ∧ BASENAMES h = Some basenames ∧
     DIRINDEXES h = Some dirindexes ∧
     ∀ j i, (j < length basenames)%nat → dirindexes !! j = Some i →
            valid_index dirnames i) ∧
  (∀ e, header_to_filelists h sha = Raise e →
     e = IndexError ∨
     ∃ k, e = KeyError k ∧
          k ∈ ["NAME"; "ARCH"; "VERSION"; "DIRNAMES"; "BASENAMES"; "DIRINDEXES"]).
Proof.
  split.
  - split.
    + intros [[key fl] H]. apply header_to_filelists_inv in H
        as (? & ? & ? & dn & bn & di & files & ? & ? & ? & ? & ? & ? & Hm & _).
      split_and!; try by eexists.
      exists dn, bn, di. split_and!; try done. apply manifest_Ok_iff. by eexists.
    + intros ([? ?] & [? ?] & [? ?] & dn & bn & di & ? & ? & ? & Hv).
      apply manifest_Ok_iff in Hv as [files Hm].
      erewrite header_to_filelists_Ok; [by eexists | done..].
  - intros e. unfold header_to_filelists.
    destruct (NAME h); simpl; [|intros [= <-]; right; eexists; split; [done|in_list]].
    destruct (ARCH h); simpl; [|intros [= <-]; right; eexists; split; [done|in_list]].
    destruct (VERSION h); simpl; [|intros [= <-]; right; eexists; split; [done|in_list]].
    destruct (DIRNAMES h); simpl; [|intros [= <-]; right; eexists; split; [done|in_list]].
    destruct (BASENAMES h); simpl; [|intros [= <-]; right; eexists; split; [done|in_list]].
    destruct (DIRINDEXES h); simpl; [|intros [= <-]; right; eexists; split; [done|in_list]].
    unfold manifest. destruct (file_entries _ _) eqn:E; simpl; [done|].
    intros [= <-]. left. by eapply file_entries_Raise.
Qed.

Lemma manifest_inv (dirnames basenames : list string) (dirindexes : list Z)
    (files : list FileEntry) :
  manifest dirnames basenames dirindexes = Ok files →
  ∃ file_part,
    files = file_part ++ dir_entries dirnames ∧
    length file_part = (length basenames `min` length dirindexes)%nat ∧
    (∀ entry, entry ∈ file_part → file_type entry = file) ∧
    (∀ j b i, basenames !! j = Some b → dirindexes !! j = Some i →
       valid_index dirnames i ∧
       ∃ d, dirnames !! py_position (length dirnames) i = Some d ∧
            files !! j = Some (mkFile (Some (d +:+ b)) file)) ∧
    (∀ j d, dirnames !! j = Some d →
       files !! (length file_part + j)%nat = Some (mkFile (Some d) dir)).
Proof.
  unfold manifest. intros H. res_inv H. injection H as <-. rename a into fp.
  destruct (file_entries_lookup _ _ _ Ha) as [Hlen Hlk].
  exists fp. split_and!.
  - done.
  - by rewrite Hlen, length_zip_with.
  - intros entry [j Hj]%list_elem_of_lookup.
    assert (j < length (zip basenames dirindexes))%nat as Hlt
      by (rewrite <- Hlen; by eapply lookup_lt_Some).
    destruct (lookup_lt_is_Some_2 _ _ Hlt) as [[b i] Hbi].
    destruct (Hlk j b i Hbi) as (d & _ & Hf). rewrite Hj in Hf. by injection Hf as ->.
  - intros j b i Hb Hi.
    assert (zip basenames dirindexes !! j = Some (b, i)) as Hbi
      by (rewrite lookup_zip_with, Hb; simpl; by rewrite Hi).
    destruct (Hlk j b i Hbi) as (d & [Hv Hd]%py_index_Ok & Hf).
    split; [done|]. exists d. split; [done|]. by apply lookup_app_l_Some.
  - intros j d Hj. rewrite lookup_app_r by lia.
    replace (length fp + j - length fp)%nat with j by lia.
    unfold dir_entries. by rewrite list_lookup_fmap, Hj.
Qed.

(** X7: the manifest of a header-derived record has one file entry for
    each pair that [zip] makes of the base names and the directory
    indexes, in their order, then one directory entry for each directory
    name, in their order.  The name of the file entry of a pair is the
    directory name at its index, counted from the end when the index is
    negative, followed by the base name. *)
Theorem manifest_shape (h : Header) (sha : string) (key : nerv) (fl : Filelists)
    (dirnames basenames : list string) (dirindexes : list Z) :
  header_to_filelists h sha = Ok (key, fl) →
  DIRNAMES h = Some dirnames → BASENAMES h = Some basenames →
  DIRINDEXES h = Some dirindexes →
  ∃ file_part,
    fl_files fl = file_part ++ dir_entries dirnames ∧
    length file_part = (length basenames `min` length dirindexes)%nat ∧
    (∀ entry, entry ∈ file_part → file_type entry = file) ∧
    (∀ j b i, basenames !! j = Some b → dirindexes !! j = Some i →
       valid_index dirnames i ∧
       ∃ d, dirnames !! py_position (length dirnames) i = Some d ∧
            fl_files fl !! j = Some (mkFile (Some (d +:+ b)) file)) ∧
    (∀ j d, dirnames !! j = Some d →
       fl_files fl !! (length file_part + j)%nat = Some (mkFile (Some d) dir)).
Proof.
  intros H Hd Hb Hi. apply header_to_filelists_inv in H
    as (? & ? & ? & dn & bn & di & files & _ & _ & _ & Hd' & Hb' & Hi' & Hm & _ & ->).
  simpl. rewrite Hd in Hd'. rewrite Hb in Hb'. rewrite Hi in Hi'.
  injection Hd' as <-. injection Hb' as <-. injection Hi' as <-.
  by apply manifest_inv.
Qed.

Section MapperShape.
Context (RPMSENSE_RPMLIB : Z) (flags_to_str : Z -> option string).
Local Abbreviation h2p := (header_to_primary RPMSENSE_RPMLIB flags_to_str).
Local Abbreviation rloop := (requires_loop RPMSENSE_RPMLIB flags_to_str).
Local Abbreviation dloop := (deps_loop flags_to_str).
Local Abbreviation drec := (dep_record flags_to_str).

Lemma deps_loop_cons name version flags entries d :
  dloop ((name, version, flags) :: entries) d =
    evr ← parse_ver_str (Some version);
    dloop entries (<[(drec name evr flags).1 := (drec name evr flags).2]> d).
Proof.
  simpl. by destruct (parse_ver_str (Some version)) as [[[e v] r]|].
Qed.

Lemma deps_loop_Ok_iff entries d :
  is_Ok (dloop entries d) ↔
  ∀ name version flags, (name, version, flags) ∈ entries →
    is_Ok (parse_ver_str (Some version)).
Proof.
  revert d. induction entries as [|[[n v] f] entries IH]; intros d.
  - split; [by intros _ ? ? ? []%elem_of_nil | by eexists].
  - rewrite deps_loop_cons, is_Ok_bind. split.
    + intros (evr & Hp & Hl) name version flags [[= -> -> ->] | Hin]%elem_of_cons.
      * by eexists.
      * by eapply IH.
    + intros H. destruct (H n v f) as [evr Hp]; [apply list_elem_of_here|].
      exists evr. split; [done|]. apply IH. intros ? ? ? ?. eapply H.
      by apply list_elem_of_further.
Qed.

Lemma requires_loop_Ok_iff entries d :
  is_Ok (rloop entries d) ↔
  ∀ name version flags, (name, version, flags) ∈ entries →
    is_Ok (parse_ver_str (Some version)).
Proof.
  revert d. induction entries as [|[[n v] f] entries IH]; intros d.
  - split; [by intros _ ? ? ? []%elem_of_nil | by eexists].
  - rewrite requires_loop_cons, is_Ok_bind. split.
    + intros (evr & Hp & Hl) name version flags [[= -> -> ->] | Hin]%elem_of_cons.
      * by eexists.
      * case_decide; by eapply IH.
    + intros H. destruct (H n v f) as [evr Hp]; [apply list_elem_of_here|].
      exists evr. split; [done|].
      assert (∀ name version flags, (name, version, flags) ∈ entries →
                is_Ok (parse_ver_str (Some version))) as H'
        by (intros ? ? ? ?; eapply H; by apply list_elem_of_further).
      case_decide; by apply IH.
Qed.

(** Keys that no entry has keep their value. *)
Lemma deps_loop_other entries d m k :
  dloop entries d = Ok m →
  (∀ name version flags evr, (name, version, flags) ∈ entries →
     parse_ver_str (Some version) = Ok evr → (drec name evr flags).1 ≠ k) →
  m !! k = d !! k.
Proof.
  revert d. induction entries as [|[[n v] f] entries IH]; intros d.
  - by intros [= <-].
  - rewrite deps_loop_cons. intros H Hk. res_inv H.
    rewrite (IH _ H).
    + apply lookup_insert_ne. eapply Hk; [apply list_elem_of_here | done].
    + intros ? ? ? ? ? ?. eapply Hk; [by apply list_elem_of_further | done].
Qed.

Lemma deps_loop_lookup entries d m k rec :
  dloop entries d = Ok m → m !! k = Some rec →
  d !! k = Some rec ∨
  ∃ name version flags evr,
    (name, version, flags) ∈ entries ∧
    parse_ver_str (Some version) = Ok evr ∧ drec name evr flags = (k, rec).
Proof.
  revert d. induction entries as [|[[name version] flags] entries IH]; intros d.
  - simpl. intros [= <-] Hk. by left.
  - rewrite deps_loop_cons. intros H Hk. res_inv H.
    destruct (IH _ H Hk) as [Hd | (n & v & f & evr & Hin & ?)].
    + destruct (decide ((drec name a flags).1 = k)) as [<- | Hne].
      * rewrite lookup_insert_eq in Hd. injection Hd as <-.
        right. exists name, version, flags, a.
        split_and!; [apply list_elem_of_here | done |].
        by destruct (drec name a flags).
      * rewrite lookup_insert_ne in Hd by done. by left.
    + right. exists n, v, f, evr. split; [by apply list_elem_of_further | done].
Qed.

Lemma deps_loop_last entries1 name version flags entries2 d m evr :
  dloop (entries1 ++ (name, version, flags) :: entries2) d = Ok m →
  parse_ver_str (Some version) = Ok evr →
  (∀ name' version' flags' evr', (name', version', flags') ∈ entries2 →
     parse_ver_str (Some version') = Ok evr' →
     (drec name' evr' flags').1 ≠ (drec name evr flags).1) →
  m !! (drec name evr flags).1 = Some (drec name evr flags).2.
Proof.
  revert d. induction entries1 as [|[[n v] f] entries1 IH]; intros d; simpl app.
  - rewrite deps_loop_cons. intros H Hp Hl. rewrite Hp in H. simpl in H.
    rewrite (deps_loop_other _ _ _ _ H Hl). apply lookup_insert_eq.
  - rewrite deps_loop_cons. intros H Hp Hl. res_inv H. by eapply IH.
Qed.

Lemma deps_loop_size entries d m :
  dloop entries d = Ok m → (size m ≤ size d + length entries)%nat.
Proof.
  revert d. induction entries as [|[[n v] f] entries IH]; intros d.
  - intros [= <-]. simpl. lia.
  - rewrite deps_loop_cons. intros H. res_inv H. apply IH in H. simpl.
    pose proof (map_size_insert (drec n a f).1 (drec n a f).2 d) as Hs.
    destruct (d !! (drec n a f).1); unfold id in Hs; lia.
Qed.

(** X6: the provides and the obsoletes mappings of a header-derived
    primary record.  Every record of a mapping is the record of an entry of
    its tables; of the entries with one key the last one is the one stored;
    so a mapping has at most as many records as the tables have entries. *)
Theorem provides_last_wins (h : Header) (sha : string) (mtime : number)
    (loc : string) (key : nerv) (prim : Primary) :
  h2p h sha mtime loc = Ok (key, prim) →
  (∀ k rec, fmt_provides (pri_format prim) !! k = Some rec →
     ∃ name version flags evr,
       (name, version, flags) ∈ provides_entries h ∧
       parse_ver_str (Some version) = Ok evr ∧ drec name evr flags = (k, rec)) ∧
  (∀ entries1 name version flags entries2 evr,
     provides_entries h = entries1 ++ (name, version, flags) :: entries2 →
     parse_ver_str (Some version) = Ok evr →
     (∀ name' version' flags' evr', (name', version', flags') ∈ entries2 →
        parse_ver_str (Some version') = Ok evr' →
        (drec name' evr' flags').1 ≠ (drec name evr flags).1) →
     fmt_provides (pri_format prim) !! (drec name evr flags).1
       = Some (drec name evr flags).2) ∧
  (size (fmt_provides (pri_format prim)) ≤ length (provides_entries h))%nat ∧
  (∀ k rec, fmt_obsoletes (pri_format prim) !! k = Some rec →
     ∃ name version flags evr,
       (name, version, flags) ∈ obsoletes_entries h ∧
       parse_ver_str (Some version) = Ok evr ∧ drec name evr flags = (k, rec)) ∧
  (∀ entries1 name version flags entries2 evr,
     obsoletes_entries h = entries1 ++ (name, version, flags) :: entries2 →
     parse_ver_str (Some version) = Ok evr →
     (∀ name' version' flags' evr', (name', version', flags') ∈ entries2 →
        parse_ver_str (Some version') = Ok evr' →
        (drec name' evr' flags').1 ≠ (drec name evr flags).1) →
     fmt_obsoletes (pri_format prim) !! (drec name evr flags).1
       = Some (drec name evr flags).2) ∧
  (size (fmt_obsoletes (pri_format prim)) ≤ length (obsoletes_entries h))%nat.
Proof.
  intros H. apply header_to_primary_inv in H
    as (? & ? & ? & ? & ? & ? & ? & provides & ? & obsoletes & ? & ? & ? & ? &
        _ & _ & _ & _ & _ & _ & _ & Hpro & _ & Hobs & _ & _ & _ & _ & _ & ->).
  simpl. split_and!.
  - intros k rec Hk. destruct (deps_loop_lookup _ _ _ _ _ Hpro Hk) as [Hd|?]; [|done].
    by rewrite lookup_empty in Hd.
  - intros e1 n v f e2 evr He Hp Hl. rewrite He in Hpro. by eapply deps_loop_last.
  - apply deps_loop_size in Hpro. by rewrite map_size_empty in Hpro.
  - intros k rec Hk. destruct (deps_loop_lookup _ _ _ _ _ Hobs Hk) as [Hd|?]; [|done].
    by rewrite lookup_empty in Hd.
  - intros e1 n v f e2 evr He Hp Hl. rewrite He in Hobs. by eapply deps_loop_last.
  - apply deps_loop_size in Hobs. by rewrite map_size_empty in Hobs.
Qed.

(** X4: [header_to_primary] returns exactly when [header_to_filelists]
    does, the header also has SUMMARY, DESCRIPTION, BUILDTIME and URL, and
    the version text of every entry of the provides, requires and obsoletes
    tables is empty or has exactly one dash.  The entries of the package
    manager itself count: their version is parsed before they are dropped. *)
Theorem header_to_primary_succeeds_iff (h : Header) (sha : string)
    (mtime : number) (loc : string) :
  is_Ok (h2p h sha mtime loc) ↔
  is_Ok (header_to_filelists h sha) ∧
  is_Some (SUMMARY h) ∧ is_Some (DESCRIPTION h) ∧ is_Some (BUILDTIME h) ∧
  is_Some (URL h) ∧
  ∀ name version flags,
    (name, version, flags) ∈
      provides_entries h ++ requires_entries h ++ obsoletes_entries h →
    version = "" ∨ str_count "-" version = 1%nat.
Proof.
  split.
  - intros [[key prim] H]. apply header_to_primary_inv in H
      as (? & ? & ? & ? & ? & ? & ? & ? & ? & ? & dn & bn & di & files &
          ? & ? & ? & ? & ? & ? & ? & Hpro & Hreq & Hobs & ? & ? & ? & Hm & _).
    split_and!; try by eexists.
    + erewrite header_to_filelists_Ok; [by eexists | done..].
    + intros n v f [Hin | [Hin | Hin]%elem_of_app]%elem_of_app;
        rewrite <- matches_ver_expr_count; apply parse_ver_str_Ok_iff.
      * eapply (deps_loop_Ok_iff (provides_entries h) ∅); [by eexists | done].
      * eapply (requires_loop_Ok_iff (requires_entries h) ∅); [by eexists | done].
      * eapply (deps_loop_Ok_iff (obsoletes_entries h) ∅); [by eexists | done].
  - intros ([[key fl] Hfl] & [? ?] & [? ?] & [? ?] & [? ?] & Hv).
    apply header_to_filelists_inv in Hfl
      as (? & ? & ? & dn & bn & di & files & ? & ? & ? & ? & ? & ? & Hm & _).
    assert (∀ n v f,
      (n, v, f) ∈ provides_entries h ++ requires_entries h ++ obsoletes_entries h →
      is_Ok (parse_ver_str (Some v))) as Hv'.
    { intros n v f Hin. apply parse_ver_str_Ok_iff.
      rewrite matches_ver_expr_count. by eapply Hv. }
    destruct (proj2 (deps_loop_Ok_iff (provides_entries h) ∅)) as [pro Hpro].
    { intros n v f Hin. apply (Hv' n v f), elem_of_app. by left. }
    destruct (proj2 (requires_loop_Ok_iff (requires_entries h) ∅)) as [req Hreq].
    { intros n v f Hin. apply (Hv' n v f), elem_of_app. right.
      apply elem_of_app. by left. }
    destruct (proj2 (deps_loop_Ok_iff (obsoletes_entries h) ∅)) as [obs Hobs].
    { intros n v f Hin. apply (Hv' n v f), elem_of_app. right.
      apply elem_of_app. by right. }
    erewrite header_to_primary_Ok; [by eexists | done..].
Qed.

(** X5: when [header_to_primary] returns for a header and a digest, so
    does [header_to_filelists], with the same identity; the two records
    carry that identity in their own fields and agree on the digest, the
    architecture, the version and the manifest. *)
Theorem mapper_records_agree (h : Header) (sha : string) (mtime : number)
    (loc : string) (key : nerv) (prim : Primary) :
  h2p h sha mtime loc = Ok (key, prim) →
  ∃ fl,
    header_to_filelists h sha = Ok (key, fl) ∧
    pri_identity prim = key ∧ fl_identity fl = key ∧
    pri_checksum prim = PyStr sha ∧ fl_pkgid fl = PyStr sha ∧
    pri_arch prim = fl_arch fl ∧ pri_version prim = fl_version fl ∧
    fmt_files (pri_format prim) = fl_files fl ∧
    pri_location prim = loc.
Proof.
  intros H. apply header_to_primary_inv in H
    as (? & ? & ? & ? & ? & ? & ? & ? & ? & ? & dn & bn & di & files &
        ? & ? & ? & ? & ? & ? & ? & _ & _ & _ & ? & ? & ? & Hm & -> & ->).
  eexists. split; [by eapply header_to_filelists_Ok|]. done.
Qed.

End MapperShape.

(** ** Further properties of the document parsers *)

Lemma bind_Raise {A B} (m : res A) (f : A → res B) (e : exn) :
  m ≫= f = Raise e ↔ m = Raise e ∨ ∃ a, m = Ok a ∧ f a = Raise e.
Proof.
  destruct m as [a|e']; simpl; split.
  - intros H. right. by exists a.
  - by intros [? | (a' & [= <-] & H)].
  - intros [= <-]. by left.
  - by intros [[= <-] | (a' & ? & _)].
Qed.

Ltac raise_inv H :=
  lazymatch type of H with
  | _ ≫= _ = Raise _ =>
      let a := fresh "a" in
      apply bind_Raise in H as [H | (a & _ & H)]; [|raise_inv H]
  | _ => idtac
  end.

Lemma text_of_Raise (x : option Element) (e : exn) :
  text_of x = Raise e → e = AttributeError.
Proof. destruct x; simpl; congruence. Qed.

Lemma attrib_of_Raise (x : option Element) (e : exn) :
  attrib_of x = Raise e → e = AttributeError.
Proof. destruct x; simpl; congruence. Qed.

(** ** The package loops of the two document parsers *)

Section PackageLoop.

Context {V : Type} (mk : Element → res (nerv * V))
        (loop : list Element → gmap nerv V → res (gmap nerv V)).

Hypothesis loop_nil : ∀ d, loop [] d = Ok d.
Hypothesis loop_cons : ∀ child cs d,
  loop (child :: cs) d =
    if is_package child then kp ← mk child; loop cs (<[kp.1 := kp.2]> d)
    else loop cs d.

Lemma package_loop_Ok_iff (cs : list Element) (d : gmap nerv V) :
  is_Ok (loop cs d) ↔
  ∀ child, child ∈ cs → is_package child → is_Ok (mk child).
Proof.
  revert d. induction cs as [|child cs IH]; intros d.
  - rewrite loop_nil. split; [by intros _ ? []%elem_of_nil | by eexists].
  - rewrite loop_cons. destruct (is_package child) eqn:Hp.
    + rewrite is_Ok_bind. split.
      * intros (kp & Hk & Hl) c [-> | Hin]%elem_of_cons Hc; [by eexists|].
        by eapply IH.
      * intros H. destruct (H child) as [kp Hk];
          [apply list_elem_of_here | by rewrite Hp |].
        exists kp. split; [done|]. apply IH. intros c ? ?. apply H; [|done].
        by apply list_elem_of_further.
    + rewrite IH. split.
      * intros H c [-> | Hin]%elem_of_cons Hc; [by rewrite Hp in Hc | by apply H].
      * intros H c ? ?. apply H; [by apply list_elem_of_further | done].
Qed.

Lemma package_loop_Raise (cs : list Element) (d : gmap nerv V) (e : exn) :
  loop cs d = Raise e →
  ∃ child, child ∈ cs ∧ is_package child ∧ mk child = Raise e.
Proof.
  revert d. induction cs as [|child cs IH]; intros d.
  - by rewrite loop_nil.
  - rewrite loop_cons. destruct (is_package child) eqn:Hp.
    + intros [H | (kp & _ & H)]%bind_Raise.
      * exists child. split_and!; [apply list_elem_of_here | by rewrite Hp | done].
      * destruct (IH _ H) as (c & ? & ? & ?). exists c.
        split; [by apply list_elem_of_further | done].
    + intros H. destruct (IH _ H) as (c & ? & ? & ?). exists c.
      split; [by apply list_elem_of_further | done].
Qed.

Lemma package_loop_lookup (cs : list Element) (d m : gmap nerv V) (k : nerv) (p : V) :
  loop cs d = Ok m → m !! k = Some p →
  d !! k = Some p ∨
  ∃ child, child ∈ cs ∧ is_package child ∧ mk child = Ok (k, p).
Proof.
  revert d. induction cs as [|child cs IH]; intros d.
  - rewrite loop_nil. intros [= <-] ?. by left.
  - rewrite loop_cons. destruct (is_package child) eqn:Hp.
    + intros H Hk. res_inv H. destruct a as [k' p']. simpl in H.
      destruct (IH _ H Hk) as [Hd | (c & ? & ? & ?)].
      * destruct (decide (k' = k)) as [-> | Hne].
        -- rewrite lookup_insert_eq in Hd. injection Hd as ->. right.
           exists child. split_and!; [apply list_elem_of_here | by rewrite Hp | done].
        -- rewrite lookup_insert_ne in Hd by done. by left.
      * right. exists c. split; [by apply list_elem_of_further | done].
    + intros H Hk. destruct (IH _ H Hk) as [Hd | (c & ? & ? & ?)]; [by left|].
      right. exists c. split; [by apply list_elem_of_further | done].
Qed.

Lemma package_loop_other (cs : list Element) (d m : gmap nerv V) (k : nerv) :
  loop cs d = Ok m →
  (∀ c p, c ∈ cs → is_package c → mk c ≠ Ok (k, p)) →
  m !! k = d !! k.
Proof.
  revert d. induction cs as [|child cs IH]; intros d.
  - rewrite loop_nil. by intros [= <-].
  - rewrite loop_cons. destruct (is_package child) eqn:Hp.
    + intros H Hk. res_inv H. destruct a as [k' p']. simpl in H.
      rewrite (IH _ H).
      * apply lookup_insert_ne. intros ->.
        eapply (Hk child p'); [apply list_elem_of_here | by rewrite Hp | done].
      * intros c p ? ?. apply Hk; [by apply list_elem_of_further | done].
    + intros H Hk. apply (IH _ H).
      intros c p ? ?. apply Hk; [by apply list_elem_of_further | done].
Qed.

Lemma package_loop_last (cs1 cs2 : list Element) (child : Element)
    (d m : gmap nerv V) (k : nerv) (p : V) :
  loop (cs1 ++ child :: cs2) d = Ok m →
  is_package child → mk child = Ok (k, p) →
  (∀ c p', c ∈ cs2 → is_package c → mk c ≠ Ok (k, p')) →
  m !! k = Some p.
Proof.
  revert d. induction cs1 as [|c1 cs1 IH]; intros d; simpl app.
  - rewrite loop_cons. intros H Hp Hk Hl.
    destruct (is_package child); [|done]. rewrite Hk in H. simpl in H.
    rewrite (package_loop_other _ _ _ _ H Hl). apply lookup_insert_eq.
  - rewrite loop_cons. intros H Hp Hk Hl. destruct (is_package c1).
    + res_inv H. by eapply IH.
    + by eapply IH.
Qed.

Lemma package_loop_filter (cs : list Element) (d : gmap nerv V) :
  loop (filter (λ c, is_package c) cs) d = loop cs d.
Proof.
  revert d. induction cs as [|child cs IH]; intros d; [done|].
  rewrite (loop_cons child cs). destruct (is_package child) eqn:Hp.
  - rewrite filter_cons_True by (by apply Is_true_true). rewrite loop_cons, Hp.
    destruct (mk child); simpl; [apply IH | done].
  - rewrite filter_cons_False by (by apply Is_true_false). apply IH.
Qed.

End PackageLoop.

Lemma parse_filelists_loop_cons child cs d :
  parse_filelists_loop (child :: cs) d =
    if is_package child then
      kp ← filelists_package child; parse_filelists_loop cs (<[kp.1 := kp.2]> d)
    else parse_filelists_loop cs d.
Proof.
  simpl. destruct (is_package child); [|done].
  by destruct (filelists_package child) as [[k p]|].
Qed.

Lemma parse_primary_loop_cons child cs d :
  parse_primary_loop (child :: cs) d =
    if is_package child then
      kp ← primary_package child; parse_primary_loop cs (<[kp.1 := kp.2]> d)
    else parse_primary_loop cs d.
Proof.
  simpl. destruct (is_package child); [|done].
  by destruct (primary_package child) as [[k p]|].
Qed.

Lemma filelists_package_identity child key p :
  filelists_package child = Ok (key, p) → fl_identity p = key.
Proof.
  unfold filelists_package. intros H. res_inv H. by injection H as <- <-.
Qed.

Lemma primary_package_inv child key p :
  primary_package child = Ok (key, p) →
  ∃ fmt provides requires obsoletes,
    find child (qname ns_common "format") = Some fmt ∧
    dict_of_nodes dep_of_node (block_entries fmt (qname ns_rpm "provides")) ∅
      = Ok provides ∧
    dict_of_nodes req_of_node (block_entries fmt (qname ns_rpm "requires")) ∅
      = Ok requires ∧
    dict_of_nodes dep_of_node (block_entries fmt (qname ns_rpm "obsoletes")) ∅
      = Ok obsoletes ∧
    fmt_provides (pri_format p) = provides ∧
    fmt_requires (pri_format p) = requires ∧
    fmt_obsoletes (pri_format p) = obsoletes ∧
    fmt_files (pri_format p) = file_of_node <$> findall fmt (qname ns_common "file") ∧
    pri_identity p = key.
Proof.
  unfold primary_package. intros H. res_inv H.
  destruct (find child (qname ns_common "format")) as [fmt|]; [|done].
  res_inv H. injection H as <- <-.
  exists fmt. do 3 eexists. split_and!; [done | eassumption.. | done | done | done | done | done].
Qed.

Lemma primary_package_identity child key p :
  primary_package child = Ok (key, p) → pri_identity p = key.
Proof.
  intros H. apply primary_package_inv in H
    as (? & ? & ? & ? & _ & _ & _ & _ & _ & _ & _ & _ & H). done.
Qed.

(** X8: [parse_filelists] reads the children of the root whose tag ends in
    [}package] and no others.  It returns exactly when every such child can
    be read, and otherwise raises the error of one of them.  Every record
    of the result is the record of such a child, stored under the identity
    in its own fields; of the children with one identity the last one is
    the one stored. *)
Theorem parse_filelists_spec (root : Element) :
  (is_Ok (parse_filelists root) ↔
   ∀ child, child ∈ children root → is_package child →
            is_Ok (filelists_package child)) ∧
  (∀ e, parse_filelists root = Raise e →
     ∃ child, child ∈ children root ∧ is_package child ∧
              filelists_package child = Raise e) ∧
  (∀ packages, parse_filelists root = Ok packages →
     (∀ k p, packages !! k = Some p →
        fl_identity p = k ∧
        ∃ child, child ∈ children root ∧ is_package child ∧
                 filelists_package child = Ok (k, p)) ∧
     (∀ cs1 child cs2 k p,
        children root = cs1 ++ child :: cs2 →
        is_package child → filelists_package child = Ok (k, p) →
        (∀ c p', c ∈ cs2 → is_package c → filelists_package c ≠ Ok (k, p')) →
        packages !! k = Some p)) ∧
  parse_filelists (with_children root (filter (λ c, is_package c) (children root)))
    = parse_filelists root.
Proof.
  unfold parse_filelists. split_and!.
  - apply (package_loop_Ok_iff filelists_package parse_filelists_loop (λ _, eq_refl) parse_filelists_loop_cons).
  - intros e. apply (package_loop_Raise filelists_package parse_filelists_loop (λ _, eq_refl) parse_filelists_loop_cons).
  - intros packages H. split.
    + intros k p Hk.
      destruct (package_loop_lookup filelists_package parse_filelists_loop
                  (λ _, eq_refl) parse_filelists_loop_cons _ _ _ _ _ H Hk)
        as [Hd | (c & ? & ? & Hc)]; [by rewrite lookup_empty in Hd|].
      split; [by eapply filelists_package_identity | by exists c].
    + intros cs1 child cs2 k p Hcs. rewrite Hcs in H.
      by apply (package_loop_last filelists_package parse_filelists_loop
                  (λ _, eq_refl) parse_filelists_loop_cons _ _ _ _ _ _ _ H).
  - destruct root as [t a x cs]. simpl.
    apply (package_loop_filter filelists_package parse_filelists_loop parse_filelists_loop_cons).
Qed.

(** X9: [parse_primary] reads the children of the root whose tag ends in
    [}package] and no others.  It returns exactly when every such child can
    be read, and otherwise raises the error of one of them.  Every record
    of the result is the record of such a child, stored under the identity
    in its own fields; of the children with one identity the last one is
    the one stored. *)
Theorem parse_primary_spec (root : Element) :
  (is_Ok (parse_primary root) ↔
   ∀ child, child ∈ children root → is_package child →
            is_Ok (primary_package child)) ∧
  (∀ e, parse_primary root = Raise e →
     ∃ child, child ∈ children root ∧ is_package child ∧
              primary_package child = Raise e) ∧
  (∀ packages, parse_primary root = Ok packages →
     (∀ k p, packages !! k = Some p →
        pri_identity p = k ∧
        ∃ child, child ∈ children root ∧ is_package child ∧
                 primary_package child = Ok (k, p)) ∧
     (∀ cs1 child cs2 k p,
        children root = cs1 ++ child :: cs2 →
        is_package child → primary_package child = Ok (k, p) →
        (∀ c p', c ∈ cs2 → is_package c → primary_package c ≠ Ok (k, p')) →
        packages !! k = Some p)) ∧
  parse_primary (with_children root (filter (λ c, is_package c) (children root)))
    = parse_primary root.
Proof.
  unfold parse_primary. split_and!.
  - apply (package_loop_Ok_iff primary_package parse_primary_loop (λ _, eq_refl) parse_primary_loop_cons).
  - intros e. apply (package_loop_Raise primary_package parse_primary_loop (λ _, eq_refl) parse_primary_loop_cons).
  - intros packages H. split.
    + intros k p Hk.
      destruct (package_loop_lookup primary_package parse_primary_loop
                  (λ _, eq_refl) parse_primary_loop_cons _ _ _ _ _ H Hk)
        as [Hd | (c & ? & ? & Hc)]; [by rewrite lookup_empty in Hd|].
      split; [by eapply primary_package_identity | by exists c].
    + intros cs1 child cs2 k p Hcs. rewrite Hcs in H.
      by apply (package_loop_last primary_package parse_primary_loop
                  (λ _, eq_refl) parse_primary_loop_cons _ _ _ _ _ _ _ H).
  - destruct root as [t a x cs]. simpl.
    apply (package_loop_filter primary_package parse_primary_loop parse_primary_loop_cons).
Qed.

Lemma getitem_Ok {V} (d : gmap string V) (key : string) (v : V) :
  getitem d key = Ok v ↔ d !! key = Some v.
Proof. unfold getitem. destruct (d !! key); split; congruence. Qed.

Lemma getitem_Raise {V} (d : gmap string V) (key : string) (e : exn) :
  getitem d key = Raise e ↔ d !! key = None ∧ e = KeyError key.
Proof.
  unfold getitem. destruct (d !! key); split; try done.
  - by intros [? _].
  - by intros [= <-].
  - by intros [_ ->].
Qed.

Lemma attrib_of_Ok (x : option Element) (a : gmap string string) :
  attrib_of x = Ok a ↔ ∃ node, x = Some node ∧ attrib node = a.
Proof.
  destruct x as [node|]; simpl; split.
  - intros [= <-]. by exists node.
  - by intros (n & [= <-] & <-).
  - done.
  - by intros (n & ? & _).
Qed.

Lemma version_of_attrib_Ok (a : gmap string string) (v : Version) :
  version_of_attrib a = Ok v ↔
  ∃ ver rel epoch,
    a !! "ver" = Some ver ∧ a !! "rel" = Some rel ∧ a !! "epoch" = Some epoch ∧
    v = mkVersion (PyStr ver) (PyStr rel) (PyStr epoch).
Proof.
  unfold version_of_attrib. split.
  - intros H. res_inv H. injection H as <-.
    apply getitem_Ok in Ha, Ha0, Ha1. by exists a0, a1, a2.
  - intros (ver & rel & epoch & Hv & Hr & He & ->).
    apply getitem_Ok in Hv, Hr, He. by rewrite Hv, Hr, He.
Qed.

Lemma version_of_attrib_Raise (a : gmap string string) (e : exn) :
  version_of_attrib a = Raise e →
  ∃ k, e = KeyError k ∧ k ∈ ["ver"; "rel"; "epoch"] ∧ a !! k = None.
Proof.
  unfold version_of_attrib.
  intros [[? ->]%getitem_Raise | (? & _ & [[? ->]%getitem_Raise |
    (? & _ & [[? ->]%getitem_Raise | (? & _ & ?)]%bind_Raise)]%bind_Raise)]%bind_Raise;
    try done; eexists; (split; [done|]); (split; [set_solver | done]).
Qed.

(** X10: a package node of the file lists document is read exactly when
    it has the attributes [pkgid], [name] and [arch] and a [version] child
    with the attributes [ver], [rel] and [epoch]; the first [version] child
    is the one read.  A missing attribute raises a KeyError of its name and
    a missing [version] child an AttributeError.  The manifest has one
    entry for each [file] child, in their order, with the text of the child
    as it is; the entry is a directory exactly when the [type] attribute of
    the child is [dir]. *)
Theorem filelists_package_spec (child : Element) :
  (∀ key package,
     filelists_package child = Ok (key, package) ↔
     ∃ pkgid name arch node ver rel epoch,
       attrib child !! "pkgid" = Some pkgid ∧
       attrib child !! "name" = Some name ∧
       attrib child !! "arch" = Some arch ∧
       find child (qname ns_filelists "version") = Some node ∧
       attrib node !! "ver" = Some ver ∧ attrib node !! "rel" = Some rel ∧
       attrib node !! "epoch" = Some epoch ∧
       key = (PyStr name, PyStr epoch, PyStr rel, PyStr ver) ∧
       package = mkFilelists (PyStr pkgid) (PyStr name) (PyStr arch)
                   (mkVersion (PyStr ver) (PyStr rel) (PyStr epoch))
                   (file_of_node <$> findall child (qname ns_filelists "file"))) ∧
  (∀ e, filelists_package child = Raise e →
     (e = AttributeError ∧ find child (qname ns_filelists "version") = None) ∨
     (∃ k, e = KeyError k ∧ k ∈ ["pkgid"; "name"; "arch"] ∧ attrib child !! k = None) ∨
     (∃ k node, e = KeyError k ∧ k ∈ ["ver"; "rel"; "epoch"] ∧
                find child (qname ns_filelists "version") = Some node ∧
                attrib node !! k = None)) ∧
  (∀ key package, filelists_package child = Ok (key, package) →
     length (fl_files package)
       = length (findall child (qname ns_filelists "file")) ∧
     ∀ j node, findall child (qname ns_filelists "file") !! j = Some node →
       ∃ entry, fl_files package !! j = Some entry ∧
                file_name entry = text node ∧
                (file_type entry = dir ↔ attrib node !! "type" = Some "dir")).
Proof.
  split_and!.
  - intros key package. unfold filelists_package. split.
    + intros H. res_inv H. injection H as <- <-.
      apply getitem_Ok in Ha, Ha0, Ha1.
      apply attrib_of_Ok in Ha2 as (node & Hn & <-).
      apply version_of_attrib_Ok in Ha3 as (ver & rel & epoch & ? & ? & ? & ->).
      by exists a, a0, a1, node, ver, rel, epoch.
    + intros (pkgid & name & arch & node & ver & rel & epoch &
              Hp & Hn & Ha & Hf & Hv & Hr & He & -> & ->).
      apply getitem_Ok in Hp, Hn, Ha. rewrite Hp, Hn, Ha, Hf. simpl.
      assert (version_of_attrib (attrib node)
                = Ok (mkVersion (PyStr ver) (PyStr rel) (PyStr epoch))) as ->
        by (apply version_of_attrib_Ok; by exists ver, rel, epoch).
      done.
  - intros e. unfold filelists_package.
    intros [[? ->]%getitem_Raise | (? & _ & [[? ->]%getitem_Raise |
      (? & _ & [[? ->]%getitem_Raise | (? & _ & [Hx |
      (? & Hx & [Hv | (? & _ & ?)]%bind_Raise)]%bind_Raise)]%bind_Raise)
      ]%bind_Raise)]%bind_Raise; try done.
    + right; left. eexists. split; [done|]. split; [set_solver | done].
    + right; left. eexists. split; [done|]. split; [set_solver | done].
    + right; left. eexists. split; [done|]. split; [set_solver | done].
    + left. destruct (find child _); simpl in Hx; [done|]. by injection Hx as <-.
    + right; right. apply attrib_of_Ok in Hx as (node & Hn & <-).
      apply version_of_attrib_Raise in Hv as (k & -> & ? & ?). by exists k, node.
  - intros key package H. unfold filelists_package in H. res_inv H.
    injection H as _ <-. simpl. split; [by rewrite length_fmap|].
    intros j node Hj. exists (file_of_node node).
    rewrite list_lookup_fmap, Hj. split_and!; [done..|].
    unfold file_of_node. simpl. case_decide; split; done.
Qed.

(** ** The dependency blocks of the primary document *)

Lemma dict_of_nodes_cons {V} (mk : Element → res (depkey * V)) entry entries d :
  dict_of_nodes mk (entry :: entries) d =
    kv ← mk entry; dict_of_nodes mk entries (<[kv.1 := kv.2]> d).
Proof. simpl. by destruct (mk entry) as [[k v]|]. Qed.

Lemma dict_of_nodes_Ok_iff {V} (mk : Element → res (depkey * V)) entries d :
  is_Ok (dict_of_nodes mk entries d) ↔ ∀ entry, entry ∈ entries → is_Ok (mk entry).
Proof.
  revert d. induction entries as [|entry entries IH]; intros d.
  - split; [by intros _ ? []%elem_of_nil | by eexists].
  - rewrite dict_of_nodes_cons, is_Ok_bind. split.
    + intros (kv & Hk & Hl) c [-> | Hin]%elem_of_cons; [by eexists | by eapply IH].
    + intros H. destruct (H entry) as [kv Hk]; [apply list_elem_of_here|].
      exists kv. split; [done|]. apply IH. intros c ?. apply H.
      by apply list_elem_of_further.
Qed.

Lemma dict_of_nodes_lookup {V} (mk : Element → res (depkey * V)) entries d m k v :
  dict_of_nodes mk entries d = Ok m → m !! k = Some v →
  d !! k = Some v ∨ ∃ entry, entry ∈ entries ∧ mk entry = Ok (k, v).
Proof.
  revert d. induction entries as [|entry entries IH]; intros d.
  - intros [= <-] ?. by left.
  - rewrite dict_of_nodes_cons. intros H Hk. res_inv H. destruct a as [k' v'].
    simpl in H. destruct (IH _ H Hk) as [Hd | (c & ? & ?)].
    + destruct (decide (k' = k)) as [-> | Hne].
      * rewrite lookup_insert_eq in Hd. injection Hd as ->. right.
        exists entry. split; [apply list_elem_of_here | done].
      * rewrite lookup_insert_ne in Hd by done. by left.
    + right. exists c. split; [by apply list_elem_of_further | done].
Qed.

Lemma dict_of_nodes_other {V} (mk : Element → res (depkey * V)) entries d m k :
  dict_of_nodes mk entries d = Ok m →
  (∀ c v, c ∈ entries → mk c ≠ Ok (k, v)) →
  m !! k = d !! k.
Proof.
  revert d. induction entries as [|entry entries IH]; intros d.
  - by intros [= <-].
  - rewrite dict_of_nodes_cons. intros H Hk. res_inv H. destruct a as [k' v'].
    simpl in H. rewrite (IH _ H).
    + apply lookup_insert_ne. intros ->.
      eapply (Hk entry v'); [apply list_elem_of_here | done].
    + intros c v ?. apply Hk. by apply list_elem_of_further.
Qed.

Lemma dict_of_nodes_last {V} (mk : Element → res (depkey * V)) es1 entry es2 d m k v :
  dict_of_nodes mk (es1 ++ entry :: es2) d = Ok m →
  mk entry = Ok (k, v) →
  (∀ c v', c ∈ es2 → mk c ≠ Ok (k, v')) →
  m !! k = Some v.
Proof.
  revert d. induction es1 as [|e1 es1 IH]; intros d; simpl app.
  - rewrite dict_of_nodes_cons. intros H Hk Hl. rewrite Hk in H. simpl in H.
    rewrite (dict_of_nodes_other _ _ _ _ _ H Hl). apply lookup_insert_eq.
  - rewrite dict_of_nodes_cons. intros H Hk Hl. res_inv H. by eapply IH.
Qed.

Lemma dep_of_node_Ok entry k rec :
  dep_of_node entry = Ok (k, rec) ↔
  ∃ name, attrib entry !! "name" = Some name ∧
    k = (name, attrib entry !! "epoch", attrib entry !! "rel", attrib entry !! "ver") ∧
    rec = mkDep name (attrib entry !! "epoch") (attrib entry !! "rel")
            (attrib entry !! "ver") (attrib entry !! "flags").
Proof.
  unfold dep_of_node. split.
  - intros H. res_inv H. injection H as <- <-. apply getitem_Ok in Ha. by exists a.
  - intros (name & Hn%getitem_Ok & -> & ->). by rewrite Hn.
Qed.

Lemma req_of_node_Ok entry k rec :
  req_of_node entry = Ok (k, rec) ↔
  ∃ name, attrib entry !! "name" = Some name ∧
    k = (name, attrib entry !! "epoch", attrib entry !! "rel", attrib entry !! "ver") ∧
    rec = mkReq name (attrib entry !! "epoch") (attrib entry !! "rel")
            (attrib entry !! "ver") (attrib entry !! "flags") (attrib entry !! "pre").
Proof.
  unfold req_of_node. split.
  - intros H. res_inv H. injection H as <- <-. apply getitem_Ok in Ha. by exists a.
  - intros (name & Hn%getitem_Ok & -> & ->). by rewrite Hn.
Qed.

Lemma dict_of_nodes_Raise {V} (mk : Element → res (depkey * V)) entries d e :
  (∀ entry e', mk entry = Raise e' → e' = KeyError "name") →
  dict_of_nodes mk entries d = Raise e → e = KeyError "name".
Proof.
  intros Hmk. revert d. induction entries as [|entry entries IH]; intros d; [done|].
  rewrite dict_of_nodes_cons. intros [H | (kv & _ & H)]%bind_Raise.
  - by eapply Hmk.
  - by eapply IH.
Qed.

Lemma dep_of_node_Raise entry e : dep_of_node entry = Raise e → e = KeyError "name".
Proof.
  unfold dep_of_node. intros [[_ ->]%getitem_Raise | (? & _ & ?)]%bind_Raise; done.
Qed.

Lemma req_of_node_Raise entry e : req_of_node entry = Raise e → e = KeyError "name".
Proof.
  unfold req_of_node. intros [[_ ->]%getitem_Raise | (? & _ & ?)]%bind_Raise; done.
Qed.

(** X11: the dependency mappings of a package of the primary document.  A
    block that the format node does not have gives the empty mapping; every
    entry of a block that is there has a [name] attribute; every record of
    a mapping is the record of an entry of its block, with [None] for each
    of the attributes [epoch], [rel], [ver], [flags] and [pre] that the
    entry does not have; of the entries with one key the last one is the
    one stored. *)
Theorem primary_dependencies_spec (child : Element) (key : nerv) (p : Primary) :
  primary_package child = Ok (key, p) →
  ∃ fmt,
    find child (qname ns_common "format") = Some fmt ∧
    (find fmt (qname ns_rpm "provides") = None → fmt_provides (pri_format p) = ∅) ∧
    (find fmt (qname ns_rpm "requires") = None → fmt_requires (pri_format p) = ∅) ∧
    (find fmt (qname ns_rpm "obsoletes") = None → fmt_obsoletes (pri_format p) = ∅) ∧
    (∀ qn entry, qn ∈ [qname ns_rpm "provides"; qname ns_rpm "requires";
                        qname ns_rpm "obsoletes"] →
       entry ∈ block_entries fmt qn → is_Some (attrib entry !! "name")) ∧
    (∀ k rec, fmt_provides (pri_format p) !! k = Some rec →
       ∃ entry, entry ∈ block_entries fmt (qname ns_rpm "provides") ∧
                dep_of_node entry = Ok (k, rec)) ∧
    (∀ k rec, fmt_requires (pri_format p) !! k = Some rec →
       ∃ entry, entry ∈ block_entries fmt (qname ns_rpm "requires") ∧
                req_of_node entry = Ok (k, rec) ∧
                req_pre rec = attrib entry !! "pre") ∧
    (∀ k rec, fmt_obsoletes (pri_format p) !! k = Some rec →
       ∃ entry, entry ∈ block_entries fmt (qname ns_rpm "obsoletes") ∧
                dep_of_node entry = Ok (k, rec)) ∧
    (∀ es1 entry es2 k rec,
       block_entries fmt (qname ns_rpm "requires") = es1 ++ entry :: es2 →
       req_of_node entry = Ok (k, rec) →
       (∀ c rec', c ∈ es2 → req_of_node c ≠ Ok (k, rec')) →
       fmt_requires (pri_format p) !! k = Some rec) ∧
    (∀ es1 entry es2 k rec,
       block_entries fmt (qname ns_rpm "provides") = es1 ++ entry :: es2 →
       dep_of_node entry = Ok (k, rec) →
       (∀ c rec', c ∈ es2 → dep_of_node c ≠ Ok (k, rec')) →
       fmt_provides (pri_format p) !! k = Some rec) ∧
    (∀ es1 entry es2 k rec,
       block_entries fmt (qname ns_rpm "obsoletes") = es1 ++ entry :: es2 →
       dep_of_node entry = Ok (k, rec) →
       (∀ c rec', c ∈ es2 → dep_of_node c ≠ Ok (k, rec')) →
       fmt_obsoletes (pri_format p) !! k = Some rec).
Proof.
  intros H. apply primary_package_inv in H
    as (fmt & pro & req & obs & Hf & Hpro & Hreq & Hobs & -> & -> & -> & _ & _).
  exists fmt. split_and!; try done.
  - unfold block_entries in Hpro. intros E. rewrite E in Hpro. by injection Hpro.
  - unfold block_entries in Hreq. intros E. rewrite E in Hreq. by injection Hreq.
  - unfold block_entries in Hobs. intros E. rewrite E in Hobs. by injection Hobs.
  - intros qn entry Hq Hin.
    assert (is_Ok (dep_of_node entry) ∨ is_Ok (req_of_node entry)) as Hok.
    { apply elem_of_cons in Hq as [-> | Hq];
        [|apply elem_of_cons in Hq as [-> | Hq];
          [|apply elem_of_cons in Hq as [-> | []%elem_of_nil]]].
      - left. by apply (proj1 (dict_of_nodes_Ok_iff dep_of_node _ ∅)
                           (ex_intro _ _ Hpro)).
      - right. by apply (proj1 (dict_of_nodes_Ok_iff req_of_node _ ∅)
                            (ex_intro _ _ Hreq)).
      - left. by apply (proj1 (dict_of_nodes_Ok_iff dep_of_node _ ∅)
                           (ex_intro _ _ Hobs)). }
    destruct Hok as [[[k r] Hk] | [[k r] Hk]].
    + apply dep_of_node_Ok in Hk as (name & -> & _). by eexists.
    + apply req_of_node_Ok in Hk as (name & -> & _). by eexists.
  - intros k rec Hk.
    destruct (dict_of_nodes_lookup _ _ _ _ _ _ Hpro Hk) as [Hd|?]; [|done].
    by rewrite lookup_empty in Hd.
  - intros k rec Hk.
    destruct (dict_of_nodes_lookup _ _ _ _ _ _ Hreq Hk) as [Hd|(entry & ? & He)];
      [by rewrite lookup_empty in Hd|].
    exists entry. split_and!; [done..|].
    apply req_of_node_Ok in He as (name & _ & _ & ->). done.
  - intros k rec Hk.
    destruct (dict_of_nodes_lookup _ _ _ _ _ _ Hobs Hk) as [Hd|?]; [|done].
    by rewrite lookup_empty in Hd.
  - intros es1 entry es2 k rec He Hk Hl. rewrite He in Hreq.
    by eapply dict_of_nodes_last.
  - intros es1 entry es2 k rec He Hk Hl. rewrite He in Hpro.
    by eapply dict_of_nodes_last.
  - intros es1 entry es2 k rec He Hk Hl. rewrite He in Hobs.
    by eapply dict_of_nodes_last.
Qed.

Lemma text_of_Ok (x : option Element) (t : option string) :
  text_of x = Ok t → is_Some x.
Proof. destruct x; [by eexists | done]. Qed.

Lemma attrib_of_is_Some (x : option Element) (a : gmap string string) :
  attrib_of x = Ok a → is_Some x.
Proof. destruct x; [by eexists | done]. Qed.

(** X12: a package node of the primary document can be read only when it
    has the children [checksum], [name], [arch], [summary], [description],
    [packager], [url], [time], [location], [version] and [format], and the
    format node the children [license], [vendor], [group], [buildhost],
    [sourcerpm] and [header-range].  A node that cannot be read raises an
    AttributeError, for a missing child, or a KeyError of one of the
    attributes that are read. *)
Theorem primary_package_requires (child : Element) :
  (is_Ok (primary_package child) →
   (∀ local, local ∈ ["checksum"; "name"; "arch"; "summary"; "description";
                      "packager"; "url"; "time"; "location"; "version"] →
             is_Some (find child (qname ns_common local))) ∧
   ∃ fmt, find child (qname ns_common "format") = Some fmt ∧
     ∀ local, local ∈ ["license"; "vendor"; "group"; "buildhost"; "sourcerpm";
                        "header-range"] →
              is_Some (find fmt (qname ns_rpm local))) ∧
  (∀ e, primary_package child = Raise e →
     e = AttributeError ∨
     ∃ k, e = KeyError k ∧
          k ∈ ["file"; "build"; "href"; "ver"; "rel"; "epoch"; "start"; "end"; "name"]).
Proof.
  split.
  - intros [[key p] H]. unfold primary_package in H. res_inv H.
    destruct (find child (qname ns_common "format")) as [fmt|] eqn:Ef; [|done].
    res_inv H. split.
    + intros local Hin.
      repeat (apply elem_of_cons in Hin as [-> | Hin]);
        [by eapply text_of_Ok.. | by eapply attrib_of_is_Some |
         by eapply attrib_of_is_Some | by eapply attrib_of_is_Some |
         by apply elem_of_nil in Hin].
    + exists fmt. split; [done|]. intros local Hin.
      repeat (apply elem_of_cons in Hin as [-> | Hin]);
        [by eapply text_of_Ok.. | by eapply attrib_of_is_Some |
         by apply elem_of_nil in Hin].
  - intros e H. unfold primary_package in H. raise_inv H.
    1-7: left; by eapply text_of_Raise.
    + left. by eapply attrib_of_Raise.
    + right. apply getitem_Raise in H as [_ ->]. eexists. split; [done | in_list].
    + right. apply getitem_Raise in H as [_ ->]. eexists. split; [done | in_list].
    + left. by eapply attrib_of_Raise.
    + right. apply getitem_Raise in H as [_ ->]. eexists. split; [done | in_list].
    + left. by eapply attrib_of_Raise.
    + right. apply version_of_attrib_Raise in H as (k & -> & Hk & _).
      exists k. split; [done|].
      repeat (apply elem_of_cons in Hk as [-> | Hk]);
        [in_list.. | by apply elem_of_nil in Hk].
    + destruct (find child (qname ns_common "format")) as [fmt|]; [|left; congruence].
      raise_inv H.
      1-5: left; by eapply text_of_Raise.
      * left. by eapply attrib_of_Raise.
      * right. apply getitem_Raise in H as [_ ->]. eexists. split; [done | in_list].
      * right. apply getitem_Raise in H as [_ ->]. eexists. split; [done | in_list].
      * right. exists "name". split; [|in_list].
        exact (dict_of_nodes_Raise dep_of_node _ _ e dep_of_node_Raise H).
      * right. exists "name". split; [|in_list].
        exact (dict_of_nodes_Raise req_of_node _ _ e req_of_node_Raise H).
      * right. exists "name". split; [|in_list].
        exact (dict_of_nodes_Raise dep_of_node _ _ e dep_of_node_Raise H).
      * done.
Qed.

(** ** The package nodes *)

Lemma substring_skip (p s : string) (n : nat) :
  String.substring (String.length p) n (p +:+ s) = String.substring 0 n s.
Proof. induction p as [|c p IH]; simpl; [done|]. apply IH. Qed.

Lemma substring_split (s : string) (n : nat) :
  (n ≤ String.length s)%nat →
  s = String.substring 0 n s +:+ String.substring n (String.length s - n) s.
Proof.
  revert n. induction s as [|c s IH]; intros n Hn; simpl in *.
  - by destruct n.
  - destruct n as [|n]; simpl.
    + by rewrite substring_all.
    + f_equal. apply IH. lia.
Qed.

Lemma endswith_spec (s suffix : string) :
  endswith s suffix = true ↔ ∃ p, s = p +:+ suffix.
Proof.
  unfold endswith. rewrite andb_true_iff, bool_decide_eq_true, Nat.leb_le. split.
  - intros [Hs Hl].
    exists (String.substring 0 (String.length s - String.length suffix) s).
    pose proof (substring_split s (String.length s - String.length suffix)) as Hsp.
    replace (String.length s - (String.length s - String.length suffix))%nat
      with (String.length suffix) in Hsp by lia.
    rewrite Hs in Hsp. apply Hsp. lia.
  - intros [p ->]. rewrite length_app_s. split; [|lia].
    replace (String.length p + String.length suffix - String.length suffix)%nat
      with (String.length p) by lia.
    rewrite substring_skip. apply substring_all.
Qed.

(** X14: a node counts as a package exactly when its tag ends in
    [}package]: the tag [package] of any namespace does, whatever the
    namespace is, and a tag without a namespace does not. *)
Theorem is_package_spec :
  (∀ child, is_package child ↔ ∃ p, tag child = p +:+ "}package") ∧
  (∀ namespace a t cs, is_package (Elem (qname namespace "package") a t cs)) ∧
  (∀ tg a t cs, (String.length tg < 8)%nat → ¬ is_package (Elem tg a t cs)).
Proof.
  unfold is_package. split_and!.
  - intros child. rewrite Is_true_true. apply endswith_spec.
  - intros namespace a t cs. apply Is_true_true, endswith_spec. simpl.
    exists ("{" +:+ namespace). unfold qname. by rewrite !app_assoc_s.
  - intros tg a t cs Hlen [p Hp]%Is_true_true%endswith_spec. simpl in Hp.
    apply (f_equal String.length) in Hp. rewrite length_app_s in Hp.
    simpl in Hp. lia.
Qed.

(** ** The summary document: several records of one type *)

Lemma pick_last (ty : string) (cs1 cs2 : list Element) (child : Element)
    (init : option Locator) (r : Locator) :
  has_type ty child → repomd_result child = Ok r →
  (∀ c, c ∈ cs2 → ¬ has_type ty c) →
  pick ty (cs1 ++ child :: cs2) init = Some r.
Proof.
  intros Ht Hr Hl. revert init. induction cs1 as [|c cs1 IH]; intros init; simpl.
  - rewrite decide_True by done. rewrite Hr. by apply pick_none.
  - apply IH.
Qed.

Lemma repomd_result_Raise (child : Element) (e : exn) :
  repomd_result child = Raise e → e = AttributeError ∨ e = KeyError "href".
Proof.
  unfold repomd_result. intros H. raise_inv H; try done.
  1-5: left; by eapply text_of_Raise.
  - left. by eapply attrib_of_Raise.
  - right. by apply getitem_Raise in H as [_ ->].
Qed.

Lemma parse_repomd_loop_Raise (cs : list Element) (fl pr : option Locator) (e : exn) :
  parse_repomd_loop cs fl pr = Raise e →
  ∃ child, child ∈ cs ∧ typed child ∧ repomd_result child = Raise e.
Proof.
  revert fl pr. induction cs as [|child cs IH]; intros fl pr; [done|].
  rewrite parse_repomd_loop_cons. case_decide as Ht.
  - intros [H | (r & _ & H)]%bind_Raise.
    + exists child. split; [apply list_elem_of_here | done].
    + destruct (IH _ _ H) as (c & ? & ?). exists c.
      split; [by apply list_elem_of_further | done].
  - intros H. destruct (IH _ _ H) as (c & ? & ?). exists c.
    split; [by apply list_elem_of_further | done].
Qed.

(** X13: when the summary document has several records of one of the two
    types, [parse_repomd] returns the result of the last of them; and when
    it raises, the error is an AttributeError or the KeyError of [href],
    raised for a record that has a type. *)
Theorem parse_repomd_last_wins (root : Element) :
  (∀ fl pr cs1 child cs2,
     parse_repomd root = Ok (fl, pr) →
     children root = cs1 ++ child :: cs2 →
     (has_type "filelists" child →
      (∀ c, c ∈ cs2 → ¬ has_type "filelists" c) →
      ∃ r, repomd_result child = Ok r ∧ fl = Some r) ∧
     (has_type "primary" child →
      (∀ c, c ∈ cs2 → ¬ has_type "primary" c) →
      ∃ r, repomd_result child = Ok r ∧ pr = Some r)) ∧
  (∀ e, parse_repomd root = Raise e →
     (e = AttributeError ∨ e = KeyError "href") ∧
     ∃ child, child ∈ children root ∧ typed child ∧ repomd_result child = Raise e).
Proof.
  unfold parse_repomd. split.
  - intros fl pr cs1 child cs2 H Hcs.
    assert (∀ ty, has_type ty child → is_Ok (repomd_result child)) as Hok.
    { intros ty Ht. eapply parse_repomd_loop_Ok; [by eexists | | by eapply has_type_typed].
      rewrite Hcs. apply elem_of_app. right. apply list_elem_of_here. }
    apply parse_repomd_loop_pick in H. injection H as -> ->. rewrite Hcs.
    split; intros Ht Hl; destruct (Hok _ Ht) as [r Hr]; exists r;
      (split; [done|]); by apply pick_last.
  - intros e H. destruct (parse_repomd_loop_Raise _ _ _ _ H) as (c & Hin & Ht & Hr).
    split; [by eapply repomd_result_Raise | by exists c].
Qed.

(** ** Further properties of the reconciliation *)

Section Diff.

Context (py_float : string -> res number) (storage : Storage).

Lemma recorded_loop_Ok_iff (packages : list Primary) (acc : gset (string * number)) :
  is_Ok (recorded_loop py_float packages acc) ↔
  ∀ package, package ∈ packages → is_Ok (py_float (pri_file_time package)).
Proof.
  split; [|apply recorded_loop_Ok].
  revert acc. induction packages as [|package packages IH]; intros acc.
  - by intros _ ? []%elem_of_nil.
  - simpl. rewrite is_Ok_bind. intros (t & Ht & Hl) p [-> | Hin]%elem_of_cons.
    + by eexists.
    + by eapply IH.
Qed.

Lemma existing_loop_Ok_iff (paths : list string) (acc : gset (string * number)) :
  is_Ok (existing_loop storage paths acc) ↔
  ∀ p, p ∈ paths → matches_rpm_expr p → is_Ok (st_mtime storage p).
Proof.
  split; [|apply existing_loop_Ok].
  revert acc. induction paths as [|path paths IH]; intros acc.
  - by intros _ ? []%elem_of_nil.
  - simpl. destruct (Re.re_match rpm_expr path) as [g|] eqn:E.
    + rewrite is_Ok_bind. intros (t & Ht & Hl) p [-> | Hin]%elem_of_cons Hm.
      * by eexists.
      * by eapply IH.
    + intros Hl p [-> | Hin]%elem_of_cons Hm.
      * apply rpm_expr_match in Hm. rewrite E in Hm. by destruct Hm.
      * by eapply IH.
Qed.

(** X16: the diff of [update_repo] can be computed exactly when [float]
    reads the [file_time] of every record and the storage lists its files
    and gives the time of every path that matches the archive pattern; the
    time of another path is never asked for.  The pairs of the diff are
    exactly the pairs of a listed path that matches the archive pattern and
    its time in the storage such that no record has both that location and
    that time. *)
Theorem files_to_add_succeeds_iff (primary : gmap nerv Primary) :
  (is_Ok (files_to_add py_float storage primary) ↔
   (∀ k package, primary !! k = Some package →
                 is_Ok (py_float (pri_file_time package))) ∧
   ∃ paths, st_files storage "." = Ok paths ∧
            ∀ p, p ∈ paths → matches_rpm_expr p → is_Ok (st_mtime storage p)) ∧
  (∀ todo, files_to_add py_float storage primary = Ok todo →
     ∃ paths, st_files storage "." = Ok paths ∧
       ∀ p m, (p, m) ∈ todo ↔
         p ∈ paths ∧ matches_rpm_expr p ∧ st_mtime storage p = Ok m ∧
         ∀ k package, primary !! k = Some package → pri_location package = p →
                      py_float (pri_file_time package) ≠ Ok m).
Proof.
  split.
  - unfold files_to_add, recorded_files, existing_files.
    rewrite is_Ok_bind. split.
    + intros (recorded & Hr & [existing [He _]]%is_Ok_bind).
      split.
      * intros k package Hk.
        eapply (recorded_loop_Ok_iff _ ∅); [by eexists|].
        apply elem_of_values. by exists k.
      * res_inv He. exists a. split; [done|].
        apply (existing_loop_Ok_iff _ ∅). by eexists.
    + intros [Hf (paths & Hp & Hm)].
      destruct (proj2 (recorded_loop_Ok_iff (snd <$> map_to_list primary) ∅))
        as [r Hr].
      { intros package [k Hk]%elem_of_values. by eapply Hf. }
      exists r. split; [done|]. rewrite Hp. simpl.
      destruct (proj2 (existing_loop_Ok_iff paths ∅) Hm) as [x ->]. apply is_Ok_Ok.
  - intros todo H. unfold files_to_add in H. res_inv H. injection H as <-.
    rename a into recorded, a0 into existing.
    unfold existing_files in Ha0. res_inv Ha0. rename a into paths.
    unfold recorded_files in Ha.
    pose proof (existing_loop_spec 0 (λ _, None) py_float (λ _, Raise ValueError) id
                  _ _ _ _ Ha0) as Hex.
    pose proof (recorded_loop_spec 0 (λ _, None) py_float (λ _, Raise ValueError) id
                  _ _ _ Ha) as Hrec.
    exists paths. split; [done|]. intros p m.
    rewrite elem_of_difference, Hex, Hrec. split.
    + intros [[[]%not_elem_of_empty | (Hin & Hm & Ht)] Hn].
      split_and!; try done.
      intros k package Hk Hloc Hf. apply Hn. right. exists package.
      split; [apply elem_of_values; by exists k | done].
    + intros (Hin & Hm & Ht & Hn). split; [by right|].
      intros [[]%not_elem_of_empty | (package & [k Hk]%elem_of_values & Hloc & Hf)].
      by eapply Hn.
Qed.

End Diff.

Section EngineRuns.

Context (RPMSENSE_RPMLIB : Z) (flags_to_str : Z -> option string)
        (fromstring : string -> res Element)
        (gunzip_string : string -> res string)
        (py_float : string -> res number)
        (parse_file : string -> res Header)
        (hexdigest : string -> string)
        (storage : Storage).

Local Abbreviation h2p := (header_to_primary RPMSENSE_RPMLIB flags_to_str).
Local Abbreviation add1 :=
  (add_file RPMSENSE_RPMLIB flags_to_str parse_file hexdigest storage).
Local Abbreviation addn :=
  (add_files RPMSENSE_RPMLIB flags_to_str parse_file hexdigest storage).
Local Abbreviation load := (load_index fromstring gunzip_string storage).
Local Abbreviation rec_files := (recorded_files py_float).
Local Abbreviation to_add := (files_to_add py_float storage).
Local Abbreviation recon :=
  (reconcile RPMSENSE_RPMLIB flags_to_str py_float parse_file hexdigest storage).
Local Abbreviation update :=
  (update_repo RPMSENSE_RPMLIB flags_to_str fromstring gunzip_string py_float
     parse_file hexdigest storage).

Lemma load_index_inv (index : Index) :
  load = Ok index →
  (st_exists storage "repodata/repomd.xml" = false ∧ index = (∅, ∅)) ∨
  (st_exists storage "repodata/repomd.xml" = true ∧
   ∃ froot proot, parse_filelists froot = Ok index.1 ∧ parse_primary proot = Ok index.2).
Proof.
  unfold load_index. destruct (st_exists storage _).
  - intros H. right. split; [done|].
    apply bind_Ok in H as (data & _ & H). apply bind_Ok in H as (root & _ & H).
    apply bind_Ok in H as ([fl pr] & _ & H). simpl in H.
    res_inv H. injection H as <-. eexists _, _. split; simpl; eassumption.
  - intros [= <-]. by left.
Qed.

Lemma load_index_keyed (index : Index) : load = Ok index → keyed_by_identity index.
Proof.
  intros [[_ ->] | (_ & froot & proot & Hf & Hp)]%load_index_inv.
  - split; intros k p Hk; simpl in Hk; by rewrite lookup_empty in Hk.
  - split; intros k p Hk.
    + destruct (package_loop_lookup filelists_package parse_filelists_loop
                  (λ _, eq_refl) parse_filelists_loop_cons _ _ _ _ _ Hf Hk)
        as [Hd | (c & _ & _ & Hc)]; [by rewrite lookup_empty in Hd|].
      by eapply filelists_package_identity.
    + destruct (package_loop_lookup primary_package parse_primary_loop
                  (λ _, eq_refl) parse_primary_loop_cons _ _ _ _ _ Hp Hk)
        as [Hd | (c & _ & _ & Hc)]; [by rewrite lookup_empty in Hd|].
      by eapply primary_package_identity.
Qed.

Lemma add_file_Ok_identity (f : string * number) (index index' : Index) (w w' : World) :
  runM (add1 f index) w = (w', Ok index') →
  ∃ key prim flist,
    index' = (<[key := flist]> index.1, <[key := prim]> index.2) ∧
    pri_identity prim = key ∧ fl_identity flist = key ∧
    pri_location prim = f.1 ∧ pri_file_time prim = py_str (py_int f.2).
Proof.
  intros H. apply add_file_Ok_inv in H
    as (content & header & key & prim & flist & _ & _ & Hp & Hfl & -> & _).
  exists key, prim, flist.
  apply header_to_primary_inv in Hp
    as (? & ? & ? & ? & ? & ? & ? & ? & ? & ? & ? & ? & ? & ? &
        _ & _ & _ & _ & _ & _ & _ & _ & _ & _ & _ & _ & _ & _ & -> & ->).
  apply header_to_filelists_inv in Hfl
    as (? & ? & ? & ? & ? & ? & ? & _ & _ & _ & _ & _ & _ & _ & [= <- <-] & ->).
  done.
Qed.

Lemma add_file_keyed (f : string * number) (index index' : Index) (w w' : World) :
  runM (add1 f index) w = (w', Ok index') →
  keyed_by_identity index → keyed_by_identity index'.
Proof.
  intros (key & prim & flist & -> & Hp & Hf & _)%add_file_Ok_identity [H1 H2].
  split; intros k p; simpl; intros Hk.
  - destruct (decide (key = k)) as [<- | Hne].
    + rewrite lookup_insert_eq in Hk. by injection Hk as <-.
    + rewrite lookup_insert_ne in Hk by done. by apply H1.
  - destruct (decide (key = k)) as [<- | Hne].
    + rewrite lookup_insert_eq in Hk. by injection Hk as <-.
    + rewrite lookup_insert_ne in Hk by done. by apply H2.
Qed.

Lemma add_files_keyed (todo : list (string * number)) (index index' : Index)
    (w w' : World) :
  runM (addn todo index) w = (w', Ok index') →
  keyed_by_identity index → keyed_by_identity index'.
Proof.
  revert index w. induction todo as [|f todo IH]; intros index w.
  - by intros [= _ <-].
  - rewrite add_files_cons.
    destruct (runM (add1 f index) w) as [w1 [index1|e]] eqn:E; [|by intros [=]].
    intros H Hk. eapply IH; [done|]. by eapply add_file_keyed.
Qed.

Lemma reconcile_inv (index index' : Index) (w w' : World) :
  runM (recon index) w = (w', Ok index') →
  ∃ todo, to_add index.2 = Ok todo ∧ runM (addn (elements todo) index) w = (w', Ok index').
Proof.
  unfold reconcile. cbn -[files_to_add add_files].
  destruct (files_to_add py_float storage index.2) as [todo|e]; [|by intros [=]].
  intros H. by exists todo.
Qed.

Lemma update_repo_inv (index' : Index) (w w' : World) :
  runM update w = (w', Ok index') →
  ∃ index, load = Ok index ∧ runM (recon index) w = (w', Ok index').
Proof.
  unfold update_repo. cbn -[load_index reconcile].
  destruct (load_index fromstring gunzip_string storage) as [index|e]; [|by intros [=]].
  intros H. by exists index.
Qed.

(** X20: in the index that [update_repo] holds when it returns, loaded
    from the documents and grown by the archives, every record of the two
    dictionaries is stored under the identity made of its own name and
    version fields. *)
Theorem update_repo_keyed (w w' : World) (index' : Index) :
  runM update w = (w', Ok index') → keyed_by_identity index'.
Proof.
  intros (index & Hl & (todo & _ & H)%reconcile_inv)%update_repo_inv.
  eapply add_files_keyed; [done|]. by apply load_index_keyed.
Qed.

(** X19: the last loop of [update_repo] never removes a record.  Every
    identity of the index is still there afterwards, with its record as it
    was or with the record of an archive of this run, and every record that
    is there afterwards is one of the two; when the two dictionaries have
    the same identities before, they have the same identities afterwards;
    and the index grows by at most one record for each archive. *)
Theorem add_files_grows (todo : list (string * number)) (index index' : Index)
    (w w' : World) :
  runM (addn todo index) w = (w', Ok index') →
  (∀ k p, index.2 !! k = Some p →
     ∃ p', index'.2 !! k = Some p' ∧
           (p' = p ∨ ∃ f, f ∈ todo ∧ pri_location p' = f.1 ∧ pri_identity p' = k)) ∧
  (∀ k p', index'.2 !! k = Some p' →
     index.2 !! k = Some p' ∨
     ∃ f, f ∈ todo ∧ pri_location p' = f.1 ∧ pri_identity p' = k) ∧
  dom index.1 ⊆ dom index'.1 ∧ dom index.2 ⊆ dom index'.2 ∧
  (dom index.1 = dom index.2 → dom index'.1 = dom index'.2) ∧
  (size index'.2 ≤ size index.2 + length todo)%nat.
Proof.
  revert index w. induction todo as [|f todo IH]; intros index w.
  - intros [= _ <-]. split_and!; try done.
    + intros k p Hk. exists p. split; [done | by left].
    + intros k p' Hk. by left.
    + simpl. lia.
  - rewrite add_files_cons.
    destruct (runM (add1 f index) w) as [w1 [index1|e]] eqn:E; [|by intros [=]].
    intros H. destruct (IH _ _ H) as (H1 & H2 & H3 & H4 & H5 & H6). clear IH H.
    apply add_file_Ok_identity in E as (key & prim & flist & -> & Hp & Hf & Hloc & _).
    simpl in *. split_and!.
    + intros k p Hk. destruct (decide (key = k)) as [<- | Hne].
      * destruct (H1 key prim) as (p' & Hp' & Hor); [apply lookup_insert_eq|].
        exists p'. split; [done|]. right. destruct Hor as [-> | (f' & ? & ? & ?)].
        -- exists f. split; [apply list_elem_of_here | done].
        -- exists f'. split; [by apply list_elem_of_further | done].
      * destruct (H1 k p) as (p' & Hp' & Hor); [by rewrite lookup_insert_ne|].
        exists p'. split; [done|]. destruct Hor as [-> | (f' & ? & ? & ?)]; [by left|].
        right. exists f'. split; [by apply list_elem_of_further | done].
    + intros k p' Hk. destruct (H2 k p' Hk) as [Hi | (f' & ? & ? & ?)].
      * destruct (decide (key = k)) as [<- | Hne].
        -- rewrite lookup_insert_eq in Hi. injection Hi as <-. right.
           exists f. split; [apply list_elem_of_here | done].
        -- rewrite lookup_insert_ne in Hi by done. by left.
      * right. exists f'. split; [by apply list_elem_of_further | done].
    + etrans; [|exact H3]. rewrite dom_insert_L. apply union_subseteq_r.
    + etrans; [|exact H4]. rewrite dom_insert_L. apply union_subseteq_r.
    + intros Hd. apply H5. rewrite !dom_insert_L. by rewrite Hd.
    + pose proof (map_size_insert key prim index.2) as Hs.
      destruct (index.2 !! key); unfold id in Hs; lia.
Qed.

(** X18: the last loop of [update_repo] prints one line for each archive
    that it starts on, in the order of the loop, and nothing else.  When it
    returns, these are the lines of all the archives.  When it raises, the
    archives before some archive of the list were added one after the
    other, that archive raised the error of the loop, and the lines are
    those of the archives up to and including that one. *)
Theorem add_files_stdout (todo : list (string * number)) (index : Index) (w : World) :
  ∃ n, (n ≤ length todo)%nat ∧
    stdout (runM (addn todo index) w).1
      = stdout w ++ (adding_line <$> take n todo) ∧
    (is_Ok (runM (addn todo index) w).2 → n = length todo) ∧
    (∀ e, (runM (addn todo index) w).2 = Raise e →
       ∃ k f index_k w_k,
         n = S k ∧ todo !! k = Some f ∧
         runM (addn (take k todo) index) w = (w_k, Ok index_k) ∧
         (runM (add1 f index_k) w_k).2 = Raise e ∧
         runM (addn todo index) w = runM (add1 f index_k) w_k).
Proof.
  revert index w. induction todo as [|f todo IH]; intros index w.
  - exists 0%nat. simpl. rewrite app_nil_r. split_and!; done.
  - rewrite add_files_cons.
    assert (stdout (runM (add1 f index) w).1 = stdout w ++ [adding_line f]) as Hout.
    { rewrite add_file_run. cbn zeta.
      destruct (st_download_file storage f.1); [|done].
      by destruct (parse_file _). }
    destruct (runM (add1 f index) w) as [w1 [index1|e]] eqn:E; simpl in Hout.
    + destruct (IH index1 w1) as (n & Hn & Hs & Hok & Hr). exists (S n).
      split_and!; [simpl; lia | | intros ?; simpl; by rewrite Hok |].
      * rewrite Hs, Hout. simpl. by rewrite <- app_assoc.
      * intros e He. destruct (Hr e He) as (k & f' & ik & wk & -> & Hk & Hrun & Hf & Hall).
        exists (S k), f', ik, wk. split_and!; try done.
        simpl take. by rewrite add_files_cons, E.
    + exists 1%nat. split_and!; [simpl; lia | exact Hout | by intros []%not_is_Ok_Raise |].
      intros e' He. simpl in He. injection He as <-.
      exists 0%nat, f, index, w. split_and!; try done. by rewrite E.
Qed.

Lemma elements_empty_gset : elements (∅ : gset (string * number)) = [].
Proof. apply elements_empty. Qed.

(** X17: [update_repo] prints nothing and creates no scratch directory
    before its last loop: when loading the index or computing the diff
    raises, and when every archive of the storage is recorded, the world is
    as before; in the last case the result is the loaded index. *)
Theorem update_repo_quiet (w : World) :
  (∀ e, load = Raise e → runM update w = (w, Raise e)) ∧
  (∀ index e, load = Ok index → to_add index.2 = Raise e →
     runM update w = (w, Raise e)) ∧
  (∀ index recorded existing,
     load = Ok index → rec_files index.2 = Ok recorded →
     existing_files storage = Ok existing → existing ⊆ recorded →
     runM update w = (w, Ok index)).
Proof.
  unfold update_repo, reconcile. split_and!.
  - intros e H. cbn -[load_index files_to_add add_files]. by rewrite H.
  - intros index e H Ht. cbn -[load_index files_to_add add_files].
    rewrite H. cbn -[load_index files_to_add add_files]. by rewrite Ht.
  - intros index recorded existing H Hr He Hsub.
    cbn -[load_index files_to_add add_files].
    rewrite H. cbn -[load_index files_to_add add_files].
    unfold files_to_add. rewrite Hr, He. simpl.
    assert (existing ∖ recorded = ∅) as ->.
    { apply set_eq. intros x. rewrite elem_of_difference. split.
      - intros [Hx Hn]. destruct Hn. by apply Hsub.
      - by intros ?%not_elem_of_empty. }
    by rewrite elements_empty.
Qed.

(** X15: the first part of [update_repo].  Without a summary document the
    index is empty.  With a summary document that has no record of the type
    [filelists], it raises a TypeError; with one that has such a record but
    none of the type [primary], it raises a TypeError after the file lists
    document has been read and parsed; and an error of reading the file
    lists document comes first. *)
Theorem load_index_edges :
  (st_exists storage "repodata/repomd.xml" = false → load = Ok (∅, ∅)) ∧
  (∀ data root,
     st_exists storage "repodata/repomd.xml" = true →
     st_read_file storage "repodata/repomd.xml" = Ok data →
     fromstring data = Ok root →
     (∀ child, child ∈ children root → typed child → is_Ok (repomd_result child)) →
     ((∀ child, child ∈ children root → ¬ has_type "filelists" child) →
      load = Raise TypeError) ∧
     (∀ cf rf e,
        filter (has_type "filelists") (children root) = [cf] →
        repomd_result cf = Ok rf →
        st_read_file storage (loc_location rf) = Raise e →
        load = Raise e) ∧
     (∀ cf rf fdata fxml froot packages,
        filter (has_type "filelists") (children root) = [cf] →
        repomd_result cf = Ok rf →
        st_read_file storage (loc_location rf) = Ok fdata →
        gunzip_string fdata = Ok fxml → fromstring fxml = Ok froot →
        parse_filelists froot = Ok packages →
        (∀ child, child ∈ children root → ¬ has_type "primary" child) →
        load = Raise TypeError)).
Proof.
  split.
  - unfold load_index. by intros ->.
  - intros data root Hex Hrd Hfs Hall.
    destruct (proj2 (parse_repomd_loop_Ok (children root) None None) Hall)
      as [[fl pr] Hp].
    pose proof (parse_repomd_loop_pick _ _ _ _ Hp) as [= -> ->].
    unfold load_index. rewrite Hex, Hrd. simpl. rewrite Hfs. simpl.
    unfold parse_repomd. rewrite Hp. simpl. split_and!.
    + intros Hno. by rewrite (pick_none "filelists") by done.
    + intros cf rf e Hcf Hrf Hrd'. rewrite (pick_one "filelists" _ _ cf rf) by done.
      simpl. by rewrite Hrd'.
    + intros cf rf fdata fxml froot packages Hcf Hrf Hrd' Hgz Hfs' Hpf Hno.
      rewrite (pick_one "filelists" _ _ cf rf) by done. simpl.
      rewrite Hrd'. simpl. rewrite Hgz. simpl. rewrite Hfs'. simpl.
      rewrite Hpf. simpl. by rewrite (pick_none "primary") by done.
Qed.

End EngineRuns.

Section Recorded.

Context (RPMSENSE_RPMLIB : Z) (flags_to_str : Z -> option string)
        (py_float : string -> res number)
        (parse_file : string -> res Header)
        (hexdigest : string -> string)
        (storage : Storage).

Hypothesis py_float_int :
  ∀ z : Z, Z.abs z ≤ 2 ^ 53 → py_float (py_str z) = Ok (number_of_Z z).

(** X21: after an archive is added, the set of recorded files holds the
    pair of its path and its time truncated to an integer, so an archive
    whose time is an integer is not in the next diff; and every other
    recorded pair comes from a record that the index had before. *)
Theorem ingested_pair_recorded (p : string) (m : number) (index index' : Index)
    (w w' : World) (recorded : gset (string * number)) :
  runM (add_file RPMSENSE_RPMLIB flags_to_str parse_file hexdigest storage
          (p, m) index) w = (w', Ok index') →
  Z.abs (py_int m) ≤ 2 ^ 53 →
  recorded_files py_float index'.2 = Ok recorded →
  (p, number_of_Z (py_int m)) ∈ recorded ∧
  (integral m → ∀ existing, (p, m) ∉ existing ∖ recorded) ∧
  (∀ q t, (q, t) ∈ recorded →
     (q, t) = (p, number_of_Z (py_int m)) ∨
     ∃ k package, index.2 !! k = Some package ∧ pri_location package = q ∧
                  py_float (pri_file_time package) = Ok t).
Proof.
  intros (key & prim & flist & -> & _ & _ & Hloc & Hft)%add_file_Ok_identity Hm Hr.
  simpl in *. unfold recorded_files in Hr.
  pose proof (recorded_loop_spec RPMSENSE_RPMLIB flags_to_str py_float parse_file
                hexdigest _ _ _ Hr) as Hspec.
  assert ((p, number_of_Z (py_int m)) ∈ recorded) as Hin.
  { apply Hspec. right. exists prim. split_and!; [| done |].
    - apply elem_of_values. exists key. apply lookup_insert_eq.
    - rewrite Hft. by apply py_float_int. }
  split_and!; [done | |].
  - intros Hi%integral_py_int existing [_ Hn]%elem_of_difference.
    apply Hn. rewrite Hi in Hin. exact Hin.
  - intros q t [[]%not_elem_of_empty | (package & [k Hk]%elem_of_values & <- & Hf)]%Hspec.
    destruct (decide (key = k)) as [<- | Hne].
    + rewrite lookup_insert_eq in Hk. injection Hk as <-. left.
      rewrite Hft, (py_float_int _ Hm) in Hf. injection Hf as <-. by rewrite Hloc.
    + rewrite lookup_insert_ne in Hk by done. right. by exists k, package.
Qed.

End Recorded.

(** ** Examples *)

Example parse_ver_str_ex1 :
  parse_ver_str (Some "1:2.3-4.el7") = Ok (Some "1", Some "2.3", Some "4.el7").
Proof. vm_compute. reflexivity. Qed.

Example parse_ver_str_ex2 :
  parse_ver_str (Some "2.3-4") = Ok (Some "0", Some "2.3", Some "4").
Proof. vm_compute. reflexivity. Qed.

Example parse_ver_str_ex3 : parse_ver_str (Some "2.3") = Raise (cant_parse "2.3").
Proof. vm_compute. reflexivity. Qed.

Example parse_ver_str_ex4 : parse_ver_str (Some "1-2-3") = Raise (cant_parse "1-2-3").
Proof. vm_compute. reflexivity. Qed.

Example endswith_ex :
  endswith (qname ns_common "package") "}package" = true ∧
  endswith "package" "}package" = false ∧
  endswith (qname ns_common "packages") "}package" = false.
Proof. vm_compute. done. Qed.

Example py_index_ex :
  py_index ["a"; "b"; "c"] (-1) = Ok "c" ∧ py_index ["a"; "b"; "c"] 0 = Ok "a" ∧
  py_index ["a"; "b"; "c"] 3 = Raise IndexError ∧
  py_index ["a"; "b"; "c"] (-4) = Raise IndexError.
Proof. vm_compute. done. Qed.

Example rpm_expr_ex :
  is_Some (Re.re_match rpm_expr "dir/a.rpm") ∧
  Re.re_match rpm_expr "a.rpm.sig" = None ∧
  is_Some (Re.re_match rpm_expr ("a.rpm" +:+ nl)) ∧
  Re.re_match rpm_expr ("a" +:+ nl +:+ "b.rpm") = None.
Proof.
  split_and!.
  - eexists. vm_compute. reflexivity.
  - vm_compute. reflexivity.
  - eexists. vm_compute. reflexivity.
  - vm_compute. reflexivity.
Qed.

Lemma parse_ver_str_spec_witness :
  parse_ver_str (Some "1:2.3-4.el7") = Ok (Some "1", Some "2.3", Some "4.el7") ∧
  parse_ver_str (Some "2.3-4") = Ok (Some "0", Some "2.3", Some "4").
Proof.
  destruct parse_ver_str_spec as (_ & _ & H). split.
  - destruct (H "1:2.3-4.el7") as (_ & _ & Hok & _); [done|].
    by apply (Hok "1" "2.3" "4.el7").
  - destruct (H "2.3-4") as (_ & _ & _ & Hok & _); [done|].
    apply (Hok "2.3" "4"); [done | done | | done].
    intros (d & t & [Hne Hd] & Hs).
    destruct d as [|c1 [|c2 d]]; simpl in Hs; [done | by injection Hs |].
    injection Hs as <- <- _. done.
Defined.

Lemma rpmlib_requires_dropped_witness :
  match header_to_primary sample_rpmlib sample_flags_to_str deps_header "00" t100 "foo.rpm" with
  | Ok (key, prim) =>
      fmt_requires (pri_format prim)
        !! ("rpmlib(CompressedFileNames)", Some "0", Some "1", Some "3.0.4") = None
  | Raise _ => False
  end.
Proof.
  assert (is_Ok (header_to_primary sample_rpmlib sample_flags_to_str deps_header "00"
                   t100 "foo.rpm")) as [[key prim] E]
    by (eexists; vm_compute; reflexivity).
  rewrite E.
  refine (proj1 (proj2 (rpmlib_requires_dropped sample_rpmlib sample_flags_to_str
    deps_header "00" t100 "foo.rpm" key prim E))
    "rpmlib(CompressedFileNames)" "3.0.4-1" 16777226
    (Some "0", Some "3.0.4", Some "1") _ _ _ _).
  - apply list_elem_of_here.
  - vm_compute. discriminate.
  - vm_compute; reflexivity.
  - intros n v f evr Hin Hi Hp.
    unfold requires_entries, deps_header, sample_header, zip3 in Hin. simpl in Hin.
    repeat (apply elem_of_cons in Hin as [[= -> -> ->] | Hin]);
      [by destruct Hi | | | by apply elem_of_nil in Hin].
    all: vm_compute in Hp; injection Hp as <-; vm_compute; discriminate.
Defined.

(** C7 as stated fails: of two kept entries with one key the first has a
    flag of 4352, and the record stored under their key, which is that of
    the second, has no marker. *)
Lemma shadowed_prerequisite :
  requires_entries shadowed_header = [("/bin/sh", "", 256); ("/bin/sh", "", 0)] ∧
  Z.land 256 sample_rpmlib = 0 ∧ Z.land 256 4352 ≠ 0 ∧
  (λ r, req_pre <$> fmt_requires (pri_format r.2) !! ("/bin/sh", None, None, None)) <$>
    header_to_primary sample_rpmlib sample_flags_to_str shadowed_header "00" t100 "a.rpm"
    = Ok (Some None).
Proof.
  split_and!; [reflexivity | reflexivity | vm_compute; discriminate |
               vm_compute; reflexivity].
Qed.

Lemma requires_pre_marker_witness :
  match header_to_primary sample_rpmlib sample_flags_to_str deps_header "00" t100 "foo.rpm" with
  | Ok (key, prim) =>
      ∃ rec, fmt_requires (pri_format prim) !! ("/bin/sh", None, None, None) = Some rec ∧
             req_pre rec = Some "1"
  | Raise _ => False
  end.
Proof.
  destruct (header_to_primary sample_rpmlib sample_flags_to_str deps_header "00" t100
              "foo.rpm") as [[key prim]|e] eqn:E.
  - destruct (proj1 (requires_pre_marker sample_rpmlib sample_flags_to_str
                deps_header "00" t100 "foo.rpm" key prim E)
                [("rpmlib(CompressedFileNames)", "3.0.4-1", 16777226);
                 ("libc.so.6", "", 0)] "/bin/sh" "" 256 [] None None None)
      as (rec & Hk & _ & _ & Hpre & _).
    + reflexivity.
    + vm_compute. intros Hi. by apply Hi.
    + vm_compute. reflexivity.
    + intros n v f e' v' r' Hin. by apply elem_of_nil in Hin.
    + exists rec. split; [exact Hk|]. apply Hpre. vm_compute. discriminate.
  - assert (succeeds (header_to_primary sample_rpmlib sample_flags_to_str deps_header
                        "00" t100 "foo.rpm") = true) as H by (vm_compute; reflexivity).
    rewrite E in H. discriminate H.
Defined.

Lemma foo_header_records_witness :
  ∃ key prim fl,
    header_to_primary sample_rpmlib sample_flags_to_str foo_header "00" t100 "a.rpm"
      = Ok (key, prim) ∧
    header_to_filelists foo_header "00" = Ok (key, fl) ∧
    pri_identity prim = key ∧ fl_identity fl = key ∧
    fmt_files (pri_format prim) = foo_files ∧ fl_files fl = foo_files ∧
    fmt_provides (pri_format prim) = ∅ ∧ fmt_requires (pri_format prim) = ∅ ∧
    fmt_obsoletes (pri_format prim) = ∅.
Proof.
  apply (foo_header_records sample_rpmlib sample_flags_to_str foo_header "00" t100 "a.rpm"
           (PyStr "foo") (PyStr "x86_64") (PyStr "A sample") (PyStr "A sample package")
           (PyInt 1500000000) (PyStr "http://example.org/") (PyStr "1.0"));
    reflexivity.
Defined.

(** C8 as stated fails: a header and a package node with an empty name
    give records whose identity has the empty name. *)
Lemma empty_name_accepted :
  (λ r, (nerv_name r.1, fl_name r.2)) <$> header_to_filelists nameless_header "00"
    = Ok (PyStr "", PyStr "") ∧
  (λ r, (nerv_name r.1, pri_name r.2)) <$>
    header_to_primary sample_rpmlib sample_flags_to_str nameless_header "00" t100 "a.rpm"
    = Ok (PyStr "", PyStr "") ∧
  (λ packages, (λ kv, (nerv_name kv.1, fl_name kv.2)) <$> map_to_list packages) <$>
    parse_filelists (Elem (qname ns_filelists "filelists") ∅ None [nameless_package])
    = Ok [(PyStr "", PyStr "")].
Proof. split_and!; vm_compute; reflexivity. Qed.

Lemma name_not_validated_witness :
  match header_to_filelists nameless_header "00" with
  | Ok (key, fl) =>
      NAME nameless_header = Some (nerv_name key) ∧ fl_name fl = nerv_name key
  | Raise _ => False
  end.
Proof.
  assert (is_Ok (header_to_filelists nameless_header "00")) as [[key fl] E]
    by (eexists; vm_compute; reflexivity).
  rewrite E.
  exact (proj1 (name_not_validated sample_rpmlib sample_flags_to_str)
           nameless_header "00" key fl E).
Defined.

(** C9 as stated fails: a directory index outside the directory table and
    with no base name next to it is never used, and valid indexes do not
    make the two functions succeed on a header without a name. *)
Lemma unpaired_dirindex_ignored :
  DIRINDEXES unpaired_header = Some [7] ∧ DIRNAMES unpaired_header = Some [] ∧
  ¬ valid_index ([] : list string) 7 ∧
  fl_files <$> (snd <$> header_to_filelists unpaired_header "00") = Ok [] ∧
  (λ r, fmt_files (pri_format r.2)) <$>
    header_to_primary sample_rpmlib sample_flags_to_str unpaired_header "00" t100 "a.rpm"
    = Ok [] ∧
  DIRINDEXES (with_NAME None foo_header) = Some [0] ∧
  DIRNAMES (with_NAME None foo_header) = Some ["/usr/bin/"] ∧
  valid_index ["/usr/bin/"] 0 ∧
  header_to_filelists (with_NAME None foo_header) "00" = Raise (KeyError "NAME") ∧
  header_to_primary sample_rpmlib sample_flags_to_str (with_NAME None foo_header) "00"
    t100 "a.rpm" = Raise (KeyError "NAME").
Proof.
  split_and!; try reflexivity.
  - unfold valid_index. simpl. lia.
  - unfold valid_index. simpl. lia.
Qed.

Lemma dirindex_bounds_witness :
  is_Ok (manifest ["/usr/bin/"] ["foo"] [0]) ∧
  is_Ok (header_to_filelists foo_header "00") ∧
  manifest ["/usr/bin/"] ["foo"] [1] = Raise IndexError ∧
  ¬ is_Ok (header_to_filelists
             (sample_header (PyStr "foo") [] [] [] ["foo"] ["/usr/bin/"] [1]) "00").
Proof.
  destruct (dirindex_bounds sample_rpmlib sample_flags_to_str foo_header "00" t100
              "a.rpm" ["/usr/bin/"] ["foo"] [0] eq_refl eq_refl eq_refl) as [Hok _].
  destruct Hok as (Hm & Hfl & _).
  { intros [|j] i Hj; simpl in *; [|lia]. intros [= <-]. unfold valid_index. simpl. lia. }
  destruct (dirindex_bounds sample_rpmlib sample_flags_to_str
              (sample_header (PyStr "foo") [] [] [] ["foo"] ["/usr/bin/"] [1]) "00" t100
              "a.rpm" ["/usr/bin/"] ["foo"] [1] eq_refl eq_refl eq_refl) as [_ Hbad].
  destruct (Hbad 0%nat 1) as (Hm' & Hfl' & _).
  { simpl. lia. }
  { reflexivity. }
  { unfold valid_index. simpl. lia. }
  split_and!; try done.
  apply Hfl; by eexists.
Defined.



(** C1 as stated fails: the loaded index records [a.rpm] with the time 100,
    the storage reports it with the time 200 and the archive is added, but
    its header has the identity of the old entry: [update_repo] replaces
    the old entry and the index has one entry as before.  And a path with a
    newline inside is not an archive path although it ends in [.rpm]. *)
Lemma changed_mtime_replaces :
  Re.re_match rpm_expr ("a" +:+ nl +:+ "b.rpm") = None ∧
  index_view <$> load_index sample_fromstring sample_gunzip (repo_storage t200)
    = Ok [(foo_key, ("a.rpm", "100"))] ∧
  files_to_add sample_float (repo_storage t200) loaded_index.2
    = Ok {[ ("a.rpm", t200) ]} ∧
  index_view <$> (run_update (repo_storage t200) sample_parse_file).2
    = Ok [(foo_key, ("a.rpm", "200"))].
Proof. split_and!; vm_compute; reflexivity. Qed.

Lemma reconcile_diff_witness :
  ∃ recorded existing,
    recorded_files sample_float loaded_index.2 = Ok recorded ∧
    existing_files (repo_storage t200) = Ok existing ∧
    ({[ ("a.rpm", t200) ]} : gset (string * number)) = existing ∖ recorded ∧
    ("a.rpm", t100) ∈ recorded ∧ ("a.rpm", t200) ∈ existing ∧
    ("a.rpm", t100) ∉ ({[ ("a.rpm", t200) ]} : gset (string * number)).
Proof.
  destruct (proj1 (proj2 (reconcile_diff sample_rpmlib sample_flags_to_str sample_float
              sample_parse_file sample_hexdigest (repo_storage t200) loaded_index.2))
              {[ ("a.rpm", t200) ]})
    as (recorded & existing & paths & Hr & Hp & He & Hd & Hrec & Hex & Hskip & _).
  { vm_compute. reflexivity. }
  exists recorded, existing.
  assert (("a.rpm", t100) ∈ recorded) as Hin.
  { apply Hrec.
    assert (is_Some (loaded_index.2 !! foo_key)) as [old E]
      by (eexists; vm_compute; reflexivity).
    exists foo_key, old. split; [exact E|].
    assert (Some (pri_location old, pri_file_time old) = Some ("a.rpm", "100")) as [= -> ->].
    { change (Some (pri_location old, pri_file_time old))
        with ((λ p, (pri_location p, pri_file_time p)) <$> Some old).
      rewrite <- E. vm_compute. reflexivity. }
    split; [reflexivity | vm_compute; reflexivity]. }
  split_and!.
  - exact Hr.
  - exact He.
  - exact Hd.
  - exact Hin.
  - apply Hex. injection Hp as <-. split_and!.
    + apply list_elem_of_here.
    + exists "a", "". split_and!; [reflexivity | reflexivity | by left].
    + reflexivity.
  - exact (Hskip _ _ Hin).
Defined.

(** C6 as stated fails: when the download raises, and when the header
    extractor raises, [update_repo] ends with the error and the scratch
    directory is still there. *)
Lemma scratch_left_on_error :
  scratch world0 = ∅ ∧
  (run_update (offline_storage t100) sample_parse_file).2
    = Raise (CollaboratorError "download_file") ∧
  scratch (run_update (offline_storage t100) sample_parse_file).1
    = {[ 0%nat := None ]} ∧
  (run_update (sample_storage t100) corrupt_parse_file).2
    = Raise (CollaboratorError "parse_file") ∧
  scratch (run_update (sample_storage t100) corrupt_parse_file).1
    = {[ 0%nat := Some "foo-1.0-1.x86_64" ]}.
Proof. split_and!; vm_compute; reflexivity. Qed.

Lemma scratch_released_witness :
  scratch (runM (add_file sample_rpmlib sample_flags_to_str sample_parse_file
                   sample_hexdigest (sample_storage t100) ("a.rpm", t100) (∅, ∅))
             world0).1 = scratch world0 ∧
  (runM (add_file sample_rpmlib sample_flags_to_str sample_parse_file
           sample_hexdigest (offline_storage t100) ("a.rpm", t100) (∅, ∅))
     world0).2 = Raise (CollaboratorError "download_file").
Proof.
  split.
  - refine (proj1 (proj2 (scratch_released sample_rpmlib sample_flags_to_str
      sample_parse_file sample_hexdigest (sample_storage t100) ("a.rpm", t100) (∅, ∅)
      world0)) "foo-1.0-1.x86_64" foo_header _ _); reflexivity.
  - refine (proj1 (proj1 (proj2 (proj2 (scratch_released sample_rpmlib
      sample_flags_to_str sample_parse_file sample_hexdigest (offline_storage t100)
      ("a.rpm", t100) (∅, ∅) world0))) (CollaboratorError "download_file") _));
      reflexivity.
Defined.

Lemma round_binary64_small (z : Z) : Z.abs z ≤ 2 ^ 53 → round_binary64 z = z.
Proof. intros H%Z.leb_le. unfold round_binary64. cbn zeta. by rewrite H. Qed.

(** The rounding sample of [float] is exact on the integers up to 2^53. *)
Lemma binary64_float_int (z : Z) :
  Z.abs z ≤ 2 ^ 53 → binary64_float (py_str z) = Ok (number_of_Z z).
Proof.
  intros H. unfold binary64_float, py_str.
  destruct (to_int_not_nil z) as [H1 H2].
  rewrite NilZero.isi by done. by rewrite DecimalZ.of_to, round_binary64_small.
Qed.

(** C10 as stated fails: the time 2^53 + 1 is an integer, the record holds
    its digits, and a [float] that rounds as a binary64 float reads 2^53
    from them, not the time; so the archive, recorded with that time, is
    in the diff again when the storage still reports that time. *)
Lemma large_time_not_recovered :
  integral t_large ∧
  (λ r, pri_file_time r.2) <$>
    header_to_primary sample_rpmlib sample_flags_to_str foo_header "00" t_large "a.rpm"
    = Ok "9007199254740993" ∧
  py_int <$> binary64_float "9007199254740993" = Ok 9007199254740992 ∧
  binary64_float "9007199254740993" ≠ Ok t_large ∧
  header_to_primary sample_rpmlib sample_flags_to_str foo_header "00" t_large "a.rpm"
    ≫= (λ r, (λ todo, bool_decide (("a.rpm", t_large) ∈ todo)) <$>
               files_to_add binary64_float (sample_storage t_large) {[ r.1 := r.2 ]})
    = Ok true.
Proof.
  split_and!.
  - by exists 9007199254740993.
  - vm_compute. reflexivity.
  - vm_compute. reflexivity.
  - intros H. apply (f_equal (fmap py_int)) in H. vm_compute in H. discriminate H.
  - vm_compute. reflexivity.
Qed.

Lemma file_time_truncated_witness :
  match header_to_primary sample_rpmlib sample_flags_to_str foo_header "00" t100_5 "a.rpm" with
  | Ok (key, prim) =>
      pri_file_time prim = "100" ∧
      sample_float (pri_file_time prim) = Ok t100 ∧
      ¬ integral t100_5 ∧
      (∀ t, sample_float (pri_file_time prim) = Ok t →
            (pri_location prim, t) ≠ ("a.rpm", t100_5))
  | Raise _ => False
  end.
Proof.
  assert (is_Ok (header_to_primary sample_rpmlib sample_flags_to_str foo_header "00"
                   t100_5 "a.rpm")) as [[key prim] E]
    by (eexists; vm_compute; reflexivity).
  rewrite E.
  assert (Hni : ¬ integral t100_5).
  { intros Hi%integral_py_int. vm_compute in Hi. discriminate Hi. }
  destruct (file_time_truncated sample_rpmlib sample_flags_to_str sample_float
              (λ z _, sample_float_int z) foo_header "00" t100_5 "a.rpm" key prim E)
    as (Hft & _ & Hrest).
  destruct Hrest as (Hfl & _ & _ & Hne); [vm_compute; discriminate|].
  split_and!.
  - exact Hft.
  - exact Hfl.
  - exact Hni.
  - exact (Hne Hni).
Defined.

(** ** Examples of the further properties *)

Lemma parse_ver_str_one_dash_witness :
  is_Ok (parse_ver_str (Some "1.0-1")) ∧
  parse_ver_str (Some "1.0") = Raise (cant_parse "1.0").
Proof.
  split.
  - destruct (parse_ver_str_one_dash "1.0-1") as [H _]; [done|].
    apply H. reflexivity.
  - destruct (parse_ver_str_one_dash "1.0") as [_ H]; [done|].
    apply H. simpl. lia.
Defined.

Lemma parse_ver_str_zero_epoch_witness :
  parse_ver_str (Some "0:2.3-4") = parse_ver_str (Some "2.3-4").
Proof.
  apply (parse_ver_str_zero_epoch "2.3" "4"); [done | done |].
  intros (d & t & [Hne Hd] & Hs).
  destruct d as [|c1 [|c2 d]]; simpl in Hs; [done | by injection Hs |].
  injection Hs as <- <- _. done.
Defined.

Lemma header_to_filelists_succeeds_iff_witness :
  is_Ok (header_to_filelists foo_header "00") ∧
  ¬ is_Ok (header_to_filelists (with_NAME None foo_header) "00").
Proof.
  split.
  - apply (proj1 (header_to_filelists_succeeds_iff foo_header "00")).
    split_and!; [by eexists.. |].
    exists ["/usr/bin/"], ["foo"], [0]. split_and!; [reflexivity..|].
    intros [|j] i Hj; simpl in *; [|lia]. intros [= <-]. unfold valid_index. simpl. lia.
  - intros H.
    apply (proj1 (header_to_filelists_succeeds_iff (with_NAME None foo_header) "00"))
      in H as ([x Hx] & _).
    discriminate Hx.
Defined.

Lemma header_to_primary_succeeds_iff_witness :
  is_Ok (header_to_primary sample_rpmlib sample_flags_to_str deps_header "00" t100
           "foo.rpm") ∧
  ¬ is_Ok (header_to_primary sample_rpmlib sample_flags_to_str norelease_header "00"
             t100 "foo.rpm").
Proof.
  split.
  - apply (header_to_primary_succeeds_iff sample_rpmlib sample_flags_to_str).
    split_and!; [apply succeeds_is_Ok; vm_compute; reflexivity | by eexists.. |].
    intros n v f Hin.
    unfold provides_entries, requires_entries, obsoletes_entries, deps_header,
      sample_header, zip3 in Hin. simpl in Hin.
    repeat (apply elem_of_cons in Hin as [[= -> -> ->] | Hin]);
      [by right | by left | by left | by apply elem_of_nil in Hin].
  - intros H.
    apply (header_to_primary_succeeds_iff sample_rpmlib sample_flags_to_str) in H
      as (_ & _ & _ & _ & _ & H).
    destruct (H "foo" "1.0" 8) as [Hv | Hv]; [apply list_elem_of_here | done..].
Defined.

Lemma mapper_records_agree_witness :
  match header_to_primary sample_rpmlib sample_flags_to_str foo_header "00" t100 "a.rpm" with
  | Ok (key, prim) =>
      ∃ fl, header_to_filelists foo_header "00" = Ok (key, fl) ∧
            fmt_files (pri_format prim) = fl_files fl ∧
            pri_checksum prim = fl_pkgid fl
  | Raise _ => False
  end.
Proof.
  destruct (header_to_primary sample_rpmlib sample_flags_to_str foo_header "00" t100
              "a.rpm") as [[key prim]|e] eqn:E.
  - destruct (mapper_records_agree sample_rpmlib sample_flags_to_str foo_header "00"
                t100 "a.rpm" key prim E)
      as (fl & Hfl & _ & _ & Hc & Hp & _ & _ & Hf & _).
    exists fl. split_and!; [exact Hfl | exact Hf | by rewrite Hc, Hp].
  - assert (succeeds (header_to_primary sample_rpmlib sample_flags_to_str foo_header
                        "00" t100 "a.rpm") = true) as H by (vm_compute; reflexivity).
    rewrite E in H. discriminate H.
Defined.

Lemma provides_last_wins_witness :
  match header_to_primary sample_rpmlib sample_flags_to_str twice_header "00" t100 "a.rpm" with
  | Ok (key, prim) =>
      fmt_provides (pri_format prim) !! ("foo", Some "0", Some "1", Some "1.0")
        = Some (mkDep "foo" (Some "0") (Some "1") (Some "1.0") None)
  | Raise _ => False
  end.
Proof.
  destruct (header_to_primary sample_rpmlib sample_flags_to_str twice_header "00" t100
              "a.rpm") as [[key prim]|e] eqn:E.
  - refine (proj1 (proj2 (provides_last_wins sample_rpmlib sample_flags_to_str
      twice_header "00" t100 "a.rpm" key prim E))
      [("foo", "1.0-1", 8)] "foo" "1.0-1" 0 [] (Some "0", Some "1.0", Some "1") _ _ _).
    + reflexivity.
    + vm_compute. reflexivity.
    + intros n v f evr Hin. by apply elem_of_nil in Hin.
  - assert (succeeds (header_to_primary sample_rpmlib sample_flags_to_str twice_header
                        "00" t100 "a.rpm") = true) as H by (vm_compute; reflexivity).
    rewrite E in H. discriminate H.
Defined.

Lemma manifest_shape_witness :
  match header_to_filelists foo_header "00" with
  | Ok (key, fl) => fl_files fl !! 0%nat = Some (mkFile (Some "/usr/bin/foo") file)
  | Raise _ => False
  end.
Proof.
  destruct (header_to_filelists foo_header "00") as [[key fl]|e] eqn:E.
  - destruct (manifest_shape foo_header "00" key fl ["/usr/bin/"] ["foo"] [0] E
                eq_refl eq_refl eq_refl) as (fp & _ & _ & _ & H & _).
    destruct (H 0%nat "foo" 0 eq_refl eq_refl) as (_ & d & Hd & Hf).
    injection Hd as <-. exact Hf.
  - discriminate E.
Defined.

Lemma parse_filelists_spec_witness : is_Ok (parse_filelists filelists_doc).
Proof.
  apply (proj1 (parse_filelists_spec filelists_doc)).
  intros child Hin _. simpl in Hin.
  apply elem_of_cons in Hin as [-> | Hin]; [|by apply elem_of_nil in Hin].
  apply succeeds_is_Ok. vm_compute. reflexivity.
Defined.

Lemma parse_primary_spec_witness : is_Ok (parse_primary primary_doc).
Proof.
  apply (proj1 (parse_primary_spec primary_doc)).
  intros child Hin _. simpl in Hin.
  apply elem_of_cons in Hin as [-> | Hin]; [|by apply elem_of_nil in Hin].
  apply succeeds_is_Ok. vm_compute. reflexivity.
Defined.

Lemma filelists_package_spec_witness :
  fl_files <$> (snd <$> filelists_package nameless_package)
    = Ok [mkFile (Some "/usr/bin/foo") file].
Proof.
  assert (filelists_package nameless_package
            = Ok ((PyStr "", PyStr "0", PyStr "1", PyStr "1.0"),
                  mkFilelists (PyStr "00") (PyStr "") (PyStr "x86_64")
                    (mkVersion (PyStr "1.0") (PyStr "1") (PyStr "0"))
                    (file_of_node <$>
                       findall nameless_package (qname ns_filelists "file")))) as E.
  { apply (proj1 (filelists_package_spec nameless_package)).
    exists "00", "", "x86_64",
      (Elem (qname ns_filelists "version")
         (<["ver" := "1.0"]> (<["rel" := "1"]> {["epoch" := "0"]})) None []),
      "1.0", "1", "0".
    split_and!; reflexivity. }
  rewrite E. reflexivity.
Defined.

Lemma primary_dependencies_spec_witness :
  match primary_package deps_package with
  | Ok (key, p) =>
      fmt_provides (pri_format p) = ∅ ∧
      fmt_requires (pri_format p) !! ("/bin/sh", None, None, None)
        = Some (mkReq "/bin/sh" None None None None (Some "1"))
  | Raise _ => False
  end.
Proof.
  destruct (primary_package deps_package) as [[key p]|e] eqn:E.
  - destruct (primary_dependencies_spec deps_package key p E)
      as (fmt & Hf & Hpro & _ & _ & _ & _ & _ & _ & Hlast & _ & _).
    assert (find deps_package (qname ns_common "format") = Some deps_format) as Hf'
      by reflexivity.
    rewrite Hf' in Hf. injection Hf as <-.
    split.
    + apply Hpro. reflexivity.
    + apply (Hlast [attr_node ns_rpm "entry" {["name" := "libc.so.6"]}]
               (attr_node ns_rpm "entry" (<["name" := "/bin/sh"]> {["pre" := "1"]})) []).
      * reflexivity.
      * reflexivity.
      * intros c rec Hin. apply elem_of_nil in Hin. destruct Hin.
  - assert (succeeds (primary_package deps_package) = true) as H
      by (vm_compute; reflexivity).
    rewrite E in H. discriminate H.
Defined.

Lemma primary_package_requires_witness :
  is_Some (find deps_package (qname ns_common "packager")) ∧
  is_Some (find deps_package (qname ns_common "format")).
Proof.
  assert (is_Ok (primary_package deps_package)) as Hok
    by (apply succeeds_is_Ok; vm_compute; reflexivity).
  destruct (proj1 (primary_package_requires deps_package) Hok)
    as [Hc (fmt & Hf & _)].
  split.
  - apply Hc. in_list.
  - rewrite Hf. by eexists.
Defined.

Lemma parse_repomd_last_wins_witness :
  match parse_repomd twice_repomd with
  | Ok (fl, pr) => loc_location <$> fl = Some "repodata/filelists.xml.gz"
  | Raise _ => False
  end.
Proof.
  destruct (parse_repomd twice_repomd) as [[fl pr]|e] eqn:E.
  - destruct (proj1 (parse_repomd_last_wins twice_repomd) fl pr
                [data_record "filelists" "repodata/old.xml.gz"]
                (data_record "filelists" "repodata/filelists.xml.gz")
                [data_record "primary" "repodata/primary.xml.gz"] E eq_refl)
      as [Hf _].
    destruct Hf as (r & Hr & ->).
    + reflexivity.
    + intros c Hin Hc.
      apply elem_of_cons in Hin as [-> | Hin]; [|by apply elem_of_nil in Hin].
      vm_compute in Hc. discriminate Hc.
    + vm_compute in Hr. injection Hr as <-. reflexivity.
  - assert (succeeds (parse_repomd twice_repomd) = true) as H
      by (vm_compute; reflexivity).
    rewrite E in H. discriminate H.
Defined.

Lemma is_package_spec_witness :
  is_package (Elem (qname ns_common "package") ∅ None []) ∧
  ¬ is_package (Elem "package" ∅ None []).
Proof.
  destruct is_package_spec as (_ & Hyes & Hno). split.
  - apply Hyes.
  - apply Hno. simpl. lia.
Defined.

Lemma load_index_edges_witness :
  load_index primary_only_fromstring sample_gunzip (repo_storage t100)
    = Raise TypeError.
Proof.
  refine (proj1 (proj2 (load_index_edges primary_only_fromstring sample_gunzip
    (repo_storage t100)) "repodata/repomd.xml" primary_only_repomd _ _ _ _) _).
  - reflexivity.
  - reflexivity.
  - reflexivity.
  - intros child Hin _. simpl in Hin.
    apply elem_of_cons in Hin as [-> | Hin]; [|by apply elem_of_nil in Hin].
    apply succeeds_is_Ok. vm_compute. reflexivity.
  - intros child Hin Hc. simpl in Hin.
    apply elem_of_cons in Hin as [-> | Hin]; [|by apply elem_of_nil in Hin].
    vm_compute in Hc. discriminate Hc.
Defined.

Lemma files_to_add_succeeds_iff_witness :
  is_Ok (files_to_add sample_float (sample_storage t100) ∅).
Proof.
  apply (proj1 (files_to_add_succeeds_iff sample_float (sample_storage t100) ∅)).
  split.
  - intros k package Hk. by rewrite lookup_empty in Hk.
  - exists ["a.rpm"; "README"]. split; [reflexivity|].
    intros p _ _. by eexists.
Defined.

Lemma update_repo_quiet_witness :
  (run_update (repo_storage t100) sample_parse_file).1 = world0.
Proof.
  assert (match load_index sample_fromstring sample_gunzip (repo_storage t100) with
          | Ok index =>
              match recorded_files sample_float index.2,
                    existing_files (repo_storage t100) with
              | Ok recorded, Ok existing => bool_decide (existing ⊆ recorded)
              | _, _ => false
              end
          | Raise _ => false
          end = true) as H by (vm_compute; reflexivity).
  destruct (load_index sample_fromstring sample_gunzip (repo_storage t100))
    as [index|e] eqn:El; [|discriminate H].
  destruct (recorded_files sample_float index.2) as [recorded|e] eqn:Er;
    [|discriminate H].
  destruct (existing_files (repo_storage t100)) as [existing|e] eqn:Ex;
    [|discriminate H].
  apply bool_decide_eq_true in H. unfold run_update.
  by rewrite (proj2 (proj2 (update_repo_quiet sample_rpmlib sample_flags_to_str
    sample_fromstring sample_gunzip sample_float sample_parse_file sample_hexdigest
    (repo_storage t100) world0)) index recorded existing El Er Ex H).
Defined.

Lemma add_files_stdout_witness :
  stdout (runM (add_files sample_rpmlib sample_flags_to_str sample_parse_file
                  sample_hexdigest (offline_storage t100)
                  [("a.rpm", t100); ("b.rpm", t100)] (∅, ∅)) world0).1
    = ["Adding: 'a.rpm'"].
Proof.
  destruct (add_files_stdout sample_rpmlib sample_flags_to_str sample_parse_file
              sample_hexdigest (offline_storage t100)
              [("a.rpm", t100); ("b.rpm", t100)] (∅, ∅) world0)
    as (n & Hn & Hs & _ & Hr).
  destruct (Hr (CollaboratorError "download_file"))
    as (k & f & ik & wk & -> & Hk & Hrun & Hf & _); [reflexivity|].
  destruct k as [|[|k]]; simpl in Hk.
  - exact Hs.
  - assert (succeeds (runM (add_files sample_rpmlib sample_flags_to_str
                        sample_parse_file sample_hexdigest (offline_storage t100)
                        (take 1 [("a.rpm", t100); ("b.rpm", t100)]) (∅, ∅))
                      world0).2 = false) as H by (vm_compute; reflexivity).
    rewrite Hrun in H. discriminate H.
  - discriminate Hk.
Defined.

Lemma add_files_grows_witness :
  match (runM (add_files sample_rpmlib sample_flags_to_str sample_parse_file
                 sample_hexdigest (repo_storage t200) [("a.rpm", t200)] loaded_index)
           world0).2 with
  | Ok index' => dom loaded_index.2 ⊆ dom index'.2
  | Raise _ => False
  end.
Proof.
  destruct (runM (add_files sample_rpmlib sample_flags_to_str sample_parse_file
                    sample_hexdigest (repo_storage t200) [("a.rpm", t200)] loaded_index)
              world0) as [w' [index'|e]] eqn:E; simpl.
  - exact (proj1 (proj2 (proj2 (proj2 (add_files_grows sample_rpmlib
      sample_flags_to_str sample_parse_file sample_hexdigest (repo_storage t200)
      [("a.rpm", t200)] loaded_index index' world0 w' E))))).
  - assert (succeeds (runM (add_files sample_rpmlib sample_flags_to_str
                        sample_parse_file sample_hexdigest (repo_storage t200)
                        [("a.rpm", t200)] loaded_index) world0).2 = true) as H
      by (vm_compute; reflexivity).
    rewrite E in H. discriminate H.
Defined.

Lemma update_repo_keyed_witness :
  match (run_update (repo_storage t200) sample_parse_file).2 with
  | Ok index' => keyed_by_identity index'
  | Raise _ => False
  end.
Proof.
  destruct (run_update (repo_storage t200) sample_parse_file)
    as [w' [index'|e]] eqn:E; simpl.
  - exact (update_repo_keyed sample_rpmlib sample_flags_to_str sample_fromstring
             sample_gunzip sample_float sample_parse_file sample_hexdigest
             (repo_storage t200) world0 w' index' E).
  - assert (succeeds (run_update (repo_storage t200) sample_parse_file).2 = true) as H
      by (vm_compute; reflexivity).
    rewrite E in H. discriminate H.
Defined.

Lemma ingested_pair_recorded_witness :
  match (runM (add_file sample_rpmlib sample_flags_to_str sample_parse_file
                 sample_hexdigest (sample_storage t100) ("a.rpm", t100) (∅, ∅))
           world0).2 with
  | Ok index' =>
      match recorded_files sample_float index'.2 with
      | Ok recorded => ("a.rpm", number_of_Z (py_int t100)) ∈ recorded
      | Raise _ => False
      end
  | Raise _ => False
  end.
Proof.
  assert (match (runM (add_file sample_rpmlib sample_flags_to_str sample_parse_file
                         sample_hexdigest (sample_storage t100) ("a.rpm", t100) (∅, ∅))
                   world0).2 with
          | Ok index' => succeeds (recorded_files sample_float index'.2)
          | Raise _ => false
          end = true) as H by (vm_compute; reflexivity).
  destruct (runM (add_file sample_rpmlib sample_flags_to_str sample_parse_file
                    sample_hexdigest (sample_storage t100) ("a.rpm", t100) (∅, ∅))
              world0) as [w' [index'|e]] eqn:E; simpl in *; [|discriminate H].
  destruct (recorded_files sample_float index'.2) as [recorded|e] eqn:Er;
    [|discriminate H].
  refine (proj1 (ingested_pair_recorded sample_rpmlib sample_flags_to_str sample_float
    sample_parse_file sample_hexdigest (sample_storage t100)
    (λ z _, sample_float_int z) "a.rpm" t100 (∅, ∅) index' world0 w' recorded E _ Er)).
  vm_compute. discriminate.
Defined.
